(** * dev-events-website: the persistence layer, verified

    A shallow embedding of
      - [src/database/event.model.ts]   (Event schema and its pre-save hook),
      - [database/booking.model.ts]     (Booking schema and its pre-save hook),
      - [src/lib/mongodb.ts]            (the cached connection, [connectDB]),
    together with the parts of the JavaScript platform and of Mongoose the
    three files rely on: UTF-16 strings, [String.prototype.trim], the regular
    expressions written in the source, [Date], schema setters and validators,
    unique indexes, and the promise job queue. *)

From Stdlib Require Import ZArith NArith String Ascii Bool Lia List.
Import ListNotations.

Set Implicit Arguments.

(* ================================================================== *)
(** * JavaScript strings *)
(* ================================================================== *)

Module JS.

Local Open Scope N_scope.

(** A JavaScript string is a sequence of UTF-16 code units. *)
Definition codeunit := N.
Definition jsstring := list codeunit.

(** A string literal of the source, read as the code units of its (ASCII)
    characters. *)
Definition lit (s : string) : jsstring :=
  map N_of_ascii (list_ascii_of_string s).

Definition in_range (lo hi c : codeunit) : bool := (lo <=? c) && (c <=? hi).
Definition is_char (k c : codeunit) : bool := c =? k.

Definition is_digit : codeunit -> bool := in_range 48 57.
Definition is_upper : codeunit -> bool := in_range 65 90.
Definition is_lower : codeunit -> bool := in_range 97 122.

(** [\w] of a regular expression without the [u] and [i] flags:
    [[A-Za-z0-9_]]. *)
Definition is_word (c : codeunit) : bool :=
  is_upper c || is_lower c || is_digit c || is_char 95 c.

(** [\s]: the WhiteSpace and LineTerminator code points of ECMAScript.  The
    same set is what [String.prototype.trim] removes. *)
Definition is_space (c : codeunit) : bool :=
  in_range 9 13 c || is_char 32 c || is_char 160 c || is_char 5760 c
  || in_range 8192 8202 c || is_char 8232 c || is_char 8233 c
  || is_char 8239 c || is_char 8287 c || is_char 12288 c || is_char 65279 c.

Definition hyphen : codeunit := 45.
Definition is_hyphen : codeunit -> bool := is_char hyphen.

Fixpoint drop_while (p : codeunit -> bool) (s : jsstring) : jsstring :=
  match s with
  | [] => []
  | c :: r => if p c then drop_while p r else s
  end.

Definition drop_while_end (p : codeunit -> bool) (s : jsstring) : jsstring :=
  rev (drop_while p (rev s)).

(** [String.prototype.trim] *)
Definition trim (s : jsstring) : jsstring :=
  drop_while_end is_space (drop_while is_space s).

(** [s.replace(/[^C]/g, "")] for a character class [C]: every code unit
    outside the class is deleted. *)
Definition remove_outside (cls : codeunit -> bool) (s : jsstring) : jsstring :=
  filter cls s.

(** [s.replace(/[C]+/g, r)] for a character class [C]: the matches of a
    greedy [+] under the [g] flag are the maximal runs of class members, and
    each is replaced by [r].  [in_run] tells that the previous code unit
    belonged to a run that has been replaced already. *)
Fixpoint replace_runs (cls : codeunit -> bool) (r : jsstring)
    (in_run : bool) (s : jsstring) : jsstring :=
  match s with
  | [] => []
  | c :: rest =>
      if cls c
      then (if in_run then replace_runs cls r true rest
            else r ++ replace_runs cls r true rest)
      else c :: replace_runs cls r false rest
  end.

(** [s.replace(/^C+|C+$/g, "")] for a single character [C]: the run at the
    start of the string and the run at its end are deleted. *)
Definition strip_both (cls : codeunit -> bool) (s : jsstring) : jsstring :=
  drop_while_end cls (drop_while cls s).

(** ** Regular expressions, for [RegExp.prototype.test]

    The patterns tested in the source are anchored at both ends ([^...$],
    no [m] flag), so [test] decides membership of the whole string in the
    language of the pattern; derivatives compute that. *)
Inductive regex : Type :=
| Void : regex
| Eps : regex
| Class : (codeunit -> bool) -> regex
| Cat : regex -> regex -> regex
| Alt : regex -> regex -> regex
| Star : regex -> regex.

Definition Opt (r : regex) : regex := Alt r Eps.
Definition Plus (r : regex) : regex := Cat r (Star r).

Fixpoint nullable (r : regex) : bool :=
  match r with
  | Void => false
  | Eps => true
  | Class _ => false
  | Cat a b => nullable a && nullable b
  | Alt a b => nullable a || nullable b
  | Star _ => true
  end.

Fixpoint deriv (c : codeunit) (r : regex) : regex :=
  match r with
  | Void => Void
  | Eps => Void
  | Class p => if p c then Eps else Void
  | Cat a b =>
      if nullable a then Alt (Cat (deriv c a) b) (deriv c b)
      else Cat (deriv c a) b
  | Alt a b => Alt (deriv c a) (deriv c b)
  | Star a => Cat (deriv c a) (Star a)
  end.

Fixpoint matches (r : regex) (s : jsstring) : bool :=
  match s with
  | [] => nullable r
  | c :: rest => matches (deriv c r) rest
  end.

(** [/^r$/.test(s)] *)
Definition test (r : regex) (s : jsstring) : bool := matches r s.

(** The strings a pattern denotes. *)
Inductive lang : regex -> jsstring -> Prop :=
| L_eps : lang Eps []
| L_class (p : codeunit -> bool) (c : codeunit) :
    p c = true -> lang (Class p) [c]
| L_cat (a b : regex) (s t : jsstring) :
    lang a s -> lang b t -> lang (Cat a b) (s ++ t)
| L_alt_l (a b : regex) (s : jsstring) : lang a s -> lang (Alt a b) s
| L_alt_r (a b : regex) (s : jsstring) : lang b s -> lang (Alt a b) s
| L_star_nil (a : regex) : lang (Star a) []
| L_star_cons (a : regex) (s t : jsstring) :
    lang a s -> lang (Star a) t -> lang (Star a) (s ++ t).

(** ** What the engine provides

    [String.prototype.toLowerCase] follows the Unicode case tables, and
    [Date] may parse strings outside the ECMAScript date format in an
    engine-specific way.  Both are taken as parameters. *)
Record Platform : Type := {
  toLowerCase : jsstring -> jsstring;
  date_fallback : jsstring -> option Z
}.

Definition ascii_lower (c : codeunit) : codeunit :=
  if is_upper c then c + 32 else c.

Definition is_ascii (c : codeunit) : bool := c <? 128.

(** U+212A KELVIN SIGN, whose lowercase mapping is U+006B ("k"). *)
Definition kelvin_sign : codeunit := 8490.

(** The facts about the engine the development uses.  [toLowerCase] maps
    [A-Z] to [a-z] and nothing else on ASCII strings; its result holds no
    ASCII capital; the Kelvin sign lowercases to "k".  The engine's own
    date parser makes nothing of "13/01/2025", which has no month 13 for
    the month-first reading engines give such strings. *)
Record PlatformOk (P : Platform) : Prop := {
  lower_ascii : forall s,
    forallb is_ascii s = true -> toLowerCase P s = map ascii_lower s;
  lower_no_upper : forall s,
    forallb (fun c => negb (is_upper c)) (toLowerCase P s) = true;
  lower_kelvin : toLowerCase P [kelvin_sign] = [107];
  month_13_rejected : date_fallback P (lit "13/01/2025") = None
}.

(** A reference engine: case mapping of ASCII and of the Kelvin sign, and a
    date parser that knows the ECMAScript format only. *)
Definition ref_lower (c : codeunit) : codeunit :=
  if is_char kelvin_sign c then 107 else ascii_lower c.

Definition ref_platform : Platform :=
  {| toLowerCase := map ref_lower; date_fallback := fun _ => None |}.

End JS.

(* ================================================================== *)
(** * The [Date] object *)
(* ================================================================== *)

Module JSDate.

Import JS.
Local Open Scope Z_scope.

(** A time value: milliseconds since 1970-01-01T00:00:00Z.  An invalid date
    (time value [NaN]) is [None]. *)
Definition timevalue := option Z.

Definition msPerDay : Z := 86400000.

(** The largest magnitude of a time value (TimeClip). *)
Definition maxTime : Z := 8640000000000000.

Definition is_leap (y : Z) : bool :=
  ((y mod 4 =? 0) && negb (y mod 100 =? 0)) || (y mod 400 =? 0).

Definition days_in_month (y m : Z) : Z :=
  if m =? 2 then (if is_leap y then 29 else 28)
  else if (m =? 4) || (m =? 6) || (m =? 9) || (m =? 11) then 30
  else 31.

(** MakeDay: the day number of a date of the proleptic Gregorian calendar
    (months from 1). *)
Definition days_from_civil (y m d : Z) : Z :=
  let y' := if m <=? 2 then y - 1 else y in
  let era := y' / 400 in
  let yoe := y' - era * 400 in
  let mp := if 2 <? m then m - 3 else m + 9 in
  let doy := (153 * mp + 2) / 5 + d - 1 in
  let doe := yoe * 365 + yoe / 4 - yoe / 100 + doy in
  era * 146097 + doe - 719468.

(** YearFromTime, MonthFromTime and DateFromTime, from the day number. *)
Definition civil_from_days (z : Z) : Z * Z * Z :=
  let z' := z + 719468 in
  let era := z' / 146097 in
  let doe := z' - era * 146097 in
  let yoe := (doe - doe / 1460 + doe / 36524 - doe / 146096) / 365 in
  let doy := doe - (365 * yoe + yoe / 4 - yoe / 100) in
  let mp := (5 * doy + 2) / 153 in
  let d := doy - (153 * mp + 2) / 5 + 1 in
  let m := if mp <? 10 then mp + 3 else mp - 9 in
  let y := yoe + era * 400 in
  (if m <=? 2 then y + 1 else y, m, d).

Definition digit_of (n : Z) : codeunit := Z.to_N (48 + n mod 10).

(** A number written with [k] decimal digits, zero padded. *)
Fixpoint pad (k : nat) (n : Z) : jsstring :=
  match k with
  | O => []
  | S k' => pad k' (n / 10) ++ [digit_of n]
  end.

(** The year of [toISOString]: four digits from 0 to 9999, a sign and six
    digits otherwise. *)
Definition iso_year (y : Z) : jsstring :=
  if (0 <=? y) && (y <=? 9999) then pad 4 y
  else (if y <? 0 then lit "-" else lit "+") ++ pad 6 (Z.abs y).

(** [Date.prototype.toISOString], of a valid date. *)
Definition toISOString (t : Z) : jsstring :=
  let '(y, m, d) := civil_from_days (t / msPerDay) in
  let ms := t mod msPerDay in
  iso_year y ++ lit "-" ++ pad 2 m ++ lit "-" ++ pad 2 d ++ lit "T"
  ++ pad 2 (ms / 3600000) ++ lit ":" ++ pad 2 (ms / 60000 mod 60) ++ lit ":"
  ++ pad 2 (ms / 1000 mod 60) ++ lit "." ++ pad 3 (ms mod 1000) ++ lit "Z".

(** [s.split(sep)[0]] for a one-character separator: the part before its
    first occurrence, or all of [s]. *)
Fixpoint split_head (sep : codeunit) (s : jsstring) : jsstring :=
  match s with
  | [] => []
  | c :: r => if is_char sep c then [] else c :: split_head sep r
  end.

(** The value of a run of decimal digits, [None] if another code unit
    occurs. *)
Fixpoint digits_value (acc : Z) (s : jsstring) : option Z :=
  match s with
  | [] => Some acc
  | c :: r =>
      if is_digit c then digits_value (10 * acc + (Z.of_N c - 48)) r else None
  end.

Definition valid_ymd (y m d : Z) : bool :=
  (1 <=? m) && (m <=? 12) && (1 <=? d) && (d <=? days_in_month y m).

Definition time_clip (t : Z) : timevalue :=
  if Z.abs t <=? maxTime then Some t else None.

(** The date-only forms of the ECMAScript date-time string format,
    [YYYY-MM-DD] and, with an expanded year, [+YYYYYY-MM-DD] and
    [-YYYYYY-MM-DD]; they denote midnight UTC.  [None] when the string is
    not of these forms or names no day of the calendar (engines differ on
    the latter). *)
Definition date_only (sign : Z) (ys ms ds : jsstring) : timevalue :=
  match digits_value 0 ys, digits_value 0 ms, digits_value 0 ds with
  | Some y, Some m, Some d =>
      if valid_ymd (sign * y) m d && negb ((sign =? -1) && (y =? 0))
      then time_clip (days_from_civil (sign * y) m d * msPerDay)
      else None
  | _, _, _ => None
  end.

Definition parse_iso_date (s : jsstring) : timevalue :=
  match s with
  | [y1; y2; y3; y4; h1; m1; m2; h2; d1; d2] =>
      if is_hyphen h1 && is_hyphen h2
      then date_only 1 [y1; y2; y3; y4] [m1; m2] [d1; d2] else None
  | [sg; y1; y2; y3; y4; y5; y6; h1; m1; m2; h2; d1; d2] =>
      if is_hyphen h1 && is_hyphen h2 && (is_char 43%N sg || is_hyphen sg)
      then date_only (if is_hyphen sg then -1 else 1)
                     [y1; y2; y3; y4; y5; y6] [m1; m2] [d1; d2]
      else None
  | _ => None
  end.

(** [new Date(s).getTime()]: the ECMAScript format first, the engine's own
    parser for every other string. *)
Definition Date_parse (P : Platform) (s : jsstring) : timevalue :=
  match parse_iso_date s with
  | Some t => Some t
  | None => date_fallback P s
  end.

End JSDate.


(* ================================================================== *)
(** * Mongoose: schema types, validation, errors *)
(* ================================================================== *)

Module Mongoose.

Import JS.

(** An [ObjectId] is a 96-bit number; its string form is 24 lowercase
    hexadecimal digits. *)
Definition ObjectId := N.

Definition hex_digit (n : N) : codeunit :=
  (if n mod 16 <? 10 then 48 + n mod 16 else 87 + n mod 16)%N.

Fixpoint hex (k : nat) (n : N) : jsstring :=
  match k with
  | O => []
  | S k' => hex k' (n / 16)%N ++ [hex_digit n]
  end.

Definition ObjectId_toString (i : ObjectId) : jsstring := hex 24 i.

(** A value a JavaScript computation throws or a promise rejects with:
    an [Error] object with its message, or something that is not an
    [instanceof Error]. *)
Inductive thrown : Type :=
| ErrorObj (message : jsstring)
| NonError.

(** The declaration of one schema path.  [required] and the validators carry
    their messages, as in the source. *)
Inductive SchemaType : Type :=
| SString (required : option jsstring) (trim lowercase unique : bool)
          (enum : option (list jsstring * jsstring))
          (validate : option ((jsstring -> bool) * jsstring))
| SStringArray (required : option jsstring)
               (validate : option ((list jsstring -> bool) * jsstring))
| SObjectId (ref : jsstring) (required : option jsstring).

(** The value of a path of a document under construction. *)
Inductive value : Type :=
| VUndefined
| VString (s : jsstring)
| VArray (a : list jsstring)
| VObjectId (i : ObjectId).

Fixpoint jsstring_eqb (a b : jsstring) : bool :=
  match a, b with
  | [], [] => true
  | x :: a', y :: b' => (x =? y)%N && jsstring_eqb a' b'
  | _, _ => false
  end.

Definition includes (vs : list jsstring) (s : jsstring) : bool :=
  existsb (jsstring_eqb s) vs.

(** The setters a string path declares, applied when the path is assigned.
    Only [slug] and [email] declare both; what the source assigns to [slug]
    is left unchanged by either. *)
Definition apply_setters (P : Platform) (t : SchemaType) (v : value) : value :=
  match t, v with
  | SString _ tr lc _ _ _, VString s =>
      let s1 := if lc then toLowerCase P s else s in
      VString (if tr then trim s1 else s1)
  | _, _ => v
  end.

(** The validators of one path, run in order: [required] first, then [enum],
    then the custom validator; the first failure is the error of the path.
    A string is required to be non-empty; an array path defaults to the
    empty array, which [required] accepts, and an absent value skips the
    other validators. *)
Definition validate_path (t : SchemaType) (v : value) : option jsstring :=
  match t, v with
  | SString req _ _ _ en va, VString s =>
      match req, s with
      | Some msg, [] => Some msg
      | _, _ =>
          match en, va with
          | Some (vals, msg), _ =>
              if includes vals s
              then match va with
                   | Some (f, msg') => if f s then None else Some msg'
                   | None => None
                   end
              else Some msg
          | None, Some (f, msg) => if f s then None else Some msg
          | None, None => None
          end
      end
  | SString req _ _ _ _ _, _ => req
  | SStringArray _ va, VArray a =>
      match va with
      | Some (f, msg) => if f a then None else Some msg
      | None => None
      end
  | SStringArray _ va, _ =>
      match va with
      | Some (f, msg) => if f [] then None else Some msg
      | None => None
      end
  | SObjectId _ req, VObjectId _ => None
  | SObjectId _ req, _ => req
  end.

(** Why a [save] fails: the validators, an error a pre-save hook passes to
    [next], the server's duplicate-key error (E11000) with the name of the
    unique index, or the update of a document that is not stored. *)
Inductive SaveError (path : Type) : Type :=
| ValidationError (errors : list (path * jsstring))
| HookError (message : jsstring)
| DuplicateKey (index : jsstring)
| DocumentNotFound.

Arguments ValidationError {path} errors.
Arguments HookError {path} message.
Arguments DuplicateKey {path} index.
Arguments DocumentNotFound {path}.

End Mongoose.

(* ================================================================== *)
(** * [event.model.ts] *)
(* ================================================================== *)

Module Event.

Import JS JSDate Mongoose.
Local Open Scope N_scope.

(** The paths of [EventSchema]. *)
Inductive path : Type :=
| Title | Slug | Description | Overview | Image | Venue | Location
| Date | Time | Mode | Audience | Agenda | Organizer | Tags.

Definition all_paths : list path :=
  [Title; Slug; Description; Overview; Image; Venue; Location;
   Date; Time; Mode; Audience; Agenda; Organizer; Tags].

(** [interface IEvent]: a document whose paths have been cast and
    validated.  [slug] is the one path the schema does not require.  The
    timestamps Mongoose maintains play no part in what follows and are left
    out. *)
Record IEvent : Type := {
  title : jsstring;
  slug : option jsstring;
  description : jsstring;
  overview : jsstring;
  image : jsstring;
  venue : jsstring;
  location : jsstring;
  date : jsstring;
  time : jsstring;
  mode : jsstring;
  audience : jsstring;
  agenda : list jsstring;
  organizer : jsstring;
  tags : list jsstring
}.

Definition length_gt_0 (a : list jsstring) : bool :=
  match a with [] => false | _ :: _ => true end.

Definition required (msg : string) : option jsstring := Some (lit msg).

(** [new Schema<IEvent>({...})] *)
Definition EventSchema (p : path) : SchemaType :=
  match p with
  | Title => SString (required "Event title is required") true false false None None
  | Slug => SString None true true true None None
  | Description =>
      SString (required "Event description is required") true false false None None
  | Overview =>
      SString (required "Event overview is required") true false false None None
  | Image => SString (required "Event image is required") true false false None None
  | Venue => SString (required "Event venue is required") true false false None None
  | Location =>
      SString (required "Event location is required") true false false None None
  | Date => SString (required "Event date is required") true false false None None
  | Time => SString (required "Event time is required") true false false None None
  | Mode =>
      SString (required "Event mode is required") true false false
        (Some ([lit "online"; lit "offline"; lit "hybrid"],
               lit "Mode must be either online, offline, or hybrid"))
        None
  | Audience =>
      SString (required "Target audience is required") true false false None None
  | Agenda =>
      SStringArray (required "Event agenda is required")
        (Some (length_gt_0, lit "Agenda must contain at least one item"))
  | Organizer =>
      SString (required "Event organizer is required") true false false None None
  | Tags =>
      SStringArray (required "Event tags are required")
        (Some (length_gt_0, lit "At least one tag is required"))
  end.

(** The fields a caller hands to [new Event(...)] or assigns before
    [save]: any of them may be absent. *)
Record EventInput : Type := {
  in_title : option jsstring;
  in_slug : option jsstring;
  in_description : option jsstring;
  in_overview : option jsstring;
  in_image : option jsstring;
  in_venue : option jsstring;
  in_location : option jsstring;
  in_date : option jsstring;
  in_time : option jsstring;
  in_mode : option jsstring;
  in_audience : option jsstring;
  in_agenda : option (list jsstring);
  in_organizer : option jsstring;
  in_tags : option (list jsstring)
}.

Definition fields := path -> value.

Definition of_string (o : option jsstring) : value :=
  match o with Some s => VString s | None => VUndefined end.

Definition of_array (o : option (list jsstring)) : value :=
  match o with Some a => VArray a | None => VUndefined end.

Definition value_of (i : EventInput) : fields :=
  fun p =>
    match p with
    | Title => of_string (in_title i)
    | Slug => of_string (in_slug i)
    | Description => of_string (in_description i)
    | Overview => of_string (in_overview i)
    | Image => of_string (in_image i)
    | Venue => of_string (in_venue i)
    | Location => of_string (in_location i)
    | Date => of_string (in_date i)
    | Time => of_string (in_time i)
    | Mode => of_string (in_mode i)
    | Audience => of_string (in_audience i)
    | Agenda => of_array (in_agenda i)
    | Organizer => of_string (in_organizer i)
    | Tags => of_array (in_tags i)
    end.

(** Assigning the fields runs the setters of each path. *)
Definition assign (P : Platform) (f : fields) : fields :=
  fun p => apply_setters P (EventSchema p) (f p).

(** Document validation: every path against its schema type. *)
Definition validation_errors (f : fields) : list (path * jsstring) :=
  flat_map (fun p => match validate_path (EventSchema p) (f p) with
                     | Some msg => [(p, msg)]
                     | None => []
                     end) all_paths.

Definition string_of (v : value) : jsstring :=
  match v with VString s => s | _ => [] end.

Definition string_opt_of (v : value) : option jsstring :=
  match v with VString s => Some s | _ => None end.

Definition array_of (v : value) : list jsstring :=
  match v with VArray a => a | _ => [] end.

(** The document of validated fields. *)
Definition document (f : fields) : IEvent :=
  {| title := string_of (f Title);
     slug := string_opt_of (f Slug);
     description := string_of (f Description);
     overview := string_of (f Overview);
     image := string_of (f Image);
     venue := string_of (f Venue);
     location := string_of (f Location);
     date := string_of (f Date);
     time := string_of (f Time);
     mode := string_of (f Mode);
     audience := string_of (f Audience);
     agenda := array_of (f Agenda);
     organizer := string_of (f Organizer);
     tags := array_of (f Tags) |}.

(** [this.slug = v], [this.date = v]: assignment through the setters of the
    path. *)
Definition set_slug (P : Platform) (this : IEvent) (v : jsstring) : IEvent :=
  {| title := title this;
     slug := string_opt_of (apply_setters P (EventSchema Slug) (VString v));
     description := description this; overview := overview this;
     image := image this; venue := venue this; location := location this;
     date := date this; time := time this; mode := mode this;
     audience := audience this; agenda := agenda this;
     organizer := organizer this; tags := tags this |}.

Definition set_date (P : Platform) (this : IEvent) (v : jsstring) : IEvent :=
  {| title := title this; slug := slug this;
     description := description this; overview := overview this;
     image := image this; venue := venue this; location := location this;
     date := string_of (apply_setters P (EventSchema Date) (VString v));
     time := time this; mode := mode this;
     audience := audience this; agenda := agenda this;
     organizer := organizer this; tags := tags this |}.

Definition is_separator (c : codeunit) : bool :=
  is_space c || is_char 95 c || is_hyphen c.

Definition is_slug_char (c : codeunit) : bool :=
  is_word c || is_space c || is_hyphen c.

(** The slug of a title, lines 130-135:
<<
    this.title.toLowerCase().trim()
      .replace(/[^\w\s-]/g, "")
      .replace(/[\s_-]+/g, "-")
      .replace(/^-+|-+$/g, "")
>> *)
Definition slugify (P : Platform) (t : jsstring) : jsstring :=
  strip_both is_hyphen
    (replace_runs is_separator [hyphen] false
       (remove_outside is_slug_char
          (trim (toLowerCase P t)))).

(** The two steps that follow the removal of special characters, lines
    134-135. *)
Definition hyphenated (s : jsstring) : jsstring :=
  strip_both is_hyphen (replace_runs is_separator [hyphen] false s).

(** [/^([0-1]?[0-9]|2[0-3]):[0-5][0-9]$/] *)
Definition timeRegex : regex :=
  Cat (Alt (Cat (Opt (Class (in_range 48 49))) (Class (in_range 48 57)))
           (Cat (Class (is_char 50)) (Class (in_range 48 51))))
      (Cat (Class (is_char 58))
           (Cat (Class (in_range 48 53)) (Class (in_range 48 57)))).

Definition date_error : jsstring := lit "Date must be a valid date string".
Definition time_error : jsstring :=
  lit "Time must be in HH:MM format (e.g., 14:30)".

(** [EventSchema.pre("save", function (next) {...})]: [inl msg] is
    [next(new Error(msg))], [inr this'] is [next()] with the document as the
    hook leaves it. *)
Definition pre_save (P : Platform) (isModified : path -> bool) (this : IEvent)
  : jsstring + IEvent :=
  let this1 :=
    if isModified Title then set_slug P this (slugify P (title this))
    else this in
  let after_date :=
    if isModified Date then
      match Date_parse P (date this1) with
      | None => inl date_error
      | Some t => inr (set_date P this1 (split_head 84 (toISOString t)))
      end
    else inr this1 in
  match after_date with
  | inl e => inl e
  | inr this2 =>
      if isModified Time then
        if test timeRegex (time this2) then inr this2 else inl time_error
      else inr this2
  end.

(** The collection: documents by [_id], in insertion order. *)
Definition collection := list (ObjectId * IEvent).

Definition slug_eqb (a b : option jsstring) : bool :=
  match a, b with
  | Some x, Some y => jsstring_eqb x y
  | None, None => true
  | _, _ => false
  end.

(** [EventSchema.index({ slug: 1 }, { unique: true })]: a write is refused
    when another document holds the same slug (an absent slug is indexed as
    [null] and collides with another absent one). *)
Definition slug_taken (c : collection) (id : ObjectId) (s : option jsstring)
  : bool :=
  existsb (fun d => negb (fst d =? id) && slug_eqb (slug (snd d)) s) c.

Definition has_id (c : collection) (id : ObjectId) : bool :=
  existsb (fun d => (fst d =? id)) c.

Definition replace_doc (c : collection) (id : ObjectId) (e : IEvent)
  : collection :=
  map (fun d => if (fst d =? id) then (id, e) else d) c.

(** [Event.findById(id)] on the stored documents. *)
Fixpoint find (c : collection) (id : ObjectId) : option IEvent :=
  match c with
  | [] => None
  | d :: r => if (fst d =? id) then Some (snd d) else find r id
  end.

(** The paths of a stored document, as [findById] hands them out: no
    setter runs on what is read. *)
Definition stored (ev : IEvent) : fields :=
  fun p =>
    match p with
    | Title => VString (title ev)
    | Slug => of_string (slug ev)
    | Description => VString (description ev)
    | Overview => VString (overview ev)
    | Image => VString (image ev)
    | Venue => VString (venue ev)
    | Location => VString (location ev)
    | Date => VString (date ev)
    | Time => VString (time ev)
    | Mode => VString (mode ev)
    | Audience => VString (audience ev)
    | Agenda => VArray (agenda ev)
    | Organizer => VString (organizer ev)
    | Tags => VArray (tags ev)
    end.

Fixpoint array_eqb (a b : list jsstring) : bool :=
  match a, b with
  | [], [] => true
  | x :: a', y :: b' => jsstring_eqb x y && array_eqb a' b'
  | _, _ => false
  end.

(** Equality of the values of a path, by which Mongoose decides whether an
    assignment modifies it. *)
Definition value_eqb (a b : value) : bool :=
  match a, b with
  | VUndefined, VUndefined => true
  | VString x, VString y => jsstring_eqb x y
  | VArray x, VArray y => array_eqb x y
  | VObjectId x, VObjectId y => x =? y
  | _, _ => false
  end.

(** A document about to be saved: its [_id], the document [findById]
    returned when it was loaded ([None] for a new document), and the values
    assigned to its paths since, by [new Event(...)] or by [doc.p = v]. *)
Record Doc : Type := {
  _id : ObjectId;
  loaded : option IEvent;
  assigned : EventInput
}.

(** On a new document every path that was given a value is modified. *)
Definition given (i : EventInput) (p : path) : bool :=
  match value_of i p with VUndefined => false | _ => true end.

(** The paths of the document in memory when [save] is called: an
    assignment runs the setters of its path, a path that was not assigned
    holds what was loaded. *)
Definition in_memory (P : Platform) (d : Doc) : fields :=
  match loaded d with
  | None => assign P (value_of (assigned d))
  | Some old =>
      fun p =>
        match value_of (assigned d) p with
        | VUndefined => stored old p
        | v => apply_setters P (EventSchema p) v
        end
  end.

(** [doc.isModified(p)] when the hook starts: on a loaded document, the
    paths assigned a value that, once through the setters, is not the one
    loaded. *)
Definition isModified (P : Platform) (d : Doc) : path -> bool :=
  match loaded d with
  | None => given (assigned d)
  | Some old =>
      fun p =>
        match value_of (assigned d) p with
        | VUndefined => false
        | v => negb (value_eqb (apply_setters P (EventSchema p) v)
                               (stored old p))
        end
  end.

(** The paths the hook has given another value, which it thereby marks
    modified. *)
Definition changed (this ev : IEvent) (p : path) : bool :=
  negb (value_eqb (stored ev p) (stored this p)).

(** The update the server applies to the stored document: [$set] of the
    modified paths, the others staying as they are stored. *)
Definition set_paths (m : path -> bool) (cur ev : IEvent) : IEvent :=
  document (fun p => if m p then stored ev p else stored cur p).

(** [doc.save()]: validation, then the pre-save hook, then the write under
    the unique index.  The result is the collection after the write.  A new
    document is inserted; of a loaded one the modified paths are sent, and
    the server looks at the index only when the slug is among them.  The
    validators run on every path of the document in memory, also on the
    paths of a loaded document that were not assigned. *)
Definition save (P : Platform) (c : collection) (d : Doc)
  : SaveError path + collection :=
  let f := in_memory P d in
  match validation_errors f with
  | e :: es => inl (ValidationError (e :: es))
  | [] =>
      match pre_save P (isModified P d) (document f) with
      | inl msg => inl (HookError msg)
      | inr ev =>
          match loaded d with
          | None =>
              if slug_taken c (_id d) (slug ev)
              then inl (DuplicateKey (lit "slug_1"))
              else if has_id c (_id d) then inl (DuplicateKey (lit "_id_"))
              else inr (c ++ [(_id d, ev)])
          | Some _ =>
              match find c (_id d) with
              | None => inl DocumentNotFound
              | Some cur =>
                  let m := fun p => isModified P d p
                                    || changed (document f) ev p in
                  let ev' := set_paths m cur ev in
                  if m Slug && slug_taken c (_id d) (slug ev')
                  then inl (DuplicateKey (lit "slug_1"))
                  else inr (replace_doc c (_id d) ev')
              end
          end
      end
  end.

(** [Event.create(fields)] with a fresh [_id]. *)
Definition create (P : Platform) (c : collection) (id : ObjectId)
    (i : EventInput) : SaveError path + collection :=
  save P c {| _id := id; loaded := None; assigned := i |}.

Definition or_loaded {A : Type} (o : option A) (v : A) : option A :=
  match o with Some x => Some x | None => Some v end.

(** The values [save] finds on the paths of a document, before any setter:
    what was assigned, and what was loaded on the paths not assigned. *)
Definition current (d : Doc) : EventInput :=
  match loaded d with
  | None => assigned d
  | Some old =>
      let i := assigned d in
      {| in_title := or_loaded (in_title i) (title old);
         in_slug := match in_slug i with Some x => Some x | None => slug old end;
         in_description := or_loaded (in_description i) (description old);
         in_overview := or_loaded (in_overview i) (overview old);
         in_image := or_loaded (in_image i) (image old);
         in_venue := or_loaded (in_venue i) (venue old);
         in_location := or_loaded (in_location i) (location old);
         in_date := or_loaded (in_date i) (date old);
         in_time := or_loaded (in_time i) (time old);
         in_mode := or_loaded (in_mode i) (mode old);
         in_audience := or_loaded (in_audience i) (audience old);
         in_agenda := or_loaded (in_agenda i) (agenda old);
         in_organizer := or_loaded (in_organizer i) (organizer old);
         in_tags := or_loaded (in_tags i) (tags old) |}
  end.

End Event.

(* ================================================================== *)
(** * [booking.model.ts] *)
(* ================================================================== *)

Module Booking.

Import JS Mongoose.
Local Open Scope N_scope.

Inductive path : Type := EventId | Email.

Definition all_paths : list path := [EventId; Email].

(** [interface IBooking], without the timestamps. *)
Record IBooking : Type := {
  eventId : ObjectId;
  email : jsstring
}.

Definition not_space_at (c : codeunit) : bool :=
  negb (is_space c || is_char 64 c).

(** [/^[^\s@]+@[^\s@]+\.[^\s@]+$/] *)
Definition emailRegex : regex :=
  Cat (Plus (Class not_space_at))
      (Cat (Class (is_char 64))
           (Cat (Plus (Class not_space_at))
                (Cat (Class (is_char 46)) (Plus (Class not_space_at))))).

(** [new Schema<IBooking>({...})] *)
Definition BookingSchema (p : path) : SchemaType :=
  match p with
  | EventId => SObjectId (lit "Event") (Some (lit "Event ID is required"))
  | Email =>
      SString (Some (lit "Email is required")) true true false None
        (Some (test emailRegex, lit "Please provide a valid email address"))
  end.

(** The fields a caller hands to [new Booking(...)]. *)
Record BookingInput : Type := {
  in_eventId : option ObjectId;
  in_email : option jsstring
}.

Definition fields := path -> value.

Definition value_of (i : BookingInput) : fields :=
  fun p =>
    match p with
    | EventId => match in_eventId i with
                 | Some x => VObjectId x
                 | None => VUndefined
                 end
    | Email => match in_email i with
               | Some s => VString s
               | None => VUndefined
               end
    end.

Definition assign (P : Platform) (f : fields) : fields :=
  fun p => apply_setters P (BookingSchema p) (f p).

Definition validation_errors (f : fields) : list (path * jsstring) :=
  flat_map (fun p => match validate_path (BookingSchema p) (f p) with
                     | Some msg => [(p, msg)]
                     | None => []
                     end) all_paths.

Definition document (f : fields) : IBooking :=
  {| eventId := match f EventId with VObjectId i => i | _ => 0 end;
     email := match f Email with VString s => s | _ => [] end |}.

(** What the process sees of the database: the two collections, and whether
    queries currently fail ([fault] is what they reject with, for instance
    after the connection is lost). *)
Record Database : Type := {
  events : Event.collection;
  bookings : list (ObjectId * IBooking);
  fault : option thrown
}.

(** The outcome of an awaited query. *)
Inductive settled (A : Type) : Type :=
| Fulfilled (v : A)
| Rejected (e : thrown).

Arguments Fulfilled {A} v.
Arguments Rejected {A} e.

(** [await Event.findById(id)] *)
Definition Event_findById (db : Database) (id : ObjectId)
  : settled (option Event.IEvent) :=
  match fault db with
  | Some e => Rejected e
  | None => Fulfilled (Event.find (events db) id)
  end.

Definition not_exist_error (id : ObjectId) : jsstring :=
  lit "Event with ID " ++ ObjectId_toString id ++ lit " does not exist".

Definition check_error (e : thrown) : jsstring :=
  match e with
  | ErrorObj m => lit "Error validating event: " ++ m
  | NonError => lit "Error validating event"
  end.

(** [BookingSchema.pre("save", async function (next) {...})]: [Some msg] is
    [next(new Error(msg))], [None] is [next()]. *)
Definition pre_save (db : Database) (isModified : path -> bool)
    (this : IBooking) : option jsstring :=
  if isModified EventId then
    match Event_findById db (eventId this) with
    | Fulfilled None => Some (not_exist_error (eventId this))
    | Fulfilled (Some _) => None
    | Rejected e => Some (check_error e)
    end
  else None.

Record Doc : Type := {
  _id : ObjectId;
  isNew : bool;
  assigned : BookingInput;
  isModified : path -> bool
}.

Definition has_id (c : list (ObjectId * IBooking)) (id : ObjectId) : bool :=
  existsb (fun d => fst d =? id) c.

Definition replace_doc (c : list (ObjectId * IBooking)) (id : ObjectId)
    (b : IBooking) : list (ObjectId * IBooking) :=
  map (fun d => if fst d =? id then (id, b) else d) c.

Definition with_bookings (db : Database) (c : list (ObjectId * IBooking))
  : Database :=
  {| events := events db; bookings := c; fault := fault db |}.

(** [doc.save()]: validation, the pre-save hook, then the write.  Neither
    index of the schema is unique.  The result is the database after the
    write. *)
Definition save (P : Platform) (db : Database) (d : Doc)
  : SaveError path + Database :=
  let f := assign P (value_of (assigned d)) in
  match validation_errors f with
  | e :: es => inl (ValidationError (e :: es))
  | [] =>
      let this := document f in
      match pre_save db (isModified d) this with
      | Some msg => inl (HookError msg)
      | None =>
          if isNew d
          then (if has_id (bookings db) (_id d)
                then inl (DuplicateKey (lit "_id_"))
                else inr (with_bookings db (bookings db ++ [(_id d, this)])))
          else (if has_id (bookings db) (_id d)
                then inr (with_bookings db (replace_doc (bookings db) (_id d) this))
                else inl DocumentNotFound)
      end
  end.

(** The database once [save] has returned: a save that fails has written
    nothing. *)
Definition after (db : Database) (r : SaveError path + Database) : Database :=
  match r with
  | inl _ => db
  | inr db' => db'
  end.

Definition given (i : BookingInput) (p : path) : bool :=
  match value_of i p with VUndefined => false | _ => true end.

(** [Booking.create(fields)] with a fresh [_id]. *)
Definition create (P : Platform) (db : Database) (id : ObjectId)
    (i : BookingInput) : SaveError path + Database :=
  save P db {| _id := id; isNew := true; assigned := i; isModified := given i |}.

End Booking.

(* ================================================================== *)
(** * [lib/mongodb.ts] *)
(* ================================================================== *)

Module MongoDB.

Import JS Mongoose.

(** The identity of a [mongoose.Connection] object. *)
Definition Connection := N.

(** Every promise [connectDB] stores in the cache comes from one call of
    [mongoose.connect]; promises are named by their creation order. *)
Definition PromiseId := nat.

(** An invocation of [connectDB], named by its caller. *)
Definition Caller := nat.

Inductive promise_state : Type :=
| Pending
| Resolved (c : Connection)
| Failed (e : thrown).

(** [global.mongoose] *)
Record Cached : Type := {
  conn : option Connection;
  promise : option PromiseId
}.

(** How an invocation of [connectDB] ends. *)
Inductive outcome : Type :=
| Returned (c : Connection)
| Threw (e : thrown).

(** A job of the promise job queue: a reaction that calls [connectDB], or
    the continuation of an invocation suspended at
    [await cached.promise]. *)
Inductive job : Type :=
| Invoke (k : Caller)
| Resume (k : Caller) (p : PromiseId).

Record State : Type := {
  cached : Cached;
  promises : list promise_state;
  waiting : list (PromiseId * Caller);
  queue : list job;
  results : list (Caller * outcome)
}.

(** Lines 15-34: the module throws when [MONGODB_URI] is unset or empty,
    and otherwise starts from the cache of [global.mongoose], creating it
    when absent. *)
Definition module_init (MONGODB_URI : option jsstring) (global : option Cached)
  : option State :=
  match MONGODB_URI with
  | None | Some [] => None
  | Some (_ :: _) =>
      Some {| cached := match global with
                        | Some c => c
                        | None => {| conn := None; promise := None |}
                        end;
              promises := []; waiting := []; queue := []; results := [] |}
  end.

Definition init : State :=
  {| cached := {| conn := None; promise := None |};
     promises := []; waiting := []; queue := []; results := [] |}.

Definition state_of (s : State) (p : PromiseId) : promise_state :=
  nth p (promises s) Pending.

Definition finish (k : Caller) (o : outcome) (s : State) : State :=
  {| cached := cached s; promises := promises s; waiting := waiting s;
     queue := queue s; results := results s ++ [(k, o)] |}.

(** [await p]: on a pending promise the invocation is suspended until the
    promise settles; on a settled one its continuation is queued at once. *)
Definition await (k : Caller) (p : PromiseId) (s : State) : State :=
  match state_of s p with
  | Pending =>
      {| cached := cached s; promises := promises s;
         waiting := waiting s ++ [(p, k)];
         queue := queue s; results := results s |}
  | _ =>
      {| cached := cached s; promises := promises s; waiting := waiting s;
         queue := queue s ++ [Resume k p]; results := results s |}
  end.

(** Lines 58-61: [cached.promise = mongoose.connect(...).then(...)]. *)
Definition start_attempt (s : State) : State :=
  {| cached := {| conn := conn (cached s);
                  promise := Some (length (promises s)) |};
     promises := promises s ++ [Pending];
     waiting := waiting s; queue := queue s; results := results s |}.

(** [connectDB()], lines 46-66, up to its [await]. *)
Definition connectDB (k : Caller) (s : State) : State :=
  match conn (cached s) with
  | Some c => finish k (Returned c) s
  | None =>
      let s1 := match promise (cached s) with
                | Some _ => s
                | None => start_attempt s
                end in
      match promise (cached s1) with
      | Some p => await k p s1
      | None => s1
      end
  end.

(** [connectDB()], lines 66-73, from its [await] on: the connection is
    cached and returned, or the promise is reset and the error rethrown. *)
Definition resume (k : Caller) (p : PromiseId) (s : State) : State :=
  match state_of s p with
  | Resolved c =>
      finish k (Returned c)
        {| cached := {| conn := Some c; promise := promise (cached s) |};
           promises := promises s; waiting := waiting s;
           queue := queue s; results := results s |}
  | Failed e =>
      finish k (Threw e)
        {| cached := {| conn := conn (cached s); promise := None |};
           promises := promises s; waiting := waiting s;
           queue := queue s; results := results s |}
  | Pending => s
  end.

Fixpoint set_nth (p : nat) (v : promise_state) (l : list promise_state)
  : list promise_state :=
  match l, p with
  | [], _ => []
  | _ :: r, O => v :: r
  | x :: r, S p' => x :: set_nth p' v r
  end.

(** The reactions of a promise that settles are queued in the order in which
    they were registered. *)
Definition settle (p : PromiseId) (v : promise_state) (s : State) : State :=
  {| cached := cached s;
     promises := set_nth p v (promises s);
     waiting := filter (fun w => negb (Nat.eqb (fst w) p)) (waiting s);
     queue := queue s
              ++ map (fun w => Resume (snd w) p)
                     (filter (fun w => Nat.eqb (fst w) p) (waiting s));
     results := results s |}.

(** What happens in the process, one event at a time. *)
Inductive event : Type :=
| Call (k : Caller)
| Schedule (k : Caller)
| Connected (p : PromiseId) (c : Connection)
| ConnectFailed (p : PromiseId) (e : thrown)
| RunJob.

Definition is_pending (s : State) (p : PromiseId) : bool :=
  match nth_error (promises s) p with
  | Some Pending => true
  | _ => false
  end.

(** One event; [None] when the event cannot happen in the state (only a
    pending attempt completes, only a queued job runs). *)
Definition step (ev : event) (s : State) : option State :=
  match ev with
  | Call k => Some (connectDB k s)
  | Schedule k =>
      Some {| cached := cached s; promises := promises s;
              waiting := waiting s; queue := queue s ++ [Invoke k];
              results := results s |}
  | Connected p c =>
      if is_pending s p then Some (settle p (Resolved c) s) else None
  | ConnectFailed p e =>
      if is_pending s p then Some (settle p (Failed e) s) else None
  | RunJob =>
      match queue s with
      | [] => None
      | j :: q =>
          let s' := {| cached := cached s; promises := promises s;
                       waiting := waiting s; queue := q;
                       results := results s |} in
          Some (match j with
                | Invoke k => connectDB k s'
                | Resume k p => resume k p s'
                end)
      end
  end.

Fixpoint run (evs : list event) (s : State) : option State :=
  match evs with
  | [] => Some s
  | ev :: rest =>
      match step ev s with
      | Some s' => run rest s'
      | None => None
      end
  end.

Definition reachable (s : State) : Prop :=
  exists evs, run evs init = Some s.

(** The connection attempts in flight: the pending promises. *)
Definition in_flight (s : State) : nat :=
  length (filter (fun st => match st with Pending => true | _ => false end)
                 (promises s)).

(** The calls of [mongoose.connect] so far. *)
Definition attempts (s : State) : nat := length (promises s).

(** ** Invariants *)

(** The cached connection is the result of an attempt that succeeded. *)
Definition conn_resolved (s : State) : Prop :=
  forall c, conn (cached s) = Some c -> exists p, state_of s p = Resolved c.

(** The cached promise is watched: while it is pending a caller awaits it,
    and once it has failed a continuation that resets it is queued. *)
Definition slot_tracked (s : State) : Prop :=
  forall p, promise (cached s) = Some p ->
    match state_of s p with
    | Pending => exists k, In (p, k) (waiting s)
    | Failed _ => exists k, In (Resume k p) (queue s)
    | Resolved _ => True
    end.

Definition cache_inv (s : State) : Prop := conn_resolved s /\ slot_tracked s.

(** A sequence of events in which no attempt fails. *)
Definition no_failure (evs : list event) : bool :=
  forallb (fun ev => match ev with ConnectFailed _ _ => false | _ => true end)
          evs.

(** Either nothing has been attempted, or one attempt has, it is the cached
    promise and it has not failed. *)
Definition single_attempt (s : State) : Prop :=
  (promises s = [] /\ conn (cached s) = None /\ promise (cached s) = None)
  \/ (exists st, promises s = [st] /\ promise (cached s) = Some 0
                 /\ forall e, st <> Failed e).

End MongoDB.

(* ================================================================== *)
(** * The properties, in the words of the specification *)
(* ================================================================== *)

Module Spec.

Import JS JSDate Mongoose.
Local Open Scope N_scope.

(** "word-characters/whitespace/hyphen": what the removal keeps. *)
Definition kept (c : codeunit) : bool := is_word c || is_space c || is_hyphen c.

(** "whitespace/underscore/hyphen characters": what makes a run. *)
Definition separator (c : codeunit) : bool :=
  is_space c || is_char 95 c || is_hyphen c.

(** "removing every character outside word-characters/whitespace/hyphen" *)
Fixpoint remove_others (s : jsstring) : jsstring :=
  match s with
  | [] => []
  | c :: r => if kept c then c :: remove_others r else remove_others r
  end.

(** "replacing each run of whitespace/underscore/hyphen characters with a
    single hyphen": a separator followed by another one disappears, the
    last one of a run becomes the hyphen. *)
Fixpoint hyphenate_runs (s : jsstring) : jsstring :=
  match s with
  | [] => []
  | c :: r =>
      if separator c then
        match r with
        | [] => [hyphen]
        | c' :: _ =>
            if separator c' then hyphenate_runs r
            else hyphen :: hyphenate_runs r
        end
      else c :: hyphenate_runs r
  end.

(** "stripping leading [...] hyphens": the hyphens before the first code
    unit that is none. *)
Fixpoint strip_leading (s : jsstring) : jsstring :=
  match s with
  | [] => []
  | c :: r => if is_hyphen c then strip_leading r else c :: r
  end.

(** "stripping [...] trailing hyphens": a hyphen goes when nothing but
    hyphens follows it. *)
Fixpoint strip_trailing (s : jsstring) : jsstring :=
  match s with
  | [] => []
  | c :: r =>
      match strip_trailing r with
      | [] => if is_hyphen c then [] else [c]
      | c' :: r' => c :: c' :: r'
      end
  end.

(** "lowercasing the title, removing every character outside
    word-characters/whitespace/hyphen, replacing each run [...] with a
    single hyphen, and stripping leading and trailing hyphens".  The four
    steps are written here on their own, with none of the functions that
    embed the source. *)
Definition slug (P : Platform) (t : jsstring) : jsstring :=
  strip_trailing
    (strip_leading (hyphenate_runs (remove_others (toLowerCase P t)))).

(** "lowercase, URL-safe": small letters, digits and hyphens. *)
Definition url_safe (c : codeunit) : bool :=
  is_lower c || is_digit c || is_hyphen c.

Definition num2 (a b : codeunit) : N := 10 * (a - 48) + (b - 48).

(** "24-hour HH:MM with two-digit hour 00-23 and two-digit minute 00-59" *)
Definition hh_mm (s : jsstring) : bool :=
  match s with
  | [h1; h2; c; m1; m2] =>
      is_digit h1 && is_digit h2 && is_char 58 c && is_digit m1 && is_digit m2
      && (num2 h1 h2 <=? 23) && (num2 m1 m2 <=? 59)
  | _ => false
  end.

(** An hour 0-23 of one or two digits, a colon, a two-digit minute 00-59. *)
Definition h_mm (s : jsstring) : bool :=
  match s with
  | [h; c; m1; m2] =>
      is_digit h && is_char 58 c && is_digit m1 && is_digit m2
      && (num2 m1 m2 <=? 59)
  | _ => hh_mm s
  end.

(** "canonical YYYY-MM-DD form": four, two and two digits between hyphens,
    a month 01-12 and a day 01-31. *)
Definition yyyy_mm_dd (s : jsstring) : bool :=
  match s with
  | [y1; y2; y3; y4; a; m1; m2; b; d1; d2] =>
      forallb is_digit [y1; y2; y3; y4; m1; m2; d1; d2]
      && is_hyphen a && is_hyphen b
      && (1 <=? num2 m1 m2) && (num2 m1 m2 <=? 12)
      && (1 <=? num2 d1 d2) && (num2 d1 d2 <=? 31)
  | _ => false
  end.

(** The UTC year of a time value. *)
Definition utc_year (t : Z) : Z :=
  fst (fst (civil_from_days (t / msPerDay)%Z)).

(** "present and non-blank after trimming" *)
Definition non_blank (o : option jsstring) : bool :=
  match o with
  | Some s => match trim s with [] => false | _ :: _ => true end
  | None => false
  end.

(** "mode is one of online, offline, hybrid" *)
Definition mode_allowed (o : option jsstring) : bool :=
  match o with
  | Some s => includes [lit "online"; lit "offline"; lit "hybrid"] (trim s)
  | None => false
  end.

(** "contain at least one element" *)
Definition non_empty (o : option (list jsstring)) : bool :=
  match o with
  | Some (_ :: _) => true
  | _ => false
  end.

(** The validation rule of section 4.2. *)
Definition valid_event (i : Event.EventInput) : bool :=
  non_blank (Event.in_title i) && non_blank (Event.in_description i)
  && non_blank (Event.in_overview i) && non_blank (Event.in_image i)
  && non_blank (Event.in_venue i) && non_blank (Event.in_location i)
  && non_blank (Event.in_date i) && non_blank (Event.in_time i)
  && non_blank (Event.in_mode i) && non_blank (Event.in_audience i)
  && non_blank (Event.in_organizer i)
  && mode_allowed (Event.in_mode i)
  && non_empty (Event.in_agenda i) && non_empty (Event.in_tags i).

End Spec.

(* ================================================================== *)
(** * Sample documents and states *)
(* ================================================================== *)

Module Samples.

Import JS Mongoose.
Local Open Scope N_scope.

Definition sample_input (t d tm : string) : Event.EventInput :=
  {| Event.in_title := Some (lit t);
     Event.in_slug := None;
     Event.in_description := Some (lit "An evening of talks");
     Event.in_overview := Some (lit "Talks and pizza");
     Event.in_image := Some (lit "/images/event.png");
     Event.in_venue := Some (lit "Hall 1");
     Event.in_location := Some (lit "Colombo");
     Event.in_date := Some (lit d);
     Event.in_time := Some (lit tm);
     Event.in_mode := Some (lit "hybrid");
     Event.in_audience := Some (lit "Developers");
     Event.in_agenda := Some [lit "Doors open"; lit "Talks"];
     Event.in_organizer := Some (lit "DevEvent");
     Event.in_tags := Some [lit "web"] |}.

Definition sample_event (d tm : string) : Event.IEvent :=
  Event.document
    (Event.assign ref_platform (Event.value_of (sample_input "Dev Night" d tm))).

Definition all_modified : Event.path -> bool := fun _ => true.

Definition sample_no_agenda : Event.EventInput :=
  {| Event.in_title := Some (lit "Dev Night");
     Event.in_slug := None;
     Event.in_description := Some (lit "An evening of talks");
     Event.in_overview := Some (lit "Talks and pizza");
     Event.in_image := Some (lit "/images/event.png");
     Event.in_venue := Some (lit "Hall 1");
     Event.in_location := Some (lit "Colombo");
     Event.in_date := Some (lit "2025-01-13");
     Event.in_time := Some (lit "09:05");
     Event.in_mode := Some (lit "hybrid");
     Event.in_audience := Some (lit "Developers");
     Event.in_agenda := Some [];
     Event.in_organizer := Some (lit "DevEvent");
     Event.in_tags := Some [lit "web"] |}.

Definition sample_booking (x : ObjectId) : Booking.BookingInput :=
  {| Booking.in_eventId := Some x;
     Booking.in_email := Some (lit " Dev@Example.com ") |}.

Definition empty_db : Booking.Database :=
  {| Booking.events := []; Booking.bookings := []; Booking.fault := None |}.

Definition offline_db : Booking.Database :=
  {| Booking.events := []; Booking.bookings := [];
     Booking.fault := Some (ErrorObj (lit "connection lost")) |}.


End Samples.

(* ================================================================== *)
(** * Further properties: what they are stated with *)
(* ================================================================== *)

Module Props.

Import JS JSDate Mongoose.
Local Open Scope N_scope.

(** The first and the last code unit of a string. *)
Definition starts_with (p : codeunit -> bool) (s : jsstring) : bool :=
  match s with
  | c :: _ => p c
  | [] => false
  end.

Definition ends_with (p : codeunit -> bool) (s : jsstring) : bool :=
  starts_with p (rev s).

(** No two neighbours both in the class. *)
Fixpoint no_double (p : codeunit -> bool) (s : jsstring) : bool :=
  match s with
  | [] => true
  | c :: r =>
      match r with
      | [] => true
      | c' :: _ => negb (p c && p c')
      end && no_double p r
  end.

(** A string without white space at either end. *)
Definition trimmed (s : jsstring) : bool :=
  negb (starts_with is_space s) && negb (ends_with is_space s).

(** The date [YYYY-MM-DD]. *)
Definition iso_date (y m d : Z) : jsstring :=
  pad 4 y ++ [hyphen] ++ pad 2 m ++ [hyphen] ++ pad 2 d.

(** A required string path as it is stored: not empty, trimmed. *)
Definition stored_string (s : jsstring) : bool :=
  match s with [] => false | _ :: _ => trimmed s end.

(** What holds of every Event in the collection. *)
Definition well_formed (ev : Event.IEvent) : bool :=
  stored_string (Event.title ev) && stored_string (Event.description ev)
  && stored_string (Event.overview ev) && stored_string (Event.image ev)
  && stored_string (Event.venue ev) && stored_string (Event.location ev)
  && stored_string (Event.date ev) && stored_string (Event.time ev)
  && stored_string (Event.audience ev) && stored_string (Event.organizer ev)
  && includes [lit "online"; lit "offline"; lit "hybrid"] (Event.mode ev)
  && Event.length_gt_0 (Event.agenda ev) && Event.length_gt_0 (Event.tags ev).

(** The same, path by path: what a path may hold in a well-formed
    document. *)
Definition value_ok (p : Event.path) (v : value) : bool :=
  match p, v with
  | Event.Slug, _ => true
  | Event.Mode, VString s =>
      includes [lit "online"; lit "offline"; lit "hybrid"] s
  | Event.Agenda, VArray a | Event.Tags, VArray a => Event.length_gt_0 a
  | Event.Agenda, _ | Event.Tags, _ => false
  | _, VString s => stored_string s
  | _, _ => false
  end.

(** Every outcome handed to a caller of [connectDB] is the outcome of an
    attempt. *)
Definition outcomes_grounded (s : MongoDB.State) : Prop :=
  forall k o,
    In (k, o) (MongoDB.results s) ->
    match o with
    | MongoDB.Returned c =>
        exists p, MongoDB.state_of s p = MongoDB.Resolved c
    | MongoDB.Threw e => exists p, MongoDB.state_of s p = MongoDB.Failed e
    end.

(** One attempt at most, and whoever has an outcome has its connection. *)
Definition one_connection (s : MongoDB.State) : Prop :=
  MongoDB.single_attempt s
  /\ (forall c, MongoDB.conn (MongoDB.cached s) = Some c ->
                MongoDB.promises s = [MongoDB.Resolved c])
  /\ (forall k o, In (k, o) (MongoDB.results s) ->
                  exists c, o = MongoDB.Returned c
                            /\ MongoDB.promises s = [MongoDB.Resolved c]).

(** An update that touches the time only. *)
Definition only_time_modified (p : Event.path) : bool :=
  match p with Event.Time => true | _ => false end.

(** A database with one Event. *)
Definition one_event_db : Booking.Database :=
  {| Booking.events := [(7, Samples.sample_event "2025-01-13" "09:05")];
     Booking.bookings := []; Booking.fault := None |}.

(** The cache once caller 1 has been connected. *)
Definition connected_state : MongoDB.State :=
  {| MongoDB.cached := {| MongoDB.conn := Some 7; MongoDB.promise := Some 0%nat |};
     MongoDB.promises := [MongoDB.Resolved 7];
     MongoDB.waiting := [];
     MongoDB.queue := [];
     MongoDB.results := [(1%nat, MongoDB.Returned 7)] |}.

(** A stored Event. *)
Definition dev_night : Event.IEvent :=
  {| Event.title := lit "Dev Night"; Event.slug := Some (lit "dev-night");
     Event.description := lit "An evening of talks";
     Event.overview := lit "Talks and pizza";
     Event.image := lit "/images/event.png";
     Event.venue := lit "Hall 1"; Event.location := lit "Colombo";
     Event.date := lit "2025-01-13"; Event.time := lit "09:05";
     Event.mode := lit "hybrid"; Event.audience := lit "Developers";
     Event.agenda := [lit "Doors open"; lit "Talks"];
     Event.organizer := lit "DevEvent"; Event.tags := [lit "web"] |}.

(** The stored Event loaded and given another title. *)
Definition title_update (t : string) : Event.Doc :=
  {| Event._id := 1; Event.loaded := Some dev_night;
     Event.assigned :=
       {| Event.in_title := Some (lit t); Event.in_slug := None;
          Event.in_description := None; Event.in_overview := None;
          Event.in_image := None; Event.in_venue := None;
          Event.in_location := None; Event.in_date := None;
          Event.in_time := None; Event.in_mode := None;
          Event.in_audience := None; Event.in_agenda := None;
          Event.in_organizer := None; Event.in_tags := None |} |}.

(** The stored Event loaded and given another venue. *)
Definition venue_update (v : string) : Event.Doc :=
  {| Event._id := 1; Event.loaded := Some dev_night;
     Event.assigned :=
       {| Event.in_title := None; Event.in_slug := None;
          Event.in_description := None; Event.in_overview := None;
          Event.in_image := None; Event.in_venue := Some (lit v);
          Event.in_location := None; Event.in_date := None;
          Event.in_time := None; Event.in_mode := None;
          Event.in_audience := None; Event.in_agenda := None;
          Event.in_organizer := None; Event.in_tags := None |} |}.



End Props.

(* ================================================================== *)
(** * Strings: trimming, runs, prefixes *)
(* ================================================================== *)

Import JS JSDate Mongoose Samples.
Local Open Scope N_scope.

Section DropWhile.

Variable p : codeunit -> bool.

Lemma drop_while_all (s : jsstring) :
  forallb p s = true -> drop_while p s = [].
Proof.
  induction s as [|c r IH]; simpl; [reflexivity|].
  destruct (p c); simpl; [exact IH | discriminate].
Qed.

Lemma drop_while_app_all (l s : jsstring) :
  forallb p l = true -> drop_while p (l ++ s) = drop_while p s.
Proof.
  induction l as [|c r IH]; simpl; [reflexivity|].
  destruct (p c); simpl; [exact IH | discriminate].
Qed.

(** A string is the dropped prefix followed by what [drop_while] keeps. *)
Lemma drop_while_split (s : jsstring) :
  exists l, s = l ++ drop_while p s /\ forallb p l = true.
Proof.
  induction s as [|c r [l [E H]]]; simpl.
  - exists []; auto.
  - destruct (p c) eqn:Hc.
    + exists (c :: l); simpl; rewrite Hc, H; split; [f_equal; exact E | reflexivity].
    + exists []; auto.
Qed.

Lemma drop_while_app_some (s t : jsstring) :
  forallb p s = false -> drop_while p (s ++ t) = drop_while p s ++ t.
Proof.
  induction s as [|c r IH]; simpl; [discriminate|].
  destruct (p c); simpl; [exact IH | reflexivity].
Qed.

Lemma drop_while_end_app_all (s r : jsstring) :
  forallb p r = true -> drop_while_end p (s ++ r) = drop_while_end p s.
Proof.
  intros H. unfold drop_while_end. rewrite rev_app_distr.
  rewrite drop_while_app_all; [reflexivity|].
  rewrite forallb_forall in *. intros x Hx. apply H, in_rev, Hx.
Qed.

Lemma drop_while_end_split (s : jsstring) :
  exists r, s = drop_while_end p s ++ r /\ forallb p r = true.
Proof.
  unfold drop_while_end.
  destruct (drop_while_split (rev s)) as [l [E H]].
  exists (rev l). split.
  - rewrite <- rev_app_distr, <- E, rev_involutive. reflexivity.
  - rewrite forallb_forall in *. intros x Hx. apply H, in_rev, Hx.
Qed.

(** Hyphens at either end do not change what [strip_both] returns. *)
Lemma strip_both_app_all (s r : jsstring) :
  forallb p r = true -> strip_both p (s ++ r) = strip_both p s.
Proof.
  intros H. unfold strip_both.
  destruct (forallb p s) eqn:Hs.
  - rewrite (drop_while_all s Hs).
    rewrite drop_while_all; [reflexivity|].
    rewrite forallb_app, Hs, H. reflexivity.
  - rewrite drop_while_app_some by exact Hs.
    apply drop_while_end_app_all, H.
Qed.

Lemma strip_both_cons (c : codeunit) (s : jsstring) :
  p c = true -> strip_both p (c :: s) = strip_both p s.
Proof. intros H. unfold strip_both. simpl. rewrite H. reflexivity. Qed.

End DropWhile.

(** [trim] removes a prefix and a suffix of white space. *)
Lemma trim_split (s : jsstring) :
  exists l r, s = l ++ trim s ++ r
              /\ forallb is_space l = true /\ forallb is_space r = true.
Proof.
  unfold trim.
  destruct (drop_while_split is_space s) as [l [El Hl]].
  destruct (drop_while_end_split is_space (drop_while is_space s)) as [r [Er Hr]].
  exists l, r. repeat split; try assumption.
  rewrite <- Er. exact El.
Qed.

Section Runs.

Variable cls : codeunit -> bool.
Variable r : jsstring.

Lemma replace_runs_flag (s : jsstring) :
  replace_runs cls r false s = replace_runs cls r true s
  \/ replace_runs cls r false s = r ++ replace_runs cls r true s.
Proof.
  destruct s as [|c s]; simpl; [left; reflexivity|].
  destruct (cls c); [right | left]; reflexivity.
Qed.

Lemma replace_runs_app (b : bool) (x y : jsstring) :
  exists b', replace_runs cls r b (x ++ y)
             = replace_runs cls r b x ++ replace_runs cls r b' y.
Proof.
  revert b. induction x as [|c x IH]; intros b; simpl.
  - exists b. reflexivity.
  - destruct (cls c).
    + destruct (IH true) as [b' E]. exists b'. rewrite E.
      destruct b; [reflexivity | rewrite app_assoc; reflexivity].
    + destruct (IH false) as [b' E]. exists b'. rewrite E. reflexivity.
Qed.

Lemma replace_runs_all (b : bool) (s : jsstring) :
  forallb cls s = true ->
  replace_runs cls r b s = [] \/ replace_runs cls r b s = r.
Proof.
  intros H.
  assert (T : replace_runs cls r true s = []).
  { induction s as [|c s IH]; simpl in *; [reflexivity|].
    destruct (cls c); [apply IH, H | discriminate]. }
  destruct b; [left; exact T|].
  destruct (replace_runs_flag s) as [E|E]; rewrite E, T.
  - left; reflexivity.
  - right; apply app_nil_r.
Qed.

End Runs.

Lemma space_is_separator (l : jsstring) :
  forallb is_space l = true -> forallb Event.is_separator l = true.
Proof.
  rewrite !forallb_forall. intros H x Hx. unfold Event.is_separator.
  rewrite (H x Hx). reflexivity.
Qed.

Lemma hyphenated_flag (s : jsstring) :
  strip_both is_hyphen (replace_runs Event.is_separator [hyphen] true s)
  = Event.hyphenated s.
Proof.
  unfold Event.hyphenated.
  destruct (replace_runs_flag Event.is_separator [hyphen] s) as [E|E]; rewrite E.
  - reflexivity.
  - symmetry. apply strip_both_cons. reflexivity.
Qed.

(** White space in front of a string leaves no trace in the result... *)
Lemma hyphenated_leading (l s : jsstring) :
  forallb is_space l = true -> Event.hyphenated (l ++ s) = Event.hyphenated s.
Proof.
  intros H. apply space_is_separator in H.
  induction l as [|c l IH]; simpl in *; [reflexivity|].
  apply andb_true_iff in H. destruct H as [Hc Hl].
  unfold Event.hyphenated at 1. simpl. rewrite Hc.
  rewrite strip_both_cons by reflexivity.
  rewrite hyphenated_flag. apply IH, Hl.
Qed.

(** ... and neither does white space behind it. *)
Lemma hyphenated_trailing (s l : jsstring) :
  forallb is_space l = true -> Event.hyphenated (s ++ l) = Event.hyphenated s.
Proof.
  intros H. apply space_is_separator in H. unfold Event.hyphenated.
  destruct (replace_runs_app Event.is_separator [hyphen] false s l) as [b E].
  rewrite E. apply strip_both_app_all.
  destruct (replace_runs_all Event.is_separator [hyphen] b l H) as [R|R];
    rewrite R; reflexivity.
Qed.

Lemma filter_spaces (l : jsstring) :
  forallb is_space l = true -> filter Event.is_slug_char l = l.
Proof.
  induction l as [|c l IH]; simpl; [reflexivity|].
  intros H. apply andb_true_iff in H. destruct H as [Hc Hl].
  unfold Event.is_slug_char at 1. rewrite Hc, orb_true_r. simpl.
  f_equal. apply IH, Hl.
Qed.

(** The [trim()] of line 132 is absorbed by the replacements after it. *)
Lemma hyphenated_trim (s : jsstring) :
  Event.hyphenated (remove_outside Event.is_slug_char (trim s))
  = Event.hyphenated (remove_outside Event.is_slug_char s).
Proof.
  destruct (trim_split s) as [l [r [E [Hl Hr]]]].
  rewrite E at 2. unfold remove_outside.
  rewrite !filter_app, (filter_spaces l Hl), (filter_spaces r Hr).
  rewrite hyphenated_leading by exact Hl.
  rewrite hyphenated_trailing by exact Hr.
  reflexivity.
Qed.

(** The classes of the specification are the classes of the two patterns,
    lines 133 and 134. *)
Lemma separator_class (c : codeunit) :
  Spec.separator c = Event.is_separator c.
Proof. reflexivity. Qed.

Lemma kept_class (c : codeunit) : Spec.kept c = Event.is_slug_char c.
Proof. reflexivity. Qed.

(** The removal of the source is the one the specification describes. *)
Lemma remove_outside_others (s : jsstring) :
  remove_outside Event.is_slug_char s = Spec.remove_others s.
Proof.
  unfold remove_outside.
  induction s as [|c s IH]; cbn [filter Spec.remove_others]; [reflexivity|].
  change (Spec.kept c) with (Event.is_slug_char c). rewrite IH. reflexivity.
Qed.

(** The run replacement of the source is the one the specification
    describes. *)
Lemma replace_runs_hyphenate (s : jsstring) :
  replace_runs Event.is_separator [hyphen] false s = Spec.hyphenate_runs s
  /\ forall c, Event.is_separator c = true ->
       Spec.hyphenate_runs (c :: s)
       = hyphen :: replace_runs Event.is_separator [hyphen] true s.
Proof.
  induction s as [|c' s [IH1 IH2]].
  - split; [reflexivity|]. intros c Hc. cbn [Spec.hyphenate_runs].
    change (Spec.separator c) with (Event.is_separator c). rewrite Hc.
    reflexivity.
  - split.
    + cbn [replace_runs]. destruct (Event.is_separator c') eqn:Hc'.
      * rewrite (IH2 c' Hc'). reflexivity.
      * rewrite IH1. cbn [Spec.hyphenate_runs].
        change (Spec.separator c') with (Event.is_separator c').
        rewrite Hc'. reflexivity.
    + intros c Hc. cbn [replace_runs].
      change (Spec.hyphenate_runs (c :: c' :: s))
        with (if Event.is_separator c
              then (if Event.is_separator c' then Spec.hyphenate_runs (c' :: s)
                    else hyphen :: Spec.hyphenate_runs (c' :: s))
              else c :: Spec.hyphenate_runs (c' :: s)).
      rewrite Hc. destruct (Event.is_separator c') eqn:Hc'.
      * apply IH2, Hc'.
      * cbn [Spec.hyphenate_runs].
        change (Spec.separator c') with (Event.is_separator c').
        rewrite Hc', IH1. reflexivity.
Qed.

(** Stripping at the start, as the source does it and as the specification
    says it. *)
Lemma drop_while_strip_leading (s : jsstring) :
  drop_while is_hyphen s = Spec.strip_leading s.
Proof.
  induction s as [|c s IH]; simpl; [reflexivity|].
  rewrite IH. reflexivity.
Qed.

Lemma drop_while_nonempty (p : codeunit -> bool) (s : jsstring) :
  forallb p s = false -> drop_while p s <> [].
Proof.
  induction s as [|c s IH]; simpl; [discriminate|].
  destruct (p c); simpl; [exact IH | discriminate].
Qed.

(** Stripping at the end: the last code unit is looked at first. *)
Lemma drop_while_end_cons (p : codeunit -> bool) (c : codeunit)
    (s : jsstring) :
  drop_while_end p (c :: s)
  = match drop_while_end p s with
    | [] => if p c then [] else [c]
    | c' :: r' => c :: c' :: r'
    end.
Proof.
  unfold drop_while_end. simpl rev.
  destruct (forallb p (rev s)) eqn:E.
  - rewrite (drop_while_app_all p (rev s) [c] E), (drop_while_all p (rev s) E).
    simpl. destruct (p c); reflexivity.
  - rewrite (drop_while_app_some p (rev s) [c] E), rev_app_distr. simpl.
    pose proof (drop_while_nonempty p (rev s) E) as Hn.
    destruct (rev (drop_while p (rev s))) as [|c' r'] eqn:Er; [|reflexivity].
    exfalso. apply Hn. rewrite <- (rev_involutive (drop_while p (rev s))), Er.
    reflexivity.
Qed.

Lemma drop_while_end_strip_trailing (s : jsstring) :
  drop_while_end is_hyphen s = Spec.strip_trailing s.
Proof.
  induction s as [|c s IH]; [reflexivity|].
  rewrite drop_while_end_cons, IH. reflexivity.
Qed.

(** The slug the hook computes is the slug of the specification: the
    replacements of lines 133 to 135 are its last three steps, and the
    [trim()] of line 132, of which it does not speak, changes nothing. *)
Lemma slugify_spec (P : Platform) (t : jsstring) :
  Event.slugify P t = Spec.slug P t.
Proof.
  unfold Event.slugify, Spec.slug.
  change (Event.hyphenated (remove_outside Event.is_slug_char (trim (toLowerCase P t)))
          = Spec.strip_trailing
              (Spec.strip_leading
                 (Spec.hyphenate_runs (Spec.remove_others (toLowerCase P t))))).
  rewrite hyphenated_trim. unfold Event.hyphenated, strip_both.
  rewrite (proj1 (replace_runs_hyphenate _)), remove_outside_others.
  rewrite drop_while_end_strip_trailing, drop_while_strip_leading.
  reflexivity.
Qed.

(* ================================================================== *)
(** * The alphabet of a slug *)
(* ================================================================== *)

(** Boolean tests on code units, read as arithmetic. *)
Ltac class_arith :=
  unfold Spec.url_safe, Event.is_slug_char, Event.is_separator, is_word,
    is_space, is_hyphen, hyphen, is_ascii, is_upper, is_lower, is_digit,
    is_char, in_range in *;
  rewrite ?orb_true_iff, ?andb_true_iff, ?negb_true_iff, ?orb_false_iff,
    ?andb_false_iff, ?N.leb_le, ?N.eqb_eq, ?N.ltb_lt, ?N.leb_gt, ?N.eqb_neq,
    ?N.ltb_ge in *;
  lia.

Lemma in_drop_while (p : codeunit -> bool) (s : jsstring) (c : codeunit) :
  In c (drop_while p s) -> In c s.
Proof.
  induction s as [|x s IH]; simpl; [tauto|].
  destruct (p x); simpl; auto.
Qed.

Lemma in_drop_while_end (p : codeunit -> bool) (s : jsstring) (c : codeunit) :
  In c (drop_while_end p s) -> In c s.
Proof.
  unfold drop_while_end. intros H.
  apply in_rev, in_drop_while in H. apply in_rev, H.
Qed.

Lemma in_trim (s : jsstring) (c : codeunit) : In c (trim s) -> In c s.
Proof.
  unfold trim. intros H. apply in_drop_while_end, in_drop_while in H. exact H.
Qed.

Lemma in_replace_runs (cls : codeunit -> bool) (r : jsstring) (b : bool)
    (s : jsstring) (c : codeunit) :
  In c (replace_runs cls r b s) -> In c r \/ (In c s /\ cls c = false).
Proof.
  revert b. induction s as [|x s IH]; intros b; simpl; [tauto|].
  destruct (cls x) eqn:Hx.
  - destruct b; [|rewrite in_app_iff]; intros H;
      [|destruct H as [H|H]; [left; exact H|]];
      destruct (IH true H) as [?|[? ?]]; auto.
  - intros [H|H]; [subst; auto|].
    destruct (IH false H) as [?|[? ?]]; auto.
Qed.

(** A code unit of a slug was a word character other than [_] of the
    lowercased title, or is a hyphen. *)
Lemma in_slugify (P : Platform) (t : jsstring) (c : codeunit) :
  In c (Event.slugify P t) ->
  is_hyphen c = true
  \/ (In c (toLowerCase P t) /\ is_word c = true /\ is_char 95 c = false).
Proof.
  unfold Event.slugify, strip_both, remove_outside. intros H.
  apply in_drop_while_end, in_drop_while, in_replace_runs in H.
  destruct H as [[H|[]]|[H Hs]].
  - left. subst. reflexivity.
  - apply filter_In in H. destruct H as [H Hc]. apply in_trim in H.
    destruct (is_hyphen c) eqn:Hh; [left; reflexivity | right].
    split; [exact H|].
    unfold Event.is_slug_char, Event.is_separator in *.
    rewrite Hh in *. destruct (is_space c), (is_word c), (is_char 95 c);
      simpl in *; try discriminate; auto.
Qed.

(** Slugs are lowercase and URL-safe, on an engine whose [toLowerCase]
    leaves no ASCII capital. *)
Lemma slugify_url_safe (P : Platform) (HP : PlatformOk P) (t : jsstring) :
  forallb Spec.url_safe (Event.slugify P t) = true.
Proof.
  apply forallb_forall. intros c H.
  destruct (in_slugify P t c H) as [Hh|[Hin [Hw Hu]]].
  - unfold Spec.url_safe. rewrite Hh. apply orb_true_r.
  - pose proof (lower_no_upper HP t) as Hn.
    rewrite forallb_forall in Hn. specialize (Hn c Hin).
    unfold Spec.url_safe, is_word in *.
    destruct (is_upper c), (is_lower c), (is_digit c), (is_char 95 c);
      simpl in *; try discriminate; reflexivity.
Qed.

Lemma url_safe_ascii (c : codeunit) :
  Spec.url_safe c = true -> is_ascii c = true.
Proof. class_arith. Qed.

Lemma url_safe_not_upper (c : codeunit) :
  Spec.url_safe c = true -> is_upper c = false.
Proof. intros H. apply not_true_is_false. intros U. class_arith. Qed.

Lemma url_safe_not_space (c : codeunit) :
  Spec.url_safe c = true -> is_space c = false.
Proof. intros H. apply not_true_is_false. intros U. class_arith. Qed.

Lemma digit_not_space (c : codeunit) :
  is_digit c = true -> is_space c = false.
Proof. intros H. apply not_true_is_false. intros U. class_arith. Qed.

Lemma drop_while_none (p : codeunit -> bool) (s : jsstring) :
  (forall c, In c s -> p c = false) -> drop_while p s = s.
Proof.
  destruct s as [|x s]; simpl; [reflexivity|].
  intros H. rewrite (H x) by auto. reflexivity.
Qed.

(** [trim] leaves a string without white space alone. *)
Lemma trim_no_space (s : jsstring) :
  (forall c, In c s -> is_space c = false) -> trim s = s.
Proof.
  intros H. unfold trim, drop_while_end.
  rewrite (drop_while_none is_space s H).
  rewrite drop_while_none; [apply rev_involutive|].
  intros c Hc. apply H, in_rev, Hc.
Qed.

(** The setters of the [slug] path ([lowercase], [trim]) do not change a
    string of URL-safe code units, in whichever order they run. *)
Lemma slug_setters_id (P : Platform) (HP : PlatformOk P) (s : jsstring) :
  forallb Spec.url_safe s = true ->
  toLowerCase P s = s /\ trim s = s.
Proof.
  intros H. rewrite forallb_forall in H. split.
  - rewrite (lower_ascii HP).
    + rewrite <- (map_id s) at 2. apply map_ext_in. intros c Hc.
      unfold ascii_lower. rewrite (url_safe_not_upper c (H c Hc)). reflexivity.
    + apply forallb_forall. intros c Hc. apply url_safe_ascii, H, Hc.
  - apply trim_no_space. intros c Hc. apply url_safe_not_space, H, Hc.
Qed.

(** What [this.slug = slugify(this.title)] stores. *)
Lemma set_slug_slugify (P : Platform) (HP : PlatformOk P) (this : Event.IEvent)
    (t : jsstring) :
  Event.slug (Event.set_slug P this (Event.slugify P t))
  = Some (Event.slugify P t).
Proof.
  destruct (slug_setters_id HP (Event.slugify P t) (slugify_url_safe HP t))
    as [E1 E2].
  simpl. rewrite E1, E2. reflexivity.
Qed.

(* ================================================================== *)
(** * Dates *)
(* ================================================================== *)

(** The month and the day of a day number are a month and a day. *)
Lemma civil_from_days_bounds (z y m d : Z) :
  civil_from_days z = (y, m, d) -> (1 <= m <= 12 /\ 1 <= d <= 31)%Z.
Proof.
  unfold civil_from_days.
  set (z' := (z + 719468)%Z).
  set (doe := (z' - z' / 146097 * 146097)%Z).
  set (yoe := ((doe - doe / 1460 + doe / 36524 - doe / 146096) / 365)%Z).
  set (doy := (doe - (365 * yoe + yoe / 4 - yoe / 100))%Z).
  set (mp := ((5 * doy + 2) / 153)%Z).
  intros E. injection E as _ Em Ed.
  assert (Hdoe : (0 <= doe < 146097)%Z)
    by (subst doe; Z.div_mod_to_equations; lia).
  assert (Hdoy : (0 <= doy <= 365)%Z)
    by (subst doy yoe; Z.div_mod_to_equations; lia).
  assert (Hmp : (0 <= mp <= 11)%Z)
    by (subst mp; Z.div_mod_to_equations; lia).
  split.
  - subst m. destruct (Z.ltb_spec mp 10); lia.
  - assert (Hk : (153 * mp <= 5 * doy + 2 < 153 * mp + 153)%Z)
      by (subst mp; Z.div_mod_to_equations; lia).
    subst d. clearbody mp doy.
    assert (C : (mp = 0 \/ mp = 1 \/ mp = 2 \/ mp = 3 \/ mp = 4 \/ mp = 5
                 \/ mp = 6 \/ mp = 7 \/ mp = 8 \/ mp = 9 \/ mp = 10
                 \/ mp = 11)%Z) by lia.
    repeat (destruct C as [C|C]; [subst mp; Z.div_mod_to_equations; lia|]).
    subst mp; Z.div_mod_to_equations; lia.
Qed.

Lemma digit_of_range (n : Z) : 48 <= digit_of n <= 57.
Proof. unfold digit_of. Z.div_mod_to_equations. lia. Qed.

Lemma digit_of_digit (n : Z) : is_digit (digit_of n) = true.
Proof. pose proof (digit_of_range n). class_arith. Qed.

Lemma digit_of_not_T (n : Z) : is_char 84 (digit_of n) = false.
Proof.
  pose proof (digit_of_range n). apply not_true_is_false. intros U.
  class_arith.
Qed.

Lemma num2_digits (n : Z) :
  (0 <= n < 100)%Z ->
  Spec.num2 (digit_of (n / 10)) (digit_of n) = Z.to_N n.
Proof.
  intros H. unfold Spec.num2, digit_of. Z.div_mod_to_equations. lia.
Qed.

(** The part of [toISOString] before its "T", for a four-digit year. *)
Lemma iso_date_part (t y m d : Z) :
  civil_from_days (t / msPerDay) = (y, m, d) -> (0 <= y <= 9999)%Z ->
  split_head 84 (toISOString t)
  = pad 4 y ++ [hyphen] ++ pad 2 m ++ [hyphen] ++ pad 2 d.
Proof.
  intros E Hy. unfold toISOString. rewrite E. unfold iso_year.
  replace ((0 <=? y)%Z && (y <=? 9999)%Z) with true
    by (symmetry; apply andb_true_iff; split; apply Z.leb_le; lia).
  cbn [pad app lit map list_ascii_of_string split_head].
  rewrite !digit_of_not_T. reflexivity.
Qed.

(** ... which is a date in canonical form. *)
Lemma iso_date_canonical (y m d : Z) :
  (1 <= m <= 12)%Z -> (1 <= d <= 31)%Z ->
  Spec.yyyy_mm_dd (pad 4 y ++ [hyphen] ++ pad 2 m ++ [hyphen] ++ pad 2 d)
  = true.
Proof.
  intros Hm Hd. cbn [pad app Spec.yyyy_mm_dd forallb].
  rewrite !digit_of_digit, !num2_digits by lia.
  cbn [andb]. change (is_hyphen hyphen) with true. cbn [andb].
  repeat (apply andb_true_iff; split); apply N.leb_le; lia.
Qed.

Lemma iso_date_trim (y m d : Z) :
  trim (pad 4 y ++ [hyphen] ++ pad 2 m ++ [hyphen] ++ pad 2 d)
  = pad 4 y ++ [hyphen] ++ pad 2 m ++ [hyphen] ++ pad 2 d.
Proof.
  apply trim_no_space. cbn [pad app]. intros c Hc. simpl in Hc.
  repeat (destruct Hc as [Hc|Hc];
          [subst c; first [apply digit_not_space, digit_of_digit | reflexivity]|]).
  contradiction.
Qed.

(* ================================================================== *)
(** * Regular expressions: [test] decides the language *)
(* ================================================================== *)

Lemma void_inv (u : jsstring) : lang Void u -> False.
Proof. intros H. inversion H. Qed.

Lemma eps_inv (u : jsstring) : lang Eps u -> u = [].
Proof. intros H. inversion H. reflexivity. Qed.

Lemma class_inv (p : codeunit -> bool) (u : jsstring) :
  lang (Class p) u -> exists c, u = [c] /\ p c = true.
Proof. intros H. inversion H; subst. eauto. Qed.

Lemma cat_inv (a b : regex) (u : jsstring) :
  lang (Cat a b) u -> exists s t, u = s ++ t /\ lang a s /\ lang b t.
Proof. intros H. inversion H; subst. eauto. Qed.

Lemma alt_inv (a b : regex) (u : jsstring) :
  lang (Alt a b) u -> lang a u \/ lang b u.
Proof. intros H. inversion H; subst; auto. Qed.

Lemma nullable_lang (r : regex) : nullable r = true <-> lang r [].
Proof.
  induction r as [| |p|a IHa b IHb|a IHa b IHb|a IHa]; simpl.
  - split; [discriminate | intros H; destruct (void_inv H)].
  - split; [constructor | reflexivity].
  - split; [discriminate|].
    intros H. destruct (class_inv H) as [c [E _]]. discriminate.
  - rewrite andb_true_iff, IHa, IHb. split.
    + intros [Ha Hb]. apply (L_cat Ha Hb).
    + intros H. destruct (cat_inv H) as [s [t [E [Ha Hb]]]].
      symmetry in E. apply app_eq_nil in E. destruct E; subst. auto.
  - rewrite orb_true_iff, IHa, IHb. split.
    + intros [H|H]; [apply L_alt_l | apply L_alt_r]; exact H.
    + apply alt_inv.
  - split; [constructor | reflexivity].
Qed.

(** A non-empty string of a starred pattern starts with a non-empty string
    of the pattern. *)
Lemma star_cons_inv_gen (r : regex) (u : jsstring) :
  lang r u ->
  forall a c s, r = Star a -> u = c :: s ->
  exists s1 s2, s = s1 ++ s2 /\ lang a (c :: s1) /\ lang (Star a) s2.
Proof.
  induction 1 as [|p x Hp|a b s t Ha _ Hb _|a b s Ha _|a b s Hb _|a
                  |a s t Hs _ Ht IHt];
    intros a0 c0 s0 Er Eu; try discriminate Er; try discriminate Eu.
  injection Er as Er; subst a0.
  destruct s as [|y s]; simpl in Eu.
  - apply (IHt a c0 s0 eq_refl Eu).
  - injection Eu as E1 E2; subst. exists s, t. auto.
Qed.

Lemma star_cons_inv (a : regex) (c : codeunit) (s : jsstring) :
  lang (Star a) (c :: s) ->
  exists s1 s2, s = s1 ++ s2 /\ lang a (c :: s1) /\ lang (Star a) s2.
Proof. intros H. apply (star_cons_inv_gen H eq_refl eq_refl). Qed.

Lemma deriv_lang (r : regex) :
  forall c s, lang (deriv c r) s <-> lang r (c :: s).
Proof.
  induction r as [| |p|a IHa b IHb|a IHa b IHb|a IHa]; intros c s; simpl.
  - split; intros H; destruct (void_inv H).
  - split; intros H; [destruct (void_inv H)|]. apply eps_inv in H. discriminate.
  - destruct (p c) eqn:Hp; split; intros H.
    + apply eps_inv in H. subst. constructor. exact Hp.
    + destruct (class_inv H) as [x [E _]]. injection E as E1 E2; subst.
      constructor.
    + destruct (void_inv H).
    + destruct (class_inv H) as [x [E Hx]]. injection E as E1 E2; subst.
      congruence.
  - assert (Fwd : forall u, lang (Cat (deriv c a) b) u -> lang (Cat a b) (c :: u)).
    { intros u H. destruct (cat_inv H) as [s1 [s2 [E [H1 H2]]]]. subst u.
      apply IHa in H1. apply (L_cat H1 H2). }
    assert (Bwd : forall u, lang (Cat a b) (c :: u) ->
                  lang (Cat (deriv c a) b) u \/ (lang a [] /\ lang b (c :: u))).
    { intros u H. destruct (cat_inv H) as [s1 [t [E [H1 H2]]]].
      destruct s1 as [|x s1]; simpl in E.
      - subst t. right. auto.
      - injection E as E1 E2; subst. left.
        apply L_cat; [apply IHa, H1 | exact H2]. }
    destruct (nullable a) eqn:Hn; split; intros H.
    + destruct (alt_inv H) as [H'|H']; [apply Fwd, H'|].
      apply (L_cat (s := []) (proj1 (nullable_lang a) Hn)). apply IHb, H'.
    + destruct (Bwd s H) as [H'|[_ H']];
        [apply L_alt_l, H' | apply L_alt_r, IHb, H'].
    + apply Fwd, H.
    + destruct (Bwd s H) as [H'|[H' _]]; [exact H'|].
      apply nullable_lang in H'. congruence.
  - split; intros H.
    + destruct (alt_inv H) as [H'|H'];
        [apply L_alt_l, IHa | apply L_alt_r, IHb]; exact H'.
    + destruct (alt_inv H) as [H'|H'];
        [apply L_alt_l, IHa | apply L_alt_r, IHb]; exact H'.
  - split; intros H.
    + destruct (cat_inv H) as [s1 [s2 [E [H1 H2]]]]. subst s.
      apply IHa in H1. apply (L_star_cons H1 H2).
    + destruct (star_cons_inv H) as [s1 [s2 [E [H1 H2]]]]. subst s.
      apply L_cat; [apply IHa, H1 | exact H2].
Qed.

(** [test] is membership in the language of the pattern. *)
Lemma test_lang (r : regex) (s : jsstring) : test r s = true <-> lang r s.
Proof.
  unfold test. revert r. induction s as [|c s IH]; intros r; simpl.
  - apply nullable_lang.
  - rewrite IH. apply deriv_lang.
Qed.

(* ================================================================== *)
(** * The time pattern *)
(* ================================================================== *)

Ltac lang_inv :=
  repeat match goal with
         | H : lang (Cat _ _) _ |- _ =>
             let E := fresh "E" in
             destruct (cat_inv H) as [? [? [E [? ?]]]]; clear H; subst
         | H : lang (Alt _ _) _ |- _ => destruct (alt_inv H); clear H
         | H : lang (Class _) _ |- _ =>
             let E := fresh "E" in
             destruct (class_inv H) as [? [E ?]]; clear H; subst
         | H : lang Eps _ |- _ => apply eps_inv in H; subst
         end.

Ltac time_arith :=
  unfold Spec.h_mm, Spec.hh_mm, Spec.num2;
  cbn [app];
  class_arith.

Lemma timeRegex_sound (s : jsstring) :
  lang Event.timeRegex s -> Spec.h_mm s = true.
Proof.
  unfold Event.timeRegex, Opt. intros H. lang_inv; time_arith.
Qed.

Lemma lang_class1 (lo hi c : codeunit) :
  lo <= c <= hi -> lang (Class (in_range lo hi)) [c].
Proof. intros H. constructor. class_arith. Qed.

Lemma lang_char1 (k c : codeunit) : c = k -> lang (Class (is_char k)) [c].
Proof. intros H. constructor. class_arith. Qed.

Lemma timeRegex_complete (s : jsstring) :
  Spec.h_mm s = true -> lang Event.timeRegex s.
Proof.
  unfold Event.timeRegex, Opt.
  destruct s as [|a [|b [|c [|d [|e [|f s]]]]]]; try discriminate; intros H.
  - apply (L_cat (s := [a]) (t := [b; c; d])).
    + apply L_alt_l. apply (L_cat (s := []) (t := [a])).
      * apply L_alt_r. constructor.
      * apply lang_class1. revert H. time_arith.
    + apply (L_cat (s := [b]) (t := [c; d])); [apply lang_char1; revert H; time_arith|].
      apply (L_cat (s := [c]) (t := [d])); apply lang_class1; revert H; time_arith.
  - apply (L_cat (s := [a; b]) (t := [c; d; e])).
    + destruct (in_range 48 49 a) eqn:Ha.
      * apply L_alt_l. apply (L_cat (s := [a]) (t := [b])).
        -- apply L_alt_l. constructor. exact Ha.
        -- apply lang_class1. revert H. time_arith.
      * apply L_alt_r. apply (L_cat (s := [a]) (t := [b])).
        -- apply lang_char1. revert H Ha. time_arith.
        -- apply lang_class1. revert H Ha. time_arith.
    + apply (L_cat (s := [c]) (t := [d; e])); [apply lang_char1; revert H; time_arith|].
      apply (L_cat (s := [d]) (t := [e])); apply lang_class1; revert H; time_arith.
Qed.

(** The time test of line 154 accepts an hour of one or two digits. *)
Lemma timeRegex_h_mm (s : jsstring) :
  test Event.timeRegex s = Spec.h_mm s.
Proof.
  apply eq_true_iff_eq. rewrite test_lang. split.
  - apply timeRegex_sound.
  - apply timeRegex_complete.
Qed.

(* ================================================================== *)
(** * The pre-save hook of Event *)
(* ================================================================== *)

Section EventHook.

Variable P : Platform.
Variable m : Event.path -> bool.
Variable this : Event.IEvent.

(** The hook fails on a date the engine cannot parse. *)
Lemma pre_save_bad_date :
  m Event.Date = true -> Date_parse P (Event.date this) = None ->
  Event.pre_save P m this = inl Event.date_error.
Proof.
  intros Hm Hd. unfold Event.pre_save. rewrite Hm.
  destruct (m Event.Title); simpl; rewrite Hd; reflexivity.
Qed.

(** The hook fails on a time the pattern does not match. *)
Lemma pre_save_bad_time :
  m Event.Time = true -> test Event.timeRegex (Event.time this) = false ->
  exists e, Event.pre_save P m this = inl e.
Proof.
  intros Hm Ht. unfold Event.pre_save. rewrite Hm.
  destruct (m Event.Title), (m Event.Date); simpl;
    try destruct (Date_parse P (Event.date this)); simpl;
    rewrite ?Ht; eauto.
Qed.

(** The hook passes when the date, if modified, parses and the time, if
    modified, matches. *)
Lemma pre_save_passes :
  (m Event.Date = true -> Date_parse P (Event.date this) <> None) ->
  (m Event.Time = true -> test Event.timeRegex (Event.time this) = true) ->
  exists this', Event.pre_save P m this = inr this'.
Proof.
  intros Hd Ht. unfold Event.pre_save.
  destruct (m Event.Title), (m Event.Date), (m Event.Time); simpl;
    try (destruct (Date_parse P (Event.date this));
         [simpl | exfalso; apply Hd; reflexivity]);
    rewrite ?Ht by reflexivity; eauto.
Qed.

Variable this' : Event.IEvent.
Hypothesis Hsave : Event.pre_save P m this = inr this'.

(** What the hook leaves in [slug], [date] and [time]. *)
Lemma pre_save_slug :
  Event.slug this'
  = if m Event.Title
    then Event.slug (Event.set_slug P this (Event.slugify P (Event.title this)))
    else Event.slug this.
Proof.
  revert Hsave. unfold Event.pre_save.
  destruct (m Event.Title), (m Event.Date), (m Event.Time); simpl;
    try destruct (Date_parse P (Event.date this)); simpl;
    try destruct (test Event.timeRegex (Event.time this)); simpl;
    intros E; inversion E; reflexivity.
Qed.

Lemma pre_save_title : Event.title this' = Event.title this.
Proof.
  revert Hsave. unfold Event.pre_save.
  destruct (m Event.Title), (m Event.Date), (m Event.Time); simpl;
    try destruct (Date_parse P (Event.date this)); simpl;
    try destruct (test Event.timeRegex (Event.time this)); simpl;
    intros E; inversion E; reflexivity.
Qed.

Lemma pre_save_date :
  m Event.Date = true ->
  exists t, Date_parse P (Event.date this) = Some t
            /\ Event.date this' = trim (split_head 84 (toISOString t)).
Proof.
  intros Hm. revert Hsave. unfold Event.pre_save. rewrite Hm.
  destruct (m Event.Title), (m Event.Time); simpl;
    destruct (Date_parse P (Event.date this)) as [t|]; simpl;
    try destruct (test Event.timeRegex (Event.time this)); simpl;
    intros E; inversion E; exists t; split; reflexivity.
Qed.

Lemma pre_save_time :
  Event.time this' = Event.time this
  /\ (m Event.Time = true -> test Event.timeRegex (Event.time this) = true).
Proof.
  revert Hsave. unfold Event.pre_save.
  destruct (m Event.Title), (m Event.Date), (m Event.Time); simpl;
    try destruct (Date_parse P (Event.date this)); simpl;
    try destruct (test Event.timeRegex (Event.time this)) eqn:Ht; simpl;
    intros E; inversion E; split; try reflexivity; try discriminate.
Qed.

End EventHook.

(* ================================================================== *)
(** * Validation of Event *)
(* ================================================================== *)

Lemma all_paths_complete (p : Event.path) : In p Event.all_paths.
Proof. destruct p; simpl; tauto. Qed.

Lemma flat_map_nil (A B : Type) (f : A -> list B) (l : list A) :
  flat_map f l = [] <-> forall x, In x l -> f x = [].
Proof.
  induction l as [|a l IH]; simpl.
  - split; [intros _ x [] | reflexivity].
  - split.
    + intros H. apply app_eq_nil in H. destruct H as [Ha Hl].
      intros x [E|Hx]; [subst; exact Ha | apply IH; assumption].
    + intros H. rewrite (H a) by auto. apply IH. intros x Hx. apply H. auto.
Qed.

(** No validation error: every path passes its validators. *)
Lemma validation_errors_nil (f : Event.fields) :
  Event.validation_errors f = []
  <-> forall p, validate_path (Event.EventSchema p) (f p) = None.
Proof.
  unfold Event.validation_errors. rewrite flat_map_nil. split.
  - intros H p. specialize (H p (all_paths_complete p)).
    destruct (validate_path (Event.EventSchema p) (f p)); [discriminate | reflexivity].
  - intros H p _. rewrite H. reflexivity.
Qed.

(** A required, trimmed string path passes exactly when the value is
    present and not blank. *)
Lemma required_string_ok (P : Platform) (msg : jsstring) (u : bool)
    (o : option jsstring) :
  validate_path (SString (Some msg) true false u None None)
    (apply_setters P (SString (Some msg) true false u None None)
       (Event.of_string o)) = None
  <-> Spec.non_blank o = true.
Proof.
  destruct o as [s|]; simpl.
  - destruct (trim s); split; intros H; try discriminate; reflexivity.
  - split; discriminate.
Qed.

Lemma mode_ok (P : Platform) (o : option jsstring) :
  validate_path (Event.EventSchema Event.Mode)
    (apply_setters P (Event.EventSchema Event.Mode) (Event.of_string o)) = None
  <-> Spec.non_blank o = true /\ Spec.mode_allowed o = true.
Proof.
  destruct o as [s|]; cbn -[includes trim lit].
  - destruct (trim s) eqn:E.
    + split; [discriminate | intros [H _]; discriminate].
    + destruct (includes _ (c :: j)); split;
        try discriminate; try tauto; intros [_ H]; discriminate.
  - split; [discriminate | intros [H _]; discriminate].
Qed.

Lemma array_ok (req : option jsstring) (msg : jsstring)
    (o : option (list jsstring)) :
  validate_path (SStringArray req (Some (Event.length_gt_0, msg)))
    (Event.of_array o) = None
  <-> Spec.non_empty o = true.
Proof.
  destruct o as [[|x a]|]; simpl; split; intros H;
    try discriminate; reflexivity.
Qed.

(** Validation passes exactly on the fields the specification calls
    valid. *)
Lemma validation_spec (P : Platform) (i : Event.EventInput) :
  Event.validation_errors (Event.assign P (Event.value_of i)) = []
  <-> Spec.valid_event i = true.
Proof.
  rewrite validation_errors_nil. unfold Spec.valid_event.
  rewrite !andb_true_iff. split.
  - intros H.
    pose proof (proj1 (mode_ok P _) (H Event.Mode)) as [Hm1 Hm2].
    repeat split;
      first [ exact Hm1 | exact Hm2
            | apply (proj1 (required_string_ok P _ _ _) (H Event.Title))
            | apply (proj1 (required_string_ok P _ _ _) (H Event.Description))
            | apply (proj1 (required_string_ok P _ _ _) (H Event.Overview))
            | apply (proj1 (required_string_ok P _ _ _) (H Event.Image))
            | apply (proj1 (required_string_ok P _ _ _) (H Event.Venue))
            | apply (proj1 (required_string_ok P _ _ _) (H Event.Location))
            | apply (proj1 (required_string_ok P _ _ _) (H Event.Date))
            | apply (proj1 (required_string_ok P _ _ _) (H Event.Time))
            | apply (proj1 (required_string_ok P _ _ _) (H Event.Audience))
            | apply (proj1 (required_string_ok P _ _ _) (H Event.Organizer))
            | apply (proj1 (array_ok _ _ _) (H Event.Agenda))
            | apply (proj1 (array_ok _ _ _) (H Event.Tags)) ].
  - intros [[[[[[[[[[[[[H1 H2] H3] H4] H5] H6] H7] H8] H9] H10] H11] H12] H13] H14] p.
    destruct p;
      try (apply (proj2 (required_string_ok P _ _ _)); assumption);
      try (apply (proj2 (array_ok _ _ _)); assumption).
    + unfold Event.assign, Event.value_of. destruct (Event.in_slug i); reflexivity.
    + apply (proj2 (mode_ok P _)). split; assumption.
Qed.

(* ================================================================== *)
(** * Saving an Event *)
(* ================================================================== *)

(** A create that goes through: validation passed, the hook passed, the
    index admitted the slug and the [_id] was free. *)
Lemma create_cases (P : Platform) (c c' : Event.collection) (id : ObjectId)
    (i : Event.EventInput) :
  Event.create P c id i = inr c' ->
  Spec.valid_event i = true
  /\ exists ev,
       Event.pre_save P (Event.given i)
         (Event.document (Event.assign P (Event.value_of i))) = inr ev
       /\ Event.slug_taken c id (Event.slug ev) = false
       /\ Event.has_id c id = false
       /\ c' = c ++ [(id, ev)].
Proof.
  unfold Event.create, Event.save, Event.in_memory, Event.isModified. simpl.
  destruct (Event.validation_errors _) eqn:E; [|discriminate].
  apply validation_spec in E.
  destruct (Event.pre_save _ _ _) as [msg|ev]; [discriminate|].
  destruct (Event.slug_taken _ _ _) eqn:Ht; [discriminate|].
  destruct (Event.has_id c id) eqn:Hid; [discriminate|].
  intros H. injection H as H. subst c'. split; [exact E|].
  exists ev. auto.
Qed.

Lemma jsstring_eqb_refl (s : jsstring) : jsstring_eqb s s = true.
Proof.
  induction s as [|c s IH]; simpl; [reflexivity|].
  rewrite N.eqb_refl. exact IH.
Qed.

(** A stored document with another [_id] and the same slug blocks the
    write. *)
Lemma slug_taken_in (c : Event.collection) (id id' : ObjectId)
    (ev : Event.IEvent) :
  In (id', ev) c -> id' <> id ->
  Event.slug_taken c id (Event.slug ev) = true.
Proof.
  intros Hin Hne. unfold Event.slug_taken. apply existsb_exists.
  exists (id', ev). split; [exact Hin|]. simpl.
  apply N.eqb_neq in Hne. rewrite Hne. simpl.
  destruct (Event.slug ev); simpl; [apply jsstring_eqb_refl | reflexivity].
Qed.

Lemma find_last (c : Event.collection) (id : ObjectId) (ev : Event.IEvent) :
  Event.has_id c id = false -> Event.find (c ++ [(id, ev)]) id = Some ev.
Proof.
  unfold Event.has_id. induction c as [|[x e] c IH]; simpl.
  - rewrite N.eqb_refl. reflexivity.
  - destruct (x =? id); simpl; [intros H; discriminate H | exact IH].
Qed.

(** The title of a valid document is the trimmed title of the input, and
    counts as modified on a create. *)
Lemma valid_title (P : Platform) (i : Event.EventInput) :
  Spec.valid_event i = true ->
  exists t, Event.in_title i = Some t
            /\ Event.title (Event.document (Event.assign P (Event.value_of i)))
               = trim t
            /\ Event.given i Event.Title = true.
Proof.
  unfold Spec.valid_event. rewrite !andb_true_iff. intros H.
  assert (Ht : Spec.non_blank (Event.in_title i) = true) by tauto.
  unfold Event.given, Event.value_of.
  destruct (Event.in_title i) as [t|] eqn:E; [|simpl in Ht; discriminate Ht].
  exists t. simpl. auto.
Qed.

(** A successful [create] stores what the hook returns for the validated
    fields. *)
Lemma create_stored (P : Platform) (c c' : Event.collection) (id : ObjectId)
    (i : Event.EventInput) :
  Event.create P c id i = inr c' ->
  Spec.valid_event i = true
  /\ exists ev,
       Event.pre_save P (Event.given i)
         (Event.document (Event.assign P (Event.value_of i))) = inr ev
       /\ Event.slug_taken c id (Event.slug ev) = false
       /\ c' = c ++ [(id, ev)]
       /\ Event.find c' id = Some ev.
Proof.
  intros H. apply create_cases in H.
  destruct H as [Hv [ev [Hh [Ht [Hid Ec]]]]].
  split; [exact Hv|]. exists ev. subst c'. auto using find_last.
Qed.

(** A [create] whose fields are valid and whose hook fails returns the
    error of the hook. *)
Lemma create_hook_error (P : Platform) (c : Event.collection) (id : ObjectId)
    (i : Event.EventInput) (msg : jsstring) :
  Spec.valid_event i = true ->
  Event.pre_save P (Event.given i)
    (Event.document (Event.assign P (Event.value_of i))) = inl msg ->
  Event.create P c id i = inl (HookError msg).
Proof.
  intros Hv Hh. unfold Event.create, Event.save, Event.in_memory, Event.isModified. simpl.
  rewrite (proj2 (validation_spec P i) Hv), Hh. reflexivity.
Qed.

Lemma document_date (P : Platform) (i : Event.EventInput) (d : jsstring) :
  Event.in_date i = Some d ->
  Event.date (Event.document (Event.assign P (Event.value_of i))) = trim d
  /\ Event.given i Event.Date = true.
Proof.
  intros H. unfold Event.given, Event.assign, Event.value_of. simpl.
  rewrite H. auto.
Qed.

Lemma document_time (P : Platform) (i : Event.EventInput) (t : jsstring) :
  Event.in_time i = Some t ->
  Event.time (Event.document (Event.assign P (Event.value_of i))) = trim t
  /\ Event.given i Event.Time = true.
Proof.
  intros H. unfold Event.given, Event.assign, Event.value_of. simpl.
  rewrite H. auto.
Qed.

(** A successful [create] stores the document under its [_id], with the
    slug of its trimmed title. *)
Lemma create_inr (P : Platform) (HP : PlatformOk P) (c c' : Event.collection)
    (id : ObjectId) (i : Event.EventInput) :
  Event.create P c id i = inr c' ->
  exists t ev,
    Event.in_title i = Some t
    /\ c' = c ++ [(id, ev)]
    /\ Event.find c' id = Some ev
    /\ Event.title ev = trim t
    /\ Event.slug ev = Some (Event.slugify P (trim t))
    /\ Event.slug_taken c id (Event.slug ev) = false.
Proof.
  intros H.
  destruct (create_stored _ _ _ _ H) as [Hv [ev [Hh [Ht [Ec Hf]]]]].
  destruct (valid_title P i Hv) as [t [Et [Edoc Hg]]].
  exists t, ev.
  pose proof (@pre_save_slug _ _ _ _ Hh) as Hs. rewrite Hg in Hs.
  rewrite (set_slug_slugify HP), Edoc in Hs.
  pose proof (@pre_save_title _ _ _ _ Hh) as Htt. rewrite Edoc in Htt.
  repeat split; auto.
Qed.

(** Creating an Event whose slug another stored Event holds fails on the
    unique index, when nothing else is wrong with it. *)
Lemma create_collides (P : Platform) (HP : PlatformOk P)
    (c c2 : Event.collection) (id id2 : ObjectId) (ev : Event.IEvent)
    (i2 : Event.EventInput) (t2 : jsstring) :
  Event.create P c id2 i2 = inr c2 ->
  Event.in_title i2 = Some t2 ->
  Event.slug ev = Some (Event.slugify P (trim t2)) ->
  id2 <> id ->
  Event.create P (c ++ [(id, ev)]) id2 i2 = inl (DuplicateKey (lit "slug_1")).
Proof.
  intros H2 Et2 Es Hne.
  destruct (@create_inr _ HP _ _ _ _ H2) as [t [ev2 [Et [_ [_ [_ [Es2 _]]]]]]].
  rewrite Et2 in Et. injection Et as Et; subst t.
  apply create_cases in H2.
  destruct H2 as [Hv [ev2' [Hh _]]].
  unfold Event.create, Event.save, Event.in_memory, Event.isModified. simpl.
  rewrite (proj2 (validation_spec P i2) Hv), Hh.
  assert (Es2' : Event.slug ev2' = Event.slug ev).
  { pose proof (@pre_save_slug _ _ _ _ Hh) as Hs.
    destruct (valid_title P i2 Hv) as [t [Et [Edoc Hg]]].
    rewrite Et2 in Et. injection Et as Et; subst t.
    rewrite Hg, (set_slug_slugify HP), Edoc in Hs. congruence. }
  rewrite Es2', (slug_taken_in (c ++ [(id, ev)]) (id' := id)); auto.
  apply in_or_app. right. left. reflexivity.
Qed.

(** [create] succeeds on valid fields whose date parses and whose time
    matches, under a fresh [_id] and with a free slug. *)
Lemma create_succeeds (P : Platform) (HP : PlatformOk P) (c : Event.collection)
    (id : ObjectId) (i : Event.EventInput) (t d tm : jsstring) :
  Spec.valid_event i = true ->
  Event.in_title i = Some t -> Event.in_date i = Some d ->
  Event.in_time i = Some tm ->
  Date_parse P (trim d) <> None ->
  test Event.timeRegex (trim tm) = true ->
  Event.slug_taken c id (Some (Event.slugify P (trim t))) = false ->
  Event.has_id c id = false ->
  exists c', Event.create P c id i = inr c'.
Proof.
  intros Hv Et Ed Etm Hd Ht Hs Hid.
  set (doc := Event.document (Event.assign P (Event.value_of i))).
  assert (Edate : Event.date doc = trim d) 
    by (subst doc; unfold Event.assign, Event.value_of; simpl; rewrite Ed; reflexivity).
  assert (Etime : Event.time doc = trim tm) 
    by (subst doc; unfold Event.assign, Event.value_of; simpl; rewrite Etm; reflexivity).
  assert (Etitle : Event.title doc = trim t) 
    by (subst doc; unfold Event.assign, Event.value_of; simpl; rewrite Et; reflexivity).
  destruct (pre_save_passes P (Event.given i) doc) as [ev Hh].
  { intros _. rewrite Edate. exact Hd. }
  { intros _. rewrite Etime. exact Ht. }
  pose proof (@pre_save_slug _ _ _ _ Hh) as Hsl.
  destruct (valid_title P i Hv) as [t' [Et' [_ Hg]]].
  rewrite Hg, (set_slug_slugify HP), Etitle in Hsl.
  unfold Event.create, Event.save, Event.in_memory, Event.isModified. simpl.
  rewrite (proj2 (validation_spec P i) Hv). fold doc. rewrite Hh, Hsl, Hs, Hid.
  eauto.
Qed.

(* ================================================================== *)
(** * The reference engine *)
(* ================================================================== *)

Lemma ref_platform_ok : PlatformOk ref_platform.
Proof.
  split; simpl.
  - intros s H. rewrite forallb_forall in H. apply map_ext_in. intros c Hc.
    specialize (H c Hc). unfold ref_lower.
    replace (is_char kelvin_sign c) with false; [reflexivity|].
    symmetry. apply not_true_is_false. intros U.
    unfold kelvin_sign in U. class_arith.
  - intros s. apply forallb_forall. intros c Hc.
    apply in_map_iff in Hc. destruct Hc as [x [E _]]. subst c.
    unfold ref_lower, ascii_lower.
    destruct (is_char kelvin_sign x); [reflexivity|].
    destruct (is_upper x) eqn:U.
    + apply negb_true_iff, not_true_is_false. intros V. class_arith.
    + rewrite U. reflexivity.
  - reflexivity.
  - reflexivity.
Qed.

(* ================================================================== *)
(** * Event: the claims *)
(* ================================================================== *)

(** ** The slug *)



(** ** The date *)

(** What the hook does with a modified date. *)
Lemma pre_save_date_spec (P : Platform) (m : Event.path -> bool)
    (this : Event.IEvent) (Hm : m Event.Date = true) :
  (Date_parse P (Event.date this) = None ->
   Event.pre_save P m this = inl Event.date_error)
  /\ (Event.date this = lit "13/01/2025" ->
      date_fallback P (lit "13/01/2025") = None ->
      Event.pre_save P m this = inl Event.date_error)
  /\ (forall this',
        Event.pre_save P m this = inr this' ->
        exists t, Date_parse P (Event.date this) = Some t
                  /\ Event.date this' = trim (split_head 84 (toISOString t))
                  /\ ((0 <= Spec.utc_year t <= 9999)%Z ->
                      Event.date this' = split_head 84 (toISOString t)
                      /\ Spec.yyyy_mm_dd (Event.date this') = true))
  /\ (forall this',
        Event.date this = lit "2025-01-13" ->
        Event.pre_save P m this = inr this' ->
        Event.date this' = lit "2025-01-13").
Proof.
  split; [apply pre_save_bad_date, Hm|].
  split.
  { intros Ed Hf. apply pre_save_bad_date; [exact Hm|].
    rewrite Ed. unfold Date_parse.
    change (parse_iso_date (lit "13/01/2025")) with (@None Z). exact Hf. }
  split.
  { intros this' H.
    destruct (@pre_save_date _ _ _ _ H Hm) as [t [Ep Ed]].
    exists t. split; [exact Ep|]. split; [exact Ed|].
    intros Hy. unfold Spec.utc_year in Hy.
    destruct (civil_from_days (t / msPerDay)) as [[y mo] d] eqn:Ec.
    simpl in Hy.
    destruct (civil_from_days_bounds Ec) as [Hmo Hd].
    rewrite Ed, (@iso_date_part _ _ _ _ Ec Hy), iso_date_trim.
    split; [reflexivity | apply iso_date_canonical; assumption]. }
  intros this' Ed H.
  destruct (@pre_save_date _ _ _ _ H Hm) as [t [Ep Et]].
  rewrite Ed in Ep. unfold Date_parse in Ep.
  assert (Ei : parse_iso_date (lit "2025-01-13") = Some 1736726400000%Z)
    by (vm_compute; reflexivity).
  rewrite Ei in Ep. injection Ep as Ep; subst t.
  rewrite Et. vm_compute. reflexivity.
Qed.

(** Dates of the years 0000 to 9999.  On every write that modifies the
    date, and so on every create: a date for which [new Date] yields no time
    value makes the hook fail with "Date must be a valid date string" and
    the write with it ("13/01/2025" for one, on an engine that rejects it);
    otherwise what is stored is the date part of the ISO timestamp of the
    parsed instant, which is of the form YYYY-MM-DD whenever the UTC year
    of that instant lies between 0 and 9999; "2025-01-13" is stored as
    "2025-01-13". *)
Lemma date_normalised_at_write (P : Platform) (HP : PlatformOk P) :
  (forall m this,
     m Event.Date = true ->
     (Date_parse P (Event.date this) = None ->
      Event.pre_save P m this = inl Event.date_error)
     /\ (Event.date this = lit "13/01/2025" ->
         Event.pre_save P m this = inl Event.date_error)
     /\ (forall this',
           Event.pre_save P m this = inr this' ->
           exists t, Date_parse P (Event.date this) = Some t
                     /\ Event.date this' = trim (split_head 84 (toISOString t))
                     /\ ((0 <= Spec.utc_year t <= 9999)%Z ->
                         Event.date this' = split_head 84 (toISOString t)
                         /\ Spec.yyyy_mm_dd (Event.date this') = true))
     /\ (forall this',
           Event.date this = lit "2025-01-13" ->
           Event.pre_save P m this = inr this' ->
           Event.date this' = lit "2025-01-13"))
  /\ (forall c id i d,
        Event.in_date i = Some d ->
        (Date_parse P (trim d) = None ->
         (forall c', Event.create P c id i <> inr c')
         /\ (Spec.valid_event i = true ->
             Event.create P c id i = inl (HookError Event.date_error)))
        /\ (forall c',
              Event.create P c id i = inr c' ->
              exists ev t,
                Event.find c' id = Some ev
                /\ Date_parse P (trim d) = Some t
                /\ Event.date ev = trim (split_head 84 (toISOString t))
                /\ ((0 <= Spec.utc_year t <= 9999)%Z ->
                    Spec.yyyy_mm_dd (Event.date ev) = true)))
  /\ (forall c id i,
        Event.in_date i = Some (lit "13/01/2025") ->
        (forall c', Event.create P c id i <> inr c')
        /\ (Spec.valid_event i = true ->
            Event.create P c id i = inl (HookError Event.date_error)))
  /\ (forall c id i c',
        Event.in_date i = Some (lit "2025-01-13") ->
        Event.create P c id i = inr c' ->
        exists ev, Event.find c' id = Some ev
                   /\ Event.date ev = lit "2025-01-13").
Proof.
  assert (B : forall c id i d,
             Event.in_date i = Some d -> Date_parse P (trim d) = None ->
             (forall c', Event.create P c id i <> inr c')
             /\ (Spec.valid_event i = true ->
                 Event.create P c id i = inl (HookError Event.date_error))).
  { intros c id i d Ed Hp. destruct (document_date P i Ed) as [Edoc Hg].
    assert (Hh : Event.pre_save P (Event.given i)
                   (Event.document (Event.assign P (Event.value_of i)))
                 = inl Event.date_error).
    { apply pre_save_bad_date; [exact Hg | rewrite Edoc; exact Hp]. }
    split.
    - intros c' H. destruct (create_stored _ _ _ _ H) as [_ [ev [Hev _]]].
      congruence.
    - intros Hv. apply create_hook_error; assumption. }
  split.
  { intros m this Hm.
    destruct (@pre_save_date_spec P m this Hm) as [H1 [H2 [H3 H4]]].
    repeat split; auto.
    intros Ed. apply H2; [exact Ed | apply (month_13_rejected HP)]. }
  split.
  { intros c id i d Ed. destruct (document_date P i Ed) as [Edoc Hg].
    split; [apply B, Ed|].
    intros c' H.
    destruct (create_stored _ _ _ _ H) as [_ [ev [Hev [_ [_ Hf]]]]].
    destruct (@pre_save_date_spec P (Event.given i)
                (Event.document (Event.assign P (Event.value_of i))) Hg)
      as [_ [_ [Hd _]]].
    destruct (Hd ev Hev) as [t [Ep [Edate Hy]]].
    rewrite Edoc in Ep. exists ev, t. repeat split; auto.
    intros Hr. apply Hy, Hr. }
  split.
  { intros c id i Ed. apply (B c id i _ Ed). unfold Date_parse.
    change (parse_iso_date (trim (lit "13/01/2025"))) with (@None Z).
    apply (month_13_rejected HP). }
  intros c id i c' Ed H. destruct (document_date P i Ed) as [Edoc Hg].
  destruct (create_stored _ _ _ _ H) as [_ [ev [Hev [_ [_ Hf]]]]].
  destruct (@pre_save_date_spec P (Event.given i)
              (Event.document (Event.assign P (Event.value_of i))) Hg)
    as [_ [_ [_ Hd]]].
  exists ev. split; [exact Hf|].
  apply (Hd ev); [rewrite Edoc; reflexivity | exact Hev].
Qed.

(** The hook reports a date only when [new Date] yields no time value. *)
Lemma pre_save_date_error (P : Platform) (m : Event.path -> bool)
    (this : Event.IEvent) :
  Event.pre_save P m this = inl Event.date_error ->
  m Event.Date = true /\ Date_parse P (Event.date this) = None.
Proof.
  unfold Event.pre_save.
  destruct (m Event.Title), (m Event.Date), (m Event.Time); simpl;
    try destruct (Date_parse P (Event.date this)); simpl;
    try destruct (test Event.timeRegex (Event.time this)); simpl;
    intros E; try discriminate E; try (split; reflexivity);
    vm_compute in E; discriminate E.
Qed.

(** C4.  The hook does not always store a date as YYYY-MM-DD, which is
    what its comments (lines 138 and 145) and the specification say it
    does: "+010000-01-01" is a date of the ECMAScript format, every engine
    parses it as the first day of the year 10000, the date step does not
    fail on it, and what the hook stores for it, and so what a create
    stores, is "+010000-01-01" again, [toISOString] writing the years
    beyond 9999 with a sign and six digits. *)
Theorem date_expanded_year_stored (P : Platform) :
  Date_parse P (lit "+010000-01-01") = Some 253402300800000%Z
  /\ (forall m this,
        m Event.Date = true -> Event.date this = lit "+010000-01-01" ->
        Event.pre_save P m this <> inl Event.date_error
        /\ forall this',
             Event.pre_save P m this = inr this' ->
             Event.date this' = lit "+010000-01-01"
             /\ Spec.yyyy_mm_dd (Event.date this') = false)
  /\ (forall c id i c',
        Event.in_date i = Some (lit "+010000-01-01") ->
        Event.create P c id i = inr c' ->
        exists ev, Event.find c' id = Some ev
                   /\ Event.date ev = lit "+010000-01-01"
                   /\ Spec.yyyy_mm_dd (Event.date ev) = false).
Proof.
  assert (Ep : Date_parse P (lit "+010000-01-01") = Some 253402300800000%Z).
  { unfold Date_parse.
    change (parse_iso_date (lit "+010000-01-01"))
      with (Some 253402300800000%Z). reflexivity. }
  assert (Es : trim (split_head 84 (toISOString 253402300800000))
               = lit "+010000-01-01") by (vm_compute; reflexivity).
  assert (Hh : forall m this this',
             m Event.Date = true -> Event.date this = lit "+010000-01-01" ->
             Event.pre_save P m this = inr this' ->
             Event.date this' = lit "+010000-01-01"
             /\ Spec.yyyy_mm_dd (Event.date this') = false).
  { intros m this this' Hm Ed H.
    destruct (@pre_save_date _ _ _ _ H Hm) as [t [Et Edate]].
    rewrite Ed, Ep in Et. injection Et as Et. subst t.
    rewrite Edate, Es. split; reflexivity. }
  split; [exact Ep|]. split.
  - intros m this Hm Ed. split; [|intros this'; apply Hh; assumption].
    intros H. apply pre_save_date_error in H. destruct H as [_ H].
    rewrite Ed, Ep in H. discriminate H.
  - intros c id i c' Ed H. destruct (document_date P i Ed) as [Edoc Hg].
    destruct (create_stored _ _ _ _ H) as [_ [ev [Hev [_ [_ Hf]]]]].
    exists ev. split; [exact Hf|].
    apply (Hh (Event.given i)
             (Event.document (Event.assign P (Event.value_of i))) ev Hg);
      [|exact Hev].
    rewrite Edoc. reflexivity.
Qed.

Lemma date_expanded_year_stored_witness :
  exists c' ev,
    Event.create ref_platform [] 1
      (sample_input "Dev Night" "+010000-01-01" "09:05") = inr c'
    /\ Event.find c' 1 = Some ev
    /\ Event.date ev = lit "+010000-01-01"
    /\ Spec.yyyy_mm_dd (Event.date ev) = false.
Proof.
  destruct (Event.create ref_platform [] 1
              (sample_input "Dev Night" "+010000-01-01" "09:05"))
    as [e|c'] eqn:E; [vm_compute in E; discriminate E|].
  destruct (proj2 (proj2 (date_expanded_year_stored ref_platform))
              [] 1%N (sample_input "Dev Night" "+010000-01-01" "09:05") c'
              eq_refl E) as [ev H].
  exists c', ev. split; [reflexivity | exact H].
Defined.

(** ** The time *)

Lemma pre_save_bad_time_message (P : Platform) (m : Event.path -> bool)
    (this : Event.IEvent) :
  m Event.Time = true -> test Event.timeRegex (Event.time this) = false ->
  (m Event.Date = true -> Date_parse P (Event.date this) <> None) ->
  Event.pre_save P m this = inl Event.time_error.
Proof.
  intros Hm Ht Hd. unfold Event.pre_save. rewrite Hm.
  destruct (m Event.Title), (m Event.Date); simpl;
    try (destruct (Date_parse P (Event.date this));
         [simpl | exfalso; apply Hd; reflexivity]);
    rewrite ?Ht; reflexivity.
Qed.

(** Against C5 as the specification states it: a time with a one-digit
    hour passes the hook and is stored as it is. *)
Lemma time_one_digit_hour_accepted :
  ~ (forall P m this this',
       m Event.Time = true -> Event.pre_save P m this = inr this' ->
       Spec.hh_mm (Event.time this') = true).
Proof.
  intros H.
  assert (E : exists this',
             Event.pre_save ref_platform all_modified
               (sample_event "2025-01-13" "9:05") = inr this'
             /\ Event.time this' = lit "9:05").
  { vm_compute. eexists. split; reflexivity. }
  destruct E as [this' [E T]].
  specialize (H ref_platform all_modified _ this' eq_refl E).
  rewrite T in H. discriminate H.
Qed.

(** What the hook does with a modified time. *)
Lemma pre_save_time_spec (P : Platform) (m : Event.path -> bool)
    (this : Event.IEvent) (Hm : m Event.Time = true) :
  (forall this',
     Event.pre_save P m this = inr this' ->
     Event.time this' = Event.time this /\ Spec.h_mm (Event.time this') = true)
  /\ (Spec.h_mm (Event.time this) = false ->
      (exists e, Event.pre_save P m this = inl e)
      /\ ((m Event.Date = true -> Date_parse P (Event.date this) <> None) ->
          Event.pre_save P m this = inl Event.time_error))
  /\ (Spec.h_mm (Event.time this) = true ->
      (m Event.Date = true -> Date_parse P (Event.date this) <> None) ->
      exists this', Event.pre_save P m this = inr this')
  /\ Spec.h_mm (lit "25:61") = false
  /\ Spec.h_mm (lit "9:5") = false
  /\ Spec.h_mm (lit "09:05") = true.
Proof.
  split.
  { intros this' H. destruct (@pre_save_time _ _ _ _ H) as [E T].
    split; [exact E|]. rewrite E, <- timeRegex_h_mm. apply T, Hm. }
  split.
  { intros H. rewrite <- timeRegex_h_mm in H. split.
    - apply pre_save_bad_time; assumption.
    - apply pre_save_bad_time_message; assumption. }
  split.
  { intros H Hd. rewrite <- timeRegex_h_mm in H.
    apply pre_save_passes; [exact Hd | intros _; exact H]. }
  repeat split; reflexivity.
Qed.

(** C5, amended.  On every write that modifies the time, and so on every
    create, the hook passes only if the time is an hour 0-23 of one or two
    digits, a colon and a two-digit minute 00-59, and fails with "Time must
    be in HH:MM format" otherwise, the write with it; "25:61" and "9:5" are
    rejected, "09:05" is accepted. *)
Theorem time_checked_at_write (P : Platform) :
  (forall m this,
     m Event.Time = true ->
     (forall this',
        Event.pre_save P m this = inr this' ->
        Spec.h_mm (Event.time this) = true
        /\ Spec.h_mm (Event.time this') = true)
     /\ (Spec.h_mm (Event.time this) = false ->
         (exists e, Event.pre_save P m this = inl e)
         /\ ((m Event.Date = true -> Date_parse P (Event.date this) <> None) ->
             Event.pre_save P m this = inl Event.time_error))
     /\ (Spec.h_mm (Event.time this) = true ->
         (m Event.Date = true -> Date_parse P (Event.date this) <> None) ->
         exists this', Event.pre_save P m this = inr this'))
  /\ (forall c id i tm,
        Event.in_time i = Some tm ->
        (forall c',
           Event.create P c id i = inr c' ->
           Spec.h_mm (trim tm) = true
           /\ exists ev, Event.find c' id = Some ev
                         /\ Spec.h_mm (Event.time ev) = true)
        /\ (Spec.h_mm (trim tm) = false ->
            (forall c', Event.create P c id i <> inr c')
            /\ (Spec.valid_event i = true ->
                exists e, Event.create P c id i = inl (HookError e))))
  /\ Spec.h_mm (lit "25:61") = false
  /\ Spec.h_mm (lit "9:5") = false
  /\ Spec.h_mm (lit "09:05") = true.
Proof.
  assert (A : forall c id i tm c',
             Event.in_time i = Some tm ->
             Event.create P c id i = inr c' ->
             Spec.h_mm (trim tm) = true
             /\ exists ev, Event.find c' id = Some ev
                           /\ Spec.h_mm (Event.time ev) = true).
  { intros c id i tm c' Et H. destruct (document_time P i Et) as [Edoc Hg].
    destruct (create_stored _ _ _ _ H) as [_ [ev [Hev [_ [_ Hf]]]]].
    destruct (@pre_save_time_spec P (Event.given i)
                (Event.document (Event.assign P (Event.value_of i))) Hg)
      as [Ht _].
    destruct (Ht ev Hev) as [E T]. rewrite E, Edoc in T. split; [exact T|].
    exists ev. rewrite E, Edoc. auto. }
  split.
  { intros m this Hm.
    destruct (@pre_save_time_spec P m this Hm) as [H1 [H2 [H3 _]]].
    split; [|split; [exact H2 | exact H3]].
    intros this' H. destruct (H1 this' H) as [E T].
    split; [rewrite <- E; exact T | exact T]. }
  split.
  { intros c id i tm Et. split; [intros c'; apply A, Et|].
    intros Hf. split.
    - intros c' H. destruct (A c id i tm c' Et H) as [T _]. congruence.
    - intros Hv. destruct (document_time P i Et) as [Edoc Hg].
      destruct (@pre_save_bad_time P (Event.given i)
                  (Event.document (Event.assign P (Event.value_of i))) Hg)
        as [e He].
      { rewrite Edoc, timeRegex_h_mm. exact Hf. }
      exists e. apply create_hook_error; assumption. }
  repeat split; reflexivity.
Qed.

Lemma time_checked_at_write_witness :
  exists this',
    Event.pre_save ref_platform all_modified (sample_event "2025-01-13" "09:05")
    = inr this'.
Proof.
  apply (proj2 (proj2
           (proj1 (time_checked_at_write ref_platform) all_modified
              (sample_event "2025-01-13" "09:05") eq_refl))).
  - reflexivity.
  - intros _. vm_compute. discriminate.
Defined.

(** ** The unique index on the slug *)

(** C8.  The unique index on [slug] is enforced when the document is
    written: once an Event has been created, a create of another Event
    whose title yields the same slug never succeeds, and fails with the
    duplicate-key error of the index [slug_1] whenever that second Event
    would have been accepted without the first. *)
Theorem slug_unique_index (P : Platform) (HP : PlatformOk P)
    (c c1 : Event.collection) (id1 id2 : ObjectId)
    (i1 i2 : Event.EventInput) (t1 t2 : jsstring) :
  Event.create P c id1 i1 = inr c1 ->
  Event.in_title i1 = Some t1 -> Event.in_title i2 = Some t2 ->
  Spec.slug P (trim t1) = Spec.slug P (trim t2) ->
  id2 <> id1 ->
  (forall c2, Event.create P c1 id2 i2 <> inr c2)
  /\ (forall c2, Event.create P c id2 i2 = inr c2 ->
                 Event.create P c1 id2 i2 = inl (DuplicateKey (lit "slug_1"))).
Proof.
  intros H1 Et1 Et2 Es Hne. rewrite <- !slugify_spec in Es.
  destruct (@create_inr _ HP _ _ _ _ H1) as [t [ev1 [Et [Ec [_ [_ [Hs1 _]]]]]]].
  rewrite Et1 in Et. injection Et as Et; subst t. rewrite Es in Hs1.
  split.
  - intros c2 H2.
    destruct (@create_inr _ HP _ _ _ _ H2) as [t [ev2 [Et [_ [_ [_ [Hs2 Hfree]]]]]]].
    rewrite Et2 in Et. injection Et as Et; subst t.
    rewrite Hs2, <- Hs1 in Hfree.
    rewrite (slug_taken_in c1 (id' := id1)) in Hfree;
      [discriminate Hfree| |exact (not_eq_sym Hne)].
    subst c1. apply in_or_app. right. left. reflexivity.
  - intros c2 H2. subst c1. apply (@create_collides _ HP _ _ _ _ _ _ _ H2 Et2 Hs1 Hne).
Qed.

Lemma slug_unique_index_witness :
  exists c1,
    Event.create ref_platform [] 1
      (sample_input "My Cool Talk!!" "2025-01-13" "09:05") = inr c1
    /\ Event.create ref_platform c1 2
         (sample_input "my cool talk" "2025-02-01" "18:30")
       = inl (DuplicateKey (lit "slug_1")).
Proof.
  destruct (Event.create ref_platform [] 1
              (sample_input "My Cool Talk!!" "2025-01-13" "09:05"))
    as [e|c1] eqn:H1; [vm_compute in H1; discriminate H1|].
  exists c1. split; [reflexivity|].
  destruct (Event.create ref_platform [] 2
              (sample_input "my cool talk" "2025-02-01" "18:30"))
    as [e|c2] eqn:H2; [vm_compute in H2; discriminate H2|].
  refine (proj2 (@slug_unique_index ref_platform ref_platform_ok [] c1 1 2
                   (sample_input "My Cool Talk!!" "2025-01-13" "09:05")
                   (sample_input "my cool talk" "2025-02-01" "18:30")
                   _ _ H1 eq_refl eq_refl _ _) c2 H2).
  - vm_compute. reflexivity.
  - discriminate.
Defined.

(** ** Empty slugs *)

Lemma filter_none (f : codeunit -> bool) (s : jsstring) :
  (forall c, In c s -> f c = false) -> filter f s = [].
Proof.
  induction s as [|x s IH]; simpl; [reflexivity|].
  intros H. rewrite (H x) by auto. apply IH. intros c Hc. apply H. auto.
Qed.

(** A title with nothing but special characters once lowercased has the
    empty slug. *)
Lemma slugify_empty (P : Platform) (t : jsstring) :
  forallb (fun c => negb (Event.is_slug_char c)) (toLowerCase P t) = true ->
  Event.slugify P t = [].
Proof.
  intros H. rewrite forallb_forall in H. unfold Event.slugify, remove_outside.
  rewrite filter_none; [reflexivity|].
  intros c Hc. apply in_trim in Hc. apply negb_true_iff, H, Hc.
Qed.

(** Lowercasing leaves an ASCII string without word characters alone. *)
Lemma lower_special_ascii (P : Platform) (HP : PlatformOk P) (t : jsstring) :
  forallb is_ascii t = true ->
  forallb (fun c => negb (Event.is_slug_char c)) t = true ->
  toLowerCase P t = t.
Proof.
  intros Ha Hs. rewrite (lower_ascii HP) by exact Ha.
  rewrite <- (map_id t) at 2. apply map_ext_in. intros c Hc.
  rewrite forallb_forall in Hs. specialize (Hs c Hc).
  unfold ascii_lower. replace (is_upper c) with false; [reflexivity|].
  symmetry. apply not_true_is_false. intros U.
  apply negb_true_iff in Hs. unfold Event.is_slug_char, is_word in Hs.
  rewrite U in Hs. discriminate Hs.
Qed.

(** On every engine the title made of the Kelvin sign has the slug "k". *)
Lemma kelvin_slug (P : Platform) (HP : PlatformOk P) :
  Event.slugify P [kelvin_sign] = lit "k".
Proof. unfold Event.slugify. rewrite (lower_kelvin HP). reflexivity. Qed.

(** Against C10 as the specification states it: the Kelvin sign is no
    word character, white space or hyphen, and the title made of it has
    the slug "k". *)
Lemma kelvin_title_has_slug :
  ~ (forall P, PlatformOk P ->
     forall t, forallb (fun c => negb (Event.is_slug_char c)) t = true ->
               Event.slugify P t = []).
Proof.
  intros H.
  specialize (H ref_platform ref_platform_ok [kelvin_sign] eq_refl).
  rewrite (kelvin_slug ref_platform_ok) in H. discriminate H.
Qed.

(** C10, amended.  The slug is empty for every title whose lowercased form
    consists only of characters outside word characters, white space and
    hyphen, which is the case of every ASCII title made of such characters,
    "!!!" for one.  An Event with such a title can be persisted, with the
    empty slug, and once it is, the create of a second such Event never
    succeeds: it collides on the unique index [slug_1]. *)
Theorem empty_slug_persisted (P : Platform) (HP : PlatformOk P) :
  (forall t,
     forallb (fun c => negb (Event.is_slug_char c)) (toLowerCase P t) = true ->
     Event.slugify P t = [])
  /\ (forall t,
        forallb is_ascii t = true ->
        forallb (fun c => negb (Event.is_slug_char c)) t = true ->
        Event.slugify P t = [])
  /\ Event.slugify P (lit "!!!") = []
  /\ (exists c',
        Event.create P [] 1 (sample_input "!!!" "2025-01-13" "09:05") = inr c')
  /\ (forall c id i c' t,
        Event.in_title i = Some t -> Event.slugify P (trim t) = [] ->
        Event.create P c id i = inr c' ->
        (exists ev, Event.find c' id = Some ev
                    /\ Event.title ev = trim t /\ Event.slug ev = Some [])
        /\ forall id2 i2 t2,
             Event.in_title i2 = Some t2 -> Event.slugify P (trim t2) = [] ->
             id2 <> id ->
             (forall c2, Event.create P c' id2 i2 <> inr c2)
             /\ (forall c2, Event.create P c id2 i2 = inr c2 ->
                   Event.create P c' id2 i2 = inl (DuplicateKey (lit "slug_1")))).
Proof.
  assert (A : forall t,
             forallb is_ascii t = true ->
             forallb (fun c => negb (Event.is_slug_char c)) t = true ->
             Event.slugify P t = []).
  { intros t Ha Hs. apply slugify_empty.
    rewrite (lower_special_ascii HP t Ha Hs). exact Hs. }
  split; [apply slugify_empty|]. split; [exact A|].
  split; [apply A; reflexivity|].
  split.
  { apply (@create_succeeds P HP [] 1 (sample_input "!!!" "2025-01-13" "09:05")
             (lit "!!!") (lit "2025-01-13") (lit "09:05"));
      try reflexivity.
    unfold Date_parse.
    replace (parse_iso_date (trim (lit "2025-01-13")))
      with (Some 1736726400000%Z) by (vm_compute; reflexivity).
    discriminate. }
  intros c id i c' t Et Es H.
  destruct (@create_inr _ HP _ _ _ _ H) as [t' [ev [Et' [Ec [Hf [Htt [Hs Hfree]]]]]]].
  rewrite Et in Et'. injection Et' as Et'; subst t'. rewrite Es in Hs.
  split; [exists ev; auto|].
  intros id2 i2 t2 Et2 Es2 Hne. rewrite <- Es2 in Hs. split.
  - intros c2 H2.
    destruct (@create_inr _ HP _ _ _ _ H2) as [t' [ev2 [Et' [_ [_ [_ [Hs2 Hfree2]]]]]]].
    rewrite Et2 in Et'. injection Et' as Et'; subst t'.
    rewrite Hs2, <- Hs in Hfree2.
    rewrite (slug_taken_in c' (id' := id)) in Hfree2;
      [discriminate Hfree2| |exact (not_eq_sym Hne)].
    subst c'. apply in_or_app. right. left. reflexivity.
  - intros c2 H2. subst c'.
    apply (@create_collides _ HP _ _ _ _ _ _ _ H2 Et2 Hs Hne).
Qed.

Lemma empty_slug_persisted_witness :
  exists c',
    Event.create ref_platform [] 1 (sample_input "!!!" "2025-01-13" "09:05")
    = inr c'.
Proof.
  exact (proj1 (proj2 (proj2 (proj2 (empty_slug_persisted ref_platform_ok))))).
Defined.

(* ================================================================== *)
(** * Booking: the claims *)
(* ================================================================== *)

Section BookingSave.

Variable P : Platform.
Variable db : Booking.Database.
Variable d : Booking.Doc.

Let this : Booking.IBooking :=
  Booking.document (Booking.assign P (Booking.value_of (Booking.assigned d))).

Lemma booking_eventId (x : ObjectId) :
  Booking.in_eventId (Booking.assigned d) = Some x -> Booking.eventId this = x.
Proof.
  intros H. unfold this, Booking.assign, Booking.value_of. simpl.
  rewrite H. reflexivity.
Qed.

(** A save whose hook reports an error fails, with that error when the
    fields are valid, and writes nothing. *)
Lemma booking_hook_error (msg : jsstring) :
  Booking.pre_save db (Booking.isModified d) this = Some msg ->
  (exists e, Booking.save P db d = inl e)
  /\ (Booking.validation_errors
        (Booking.assign P (Booking.value_of (Booking.assigned d))) = [] ->
      Booking.save P db d = inl (HookError msg))
  /\ Booking.after db (Booking.save P db d) = db.
Proof.
  intros H. unfold Booking.save. fold this. rewrite H.
  destruct (Booking.validation_errors _) as [|e es].
  - repeat split; eauto.
  - repeat split; eauto. intros E. discriminate E.
Qed.

(** A save that goes through passed the hook. *)
Lemma booking_save_inr (db' : Booking.Database) :
  Booking.save P db d = inr db' ->
  Booking.validation_errors
    (Booking.assign P (Booking.value_of (Booking.assigned d))) = []
  /\ Booking.pre_save db (Booking.isModified d) this = None.
Proof.
  unfold Booking.save. fold this.
  destruct (Booking.validation_errors _); [|discriminate].
  destruct (Booking.pre_save _ _ _); [discriminate|]. auto.
Qed.

(** Valid fields name the Event. *)
Lemma booking_valid_eventId :
  Booking.validation_errors
    (Booking.assign P (Booking.value_of (Booking.assigned d))) = [] ->
  exists x, Booking.in_eventId (Booking.assigned d) = Some x.
Proof.
  unfold Booking.validation_errors, Booking.assign, Booking.value_of. simpl.
  destruct (Booking.in_eventId (Booking.assigned d)) as [x|]; [eauto|].
  simpl. discriminate.
Qed.

End BookingSave.

(** C1.  On every write of a Booking in which [eventId] is modified (every
    create, every update that sets or changes it): when the lookup of the
    referenced Event finds none, the hook reports "Event with ID ... does
    not exist", the write fails and no Booking is persisted; a write that
    goes through has found the referenced Event. *)
Theorem booking_requires_event (P : Platform) (db : Booking.Database) :
  (forall d x,
     Booking.in_eventId (Booking.assigned d) = Some x ->
     Booking.isModified d Booking.EventId = true ->
     Booking.Event_findById db x = Booking.Fulfilled None ->
     Booking.pre_save db (Booking.isModified d)
       (Booking.document
          (Booking.assign P (Booking.value_of (Booking.assigned d))))
     = Some (Booking.not_exist_error x)
     /\ (exists e, Booking.save P db d = inl e)
     /\ (Booking.validation_errors
           (Booking.assign P (Booking.value_of (Booking.assigned d))) = [] ->
         Booking.save P db d = inl (HookError (Booking.not_exist_error x)))
     /\ Booking.after db (Booking.save P db d) = db)
  /\ (forall id i x,
        Booking.in_eventId i = Some x ->
        Booking.Event_findById db x = Booking.Fulfilled None ->
        (exists e, Booking.create P db id i = inl e)
        /\ Booking.after db (Booking.create P db id i) = db)
  /\ (forall d db',
        Booking.save P db d = inr db' ->
        Booking.isModified d Booking.EventId = true ->
        exists x ev,
          Booking.in_eventId (Booking.assigned d) = Some x
          /\ Booking.Event_findById db x = Booking.Fulfilled (Some ev)).
Proof.
  assert (A : forall d x,
     Booking.in_eventId (Booking.assigned d) = Some x ->
     Booking.isModified d Booking.EventId = true ->
     Booking.Event_findById db x = Booking.Fulfilled None ->
     Booking.pre_save db (Booking.isModified d)
       (Booking.document
          (Booking.assign P (Booking.value_of (Booking.assigned d))))
     = Some (Booking.not_exist_error x)).
  { intros d x Hx Hm Hf. unfold Booking.pre_save.
    rewrite Hm, (booking_eventId P d Hx), Hf. reflexivity. }
  split.
  { intros d x Hx Hm Hf. split; [apply A; assumption|].
    apply booking_hook_error, A; assumption. }
  split.
  { intros id i x Hx Hf. unfold Booking.create.
    destruct (booking_hook_error P db
                {| Booking._id := id; Booking.isNew := true;
                   Booking.assigned := i; Booking.isModified := Booking.given i |}
                (msg := Booking.not_exist_error x)) as [He [_ Ha]].
    - apply A; [exact Hx | | exact Hf].
      unfold Booking.given, Booking.value_of. simpl. rewrite Hx. reflexivity.
    - auto. }
  intros d db' H Hm.
  destruct (booking_save_inr _ _ _ H) as [Hv Hh].
  destruct (booking_valid_eventId P d Hv) as [x Hx].
  exists x. unfold Booking.pre_save in Hh.
  rewrite Hm, (booking_eventId P d Hx) in Hh.
  destruct (Booking.Event_findById db x) as [[ev|]|e]; try discriminate Hh.
  exists ev. auto.
Qed.

(** C6.  When the lookup of the referenced Event itself fails, the hook
    wraps the failure ("Error validating event: ..."), the write fails with
    it and no Booking is persisted: a failed check never lets the write
    through. *)
Theorem booking_check_fails_closed (P : Platform) (db : Booking.Database)
    (d : Booking.Doc) (x : ObjectId) (e : thrown) :
  Booking.in_eventId (Booking.assigned d) = Some x ->
  Booking.isModified d Booking.EventId = true ->
  Booking.Event_findById db x = Booking.Rejected e ->
  Booking.pre_save db (Booking.isModified d)
    (Booking.document (Booking.assign P (Booking.value_of (Booking.assigned d))))
  = Some (Booking.check_error e)
  /\ (forall m, e = ErrorObj m ->
        Booking.check_error e = lit "Error validating event: " ++ m)
  /\ (forall db', Booking.save P db d <> inr db')
  /\ (Booking.validation_errors
        (Booking.assign P (Booking.value_of (Booking.assigned d))) = [] ->
      Booking.save P db d = inl (HookError (Booking.check_error e)))
  /\ Booking.after db (Booking.save P db d) = db.
Proof.
  intros Hx Hm Hf.
  assert (A : Booking.pre_save db (Booking.isModified d)
                (Booking.document
                   (Booking.assign P (Booking.value_of (Booking.assigned d))))
              = Some (Booking.check_error e)).
  { unfold Booking.pre_save. rewrite Hm, (booking_eventId P d Hx), Hf.
    reflexivity. }
  destruct (booking_hook_error P db d A) as [[err He] [Hv Ha]].
  split; [exact A|].
  split; [intros m0 E; subst e; reflexivity|].
  split; [intros db' H; congruence|].
  split; assumption.
Qed.

Lemma booking_requires_event_witness :
  Booking.create ref_platform empty_db 1 (sample_booking 7)
  = inl (HookError (lit "Event with ID 000000000000000000000007 does not exist")).
Proof.
  exact (proj1 (proj2 (proj2
           (proj1 (booking_requires_event ref_platform empty_db)
              {| Booking._id := 1; Booking.isNew := true;
                 Booking.assigned := sample_booking 7;
                 Booking.isModified := Booking.given (sample_booking 7) |}
              7 eq_refl eq_refl eq_refl))) eq_refl).
Defined.

Lemma booking_check_fails_closed_witness :
  Booking.create ref_platform offline_db 1 (sample_booking 7)
  = inl (HookError (lit "Error validating event: connection lost")).
Proof.
  exact (proj1 (proj2 (proj2 (proj2
           (@booking_check_fails_closed ref_platform offline_db
              {| Booking._id := 1; Booking.isNew := true;
                 Booking.assigned := sample_booking 7;
                 Booking.isModified := Booking.given (sample_booking 7) |}
              7 (ErrorObj (lit "connection lost")) eq_refl eq_refl eq_refl))))
           eq_refl).
Defined.

(* ================================================================== *)
(** * The cached connection *)
(* ================================================================== *)

Import MongoDB.
Local Open Scope nat_scope.

(** ** Promise states *)

Lemma state_of_start (s : State) (p : PromiseId) :
  state_of (start_attempt s) p = state_of s p.
Proof.
  unfold state_of, start_attempt. simpl.
  destruct (Nat.lt_ge_cases p (length (promises s))) as [H|H].
  - apply app_nth1, H.
  - rewrite app_nth2 by exact H. rewrite (nth_overflow (promises s)) by exact H.
    destruct (p - length (promises s)) as [|[|n]]; reflexivity.
Qed.

Lemma nth_set_nth_same (l : list promise_state) (p : nat) (v : promise_state) :
  nth_error l p = Some Pending -> nth p (set_nth p v l) Pending = v.
Proof.
  revert p. induction l as [|x l IH]; intros [|p]; simpl; try discriminate.
  - reflexivity.
  - apply IH.
Qed.

Lemma nth_set_nth_other (l : list promise_state) (p q : nat)
    (v : promise_state) :
  q <> p -> nth q (set_nth p v l) Pending = nth q l Pending.
Proof.
  revert p q. induction l as [|x l IH]; intros [|p] [|q] H; simpl;
    try reflexivity; try congruence.
  apply IH. congruence.
Qed.

Lemma is_pending_state (s : State) (p : PromiseId) :
  is_pending s p = true ->
  nth_error (promises s) p = Some Pending /\ state_of s p = Pending.
Proof.
  unfold is_pending, state_of.
  destruct (nth_error (promises s) p) as [[| |]|] eqn:E; try discriminate.
  intros _. split; [reflexivity|].
  apply nth_error_nth with (d := Pending) in E. exact E.
Qed.

(** Only the promise that settles changes its state. *)
Lemma state_of_settle (s : State) (p q : PromiseId) (v : promise_state) :
  is_pending s p = true ->
  state_of (settle p v s) q = if Nat.eqb q p then v else state_of s q.
Proof.
  intros H. apply is_pending_state in H. destruct H as [H _].
  unfold state_of, settle. simpl.
  destruct (Nat.eqb_spec q p) as [E|E].
  - subst q. apply nth_set_nth_same, H.
  - apply nth_set_nth_other, E.
Qed.

(** ** What one call and one continuation do *)

(** With a cached connection, [connectDB] returns it and touches nothing
    else. *)
Lemma connectDB_cached (k : Caller) (s : State) (c : Connection) :
  conn (cached s) = Some c -> connectDB k s = finish k (Returned c) s.
Proof. intros H. unfold connectDB. rewrite H. reflexivity. Qed.

(** With an attempt in the cache, [connectDB] starts none and awaits that
    one. *)
Lemma connectDB_joins (k : Caller) (s : State) (p : PromiseId) :
  conn (cached s) = None -> promise (cached s) = Some p ->
  connectDB k s = await k p s.
Proof.
  intros Hc Hp. unfold connectDB. rewrite Hc, Hp. cbv zeta. rewrite Hp.
  reflexivity.
Qed.

(** With an empty cache, [connectDB] starts an attempt, stores it in the
    cache and awaits it. *)
Lemma connectDB_fresh (k : Caller) (s : State) :
  conn (cached s) = None -> promise (cached s) = None ->
  connectDB k s
  = {| cached := {| conn := None; promise := Some (length (promises s)) |};
       promises := promises s ++ [Pending];
       waiting := waiting s ++ [(length (promises s), k)];
       queue := queue s; results := results s |}.
Proof.
  intros Hc Hp. unfold connectDB. rewrite Hc, Hp. simpl.
  unfold await. rewrite state_of_start.
  unfold state_of. rewrite nth_overflow by apply Nat.le_refl.
  simpl. rewrite Hc. reflexivity.
Qed.

(** The continuation of a caller whose attempt failed resets the promise,
    leaves the connection alone and rethrows. *)
Lemma resume_failed (k : Caller) (p : PromiseId) (s : State) (e : thrown) :
  state_of s p = Failed e ->
  resume k p s
  = {| cached := {| conn := conn (cached s); promise := None |};
       promises := promises s; waiting := waiting s; queue := queue s;
       results := results s ++ [(k, Threw e)] |}.
Proof. intros H. unfold resume. rewrite H. reflexivity. Qed.

(** The continuation of a caller whose attempt succeeded caches the
    connection and returns it. *)
Lemma resume_resolved (k : Caller) (p : PromiseId) (s : State)
    (c : Connection) :
  state_of s p = Resolved c ->
  resume k p s
  = {| cached := {| conn := Some c; promise := promise (cached s) |};
       promises := promises s; waiting := waiting s; queue := queue s;
       results := results s ++ [(k, Returned c)] |}.
Proof. intros H. unfold resume. rewrite H. reflexivity. Qed.


(** ** Invariants of the cache *)

Lemma cache_inv_init : cache_inv init.
Proof. split; intros x H; discriminate H. Qed.

(** Both invariants survive when the cache and the promise states stay and
    the waiting list and the queue only grow. *)
Lemma cache_inv_mono (s s' : State) :
  cached s' = cached s -> promises s' = promises s ->
  incl (waiting s) (waiting s') -> incl (queue s) (queue s') ->
  cache_inv s -> cache_inv s'.
Proof.
  intros Ec Ep Hw Hq [H1 H2]. split.
  - intros c Hc. rewrite Ec in Hc. destruct (H1 c Hc) as [p Hp].
    exists p. unfold state_of in *. rewrite Ep. exact Hp.
  - intros p Hp. rewrite Ec in Hp. specialize (H2 p Hp).
    unfold state_of in *. rewrite Ep.
    destruct (nth p (promises s) Pending); [|exact I|];
      destruct H2 as [k Hk]; exists k; auto.
Qed.

Lemma connectDB_inv (k : Caller) (s : State) :
  cache_inv s -> cache_inv (connectDB k s).
Proof.
  intros H.
  destruct (conn (cached s)) as [c|] eqn:Hc.
  - rewrite (connectDB_cached k s Hc).
    apply (@cache_inv_mono s); simpl; auto using incl_refl.
  - destruct (promise (cached s)) as [p|] eqn:Hp.
    + rewrite (connectDB_joins k s Hc Hp). unfold await.
      destruct (state_of s p);
        apply (@cache_inv_mono s); simpl;
        auto using incl_refl, incl_appl.
    + rewrite (connectDB_fresh k s Hc Hp). split.
      * intros c E. discriminate E.
      * intros p E. simpl in E. injection E as E. subst p.
        unfold state_of. simpl.
        rewrite app_nth2, Nat.sub_diag by apply Nat.le_refl. simpl.
        exists k. apply in_or_app. right. left. reflexivity.
Qed.

Lemma settle_inv (p : PromiseId) (v : promise_state) (s : State) :
  is_pending s p = true -> v <> Pending ->
  cache_inv s -> cache_inv (settle p v s).
Proof.
  intros Hp Hv [H1 H2].
  destruct (is_pending_state s p Hp) as [_ Hs]. split.
  - intros c Hc. simpl in Hc. destruct (H1 c Hc) as [q Hq].
    exists q. rewrite (@state_of_settle s p q v Hp).
    destruct (Nat.eqb_spec q p) as [E|E]; [|exact Hq].
    subst q. congruence.
  - intros q Hq. simpl in Hq. specialize (H2 q Hq).
    rewrite (@state_of_settle s p q v Hp).
    destruct (Nat.eqb_spec q p) as [E|E].
    + subst q. rewrite Hs in H2. destruct H2 as [k Hk].
      destruct v as [|c|e]; [congruence | exact I|].
      exists k. simpl. apply in_or_app. right.
      apply in_map_iff. exists (p, k). split; [reflexivity|].
      apply filter_In. split; [exact Hk|]. simpl. apply Nat.eqb_refl.
    + destruct (state_of s q); [|exact I|]; destruct H2 as [k Hk]; exists k; simpl.
      * apply filter_In. split; [exact Hk|]. simpl.
        apply negb_true_iff, Nat.eqb_neq, E.
      * apply in_or_app. left. exact Hk.
Qed.

(** Running the job at the head of the queue. *)
Lemma run_job_inv (s : State) (j : job) (q : list job) :
  queue s = j :: q -> cache_inv s ->
  cache_inv
    (let s' := {| cached := cached s; promises := promises s;
                  waiting := waiting s; queue := q; results := results s |} in
     match j with
     | Invoke k => connectDB k s'
     | Resume k p => resume k p s'
     end).
Proof.
  intros Eq [H1 H2]. cbv zeta.
  set (s' := {| cached := cached s; promises := promises s;
                waiting := waiting s; queue := q; results := results s |}).
  assert (St : forall x, state_of s' x = state_of s x) by reflexivity.
  assert (Hcr : conn_resolved s').
  { intros c Hc. destruct (H1 c Hc) as [p Hp]. exists p. rewrite St. exact Hp. }
  destruct j as [k|k p].
  - apply connectDB_inv. split; [exact Hcr|].
    intros p Hp. specialize (H2 p Hp). rewrite St.
    destruct (state_of s p); auto.
    destruct H2 as [k' Hk]. rewrite Eq in Hk.
    destruct Hk as [Hk|Hk]; [discriminate Hk|]. exists k'. exact Hk.
  - destruct (state_of s p) as [|c|e] eqn:Sp.
    + unfold resume. rewrite St, Sp. split; [exact Hcr|].
      intros p' Hp'. specialize (H2 p' Hp'). rewrite St.
      destruct (state_of s p') eqn:Sp'; auto.
      destruct H2 as [k' Hk]. rewrite Eq in Hk.
      destruct Hk as [Hk|Hk]; [|exists k'; exact Hk].
      injection Hk as _ E. subst p'. congruence.
    + rewrite (@resume_resolved k p s' c) by (rewrite St; exact Sp). split.
      * intros c' Hc'. simpl in Hc'. injection Hc' as Hc'. subst c'.
        exists p. exact Sp.
      * intros p' Hp'. simpl in Hp'. specialize (H2 p' Hp').
        change (match state_of s p' with
                | Pending => exists k0, In (p', k0) (waiting s)
                | Resolved _ => True
                | Failed _ => exists k0, In (Resume k0 p') q
                end).
        destruct (state_of s p') eqn:Sp'; auto.
        destruct H2 as [k' Hk]. rewrite Eq in Hk.
        destruct Hk as [Hk|Hk]; [|exists k'; exact Hk].
        injection Hk as _ E. subst p'. congruence.
    + rewrite (@resume_failed k p s' e) by (rewrite St; exact Sp). split.
      * intros c' Hc'. simpl in Hc'. destruct (H1 c' Hc') as [p' Hp'].
        exists p'. exact Hp'.
      * intros p' Hp'. discriminate Hp'.
Qed.

Lemma step_inv (ev : event) (s s' : State) :
  step ev s = Some s' -> cache_inv s -> cache_inv s'.
Proof.
  destruct ev as [k|k|p c|p e|]; simpl.
  - intros E H. injection E as E. subst s'. apply connectDB_inv, H.
  - intros E H. injection E as E. subst s'.
    apply (@cache_inv_mono s); simpl; auto using incl_refl, incl_appl.
  - destruct (is_pending s p) eqn:Hp; [|discriminate].
    intros E H. injection E as E. subst s'.
    apply settle_inv; [exact Hp | discriminate | exact H].
  - destruct (is_pending s p) eqn:Hp; [|discriminate].
    intros E H. injection E as E. subst s'.
    apply settle_inv; [exact Hp | discriminate | exact H].
  - destruct (queue s) as [|j q] eqn:Eq; [discriminate|].
    intros E H. injection E as E. subst s'.
    apply (run_job_inv Eq H).
Qed.



(** ** Executions in which no attempt fails *)

Lemma single_attempt_same (s s' : State) :
  cached s' = cached s -> promises s' = promises s ->
  single_attempt s -> single_attempt s'.
Proof. unfold single_attempt. intros Ec Ep. rewrite Ec, Ep. auto. Qed.

Lemma connectDB_single (k : Caller) (s : State) :
  single_attempt s -> single_attempt (connectDB k s).
Proof.
  intros [[Hp [Hc Hs]]|[st [Hp [Hs Hf]]]].
  - rewrite (connectDB_fresh k s Hc Hs). right. exists Pending. simpl.
    rewrite Hp. repeat split; try reflexivity. discriminate.
  - assert (S2 : single_attempt s) by (right; eauto).
    destruct (conn (cached s)) as [c|] eqn:Hc.
    + rewrite (connectDB_cached k s Hc).
      apply (@single_attempt_same s); auto.
    + rewrite (connectDB_joins k s Hc Hs). unfold await.
      destruct (state_of s 0); apply (@single_attempt_same s); auto.
Qed.

Lemma resume_single (k : Caller) (p : PromiseId) (s : State) :
  single_attempt s -> single_attempt (resume k p s).
Proof.
  intros H. unfold resume.
  destruct (state_of s p) as [|c|e] eqn:Sp; [exact H| |].
  - destruct H as [[Hp _]|[st [Hp [Hs Hf]]]].
    + unfold state_of in Sp. rewrite Hp in Sp. destruct p; discriminate Sp.
    + right. exists st. simpl. auto.
  - exfalso. destruct H as [[Hp _]|[st [Hp [Hs Hf]]]];
      unfold state_of in Sp; rewrite Hp in Sp.
    + destruct p; discriminate Sp.
    + destruct p as [|[|p]]; try discriminate Sp. apply (Hf e Sp).
Qed.

Lemma step_single (ev : event) (s s' : State) :
  (match ev with ConnectFailed _ _ => false | _ => true end) = true ->
  step ev s = Some s' -> single_attempt s -> single_attempt s'.
Proof.
  destruct ev as [k|k|p c|p e|]; simpl; intros Hev E H; try discriminate Hev.
  - injection E as E. subst s'. apply connectDB_single, H.
  - injection E as E. subst s'. apply (@single_attempt_same s); auto.
  - destruct (is_pending s p) eqn:Hp; [|discriminate].
    injection E as E. subst s'.
    destruct (is_pending_state s p Hp) as [Hn _].
    destruct H as [[Hl _]|[st [Hl [Hs Hf]]]]; rewrite Hl in Hn.
    + destruct p; discriminate Hn.
    + destruct p as [|[|p]]; try discriminate Hn.
      right. exists (Resolved c). simpl. rewrite Hl. simpl.
      repeat split; [exact Hs | discriminate].
  - destruct (queue s) as [|j q]; [discriminate|].
    injection E as E. subst s'.
    destruct j as [k|k p];
      [apply connectDB_single | apply resume_single];
      apply (@single_attempt_same s); auto.
Qed.

(** As long as no attempt fails, [mongoose.connect] is called at most
    once, whatever the callers do. *)
Lemma one_attempt_without_failure (evs : list event) (s : State) :
  no_failure evs = true -> run evs init = Some s -> attempts s <= 1.
Proof.
  intros Hn Hr.
  assert (G : forall evs s0 s1, no_failure evs = true -> run evs s0 = Some s1 ->
                                single_attempt s0 -> single_attempt s1).
  { clear. induction evs as [|ev evs IH]; simpl; intros s0 s1 Hn Hr H.
    - injection Hr as Hr. subst s1. exact H.
    - apply andb_true_iff in Hn. destruct Hn as [Hev Hn].
      destruct (step ev s0) as [s2|] eqn:E; [|discriminate].
      apply (IH s2 s1 Hn Hr), (step_single _ Hev E H). }
  assert (I0 : single_attempt init) by (left; auto).
  destruct (G evs init s Hn Hr I0) as [[Hp _]|[st [Hp _]]];
    unfold attempts; rewrite Hp; simpl; lia.
Qed.

(** Two first calls before the connection is there: one attempt, and both
    callers are handed its connection. *)
Lemma first_calls_share (k1 k2 : Caller) (c : Connection) :
  run [Call k1; Call k2; Connected 0 c; RunJob; RunJob] init
  = Some {| cached := {| conn := Some c; promise := Some 0 |};
            promises := [Resolved c]; waiting := []; queue := [];
            results := [(k1, Returned c); (k2, Returned c)] |}.
Proof. reflexivity. Qed.

(** ** The claims *)

(** C2, on the execution on which it fails.  Caller 1 starts attempt 0; a
    job that will call [connectDB] (caller 2) is queued; attempt 0 fails,
    which queues the continuation of caller 1; another such job (caller 3)
    is queued.  The jobs run in order: caller 2 finds the failed promise in
    the cache and awaits it; caller 1 resets the cache and rethrows;
    caller 3 finds the cache empty and starts attempt 1; the continuation
    of caller 2 resets the cache again, dropping attempt 1 from it.
    Caller 4 then finds the cache empty while attempt 1 is pending and
    starts attempt 2: two attempts are in flight. *)
Theorem connectDB_two_attempts_in_flight (e : thrown) :
  exists s,
    run [Call 1; Schedule 2; ConnectFailed 0 e; Schedule 3;
         RunJob; RunJob; RunJob; RunJob; Call 4] init = Some s
    /\ promises s = [Failed e; Pending; Pending]
    /\ in_flight s = 2
    /\ attempts s = 3
    /\ cached s = {| conn := None; promise := Some 2 |}
    /\ waiting s = [(1, 3); (2, 4)]
    /\ results s = [(1, Threw e); (2, Threw e)].
Proof. eexists. split; [reflexivity|]. repeat split. Qed.




Lemma run_reachable (evs : list event) (s s' : State) :
  reachable s -> run evs s = Some s' -> reachable s'.
Proof.
  intros [evs0 H0] H. exists (evs0 ++ evs).
  revert H0. generalize init. induction evs0 as [|ev evs0 IH]; simpl; intros s0 H0.
  - injection H0 as H0. subst s0. exact H.
  - destruct (step ev s0); [apply IH, H0 | discriminate].
Qed.





(** ** A failed attempt *)




(* ================================================================== *)
(** * The cached connection: further properties *)
(* ================================================================== *)

Import Props.

Unset Implicit Arguments.

Lemma length_set_nth (l : list promise_state) (p : nat) (v : promise_state) :
  length (set_nth p v l) = length l.
Proof.
  revert p. induction l as [|x l IH]; intros [|p]; simpl; auto.
Qed.

(** One event leaves a cached connection in place and starts no attempt. *)
Lemma step_connected (ev : event) (s s' : State) :
  step ev s = Some s' -> conn (cached s) <> None ->
  conn (cached s') <> None /\ attempts s' = attempts s.
Proof.
  unfold attempts. intros E H.
  destruct (conn (cached s)) as [c|] eqn:Hc; [clear H|congruence].
  destruct ev as [k|k|p c'|p e|]; simpl in E.
  - injection E as E. subst s'. rewrite (connectDB_cached k s Hc). simpl.
    rewrite Hc. split; [discriminate | reflexivity].
  - injection E as E. subst s'. simpl. rewrite Hc.
    split; [discriminate | reflexivity].
  - destruct (is_pending s p); [|discriminate]. injection E as E. subst s'.
    simpl. rewrite Hc, length_set_nth. split; [discriminate | reflexivity].
  - destruct (is_pending s p); [|discriminate]. injection E as E. subst s'.
    simpl. rewrite Hc, length_set_nth. split; [discriminate | reflexivity].
  - destruct (queue s) as [|j q]; [discriminate|]. injection E as E. subst s'.
    destruct j as [k|k p].
    + rewrite (@connectDB_cached k _ c) by exact Hc. simpl. rewrite Hc.
      split; [discriminate | reflexivity].
    + unfold resume, state_of. simpl.
      destruct (nth p (promises s) Pending); simpl; rewrite ?Hc;
        split; try discriminate; reflexivity.
Qed.

(** X1.  Once a connection is cached, whatever happens next the cache keeps
    holding a connection, [mongoose.connect] is never called again, and
    every call is answered at once with the cached connection. *)
Theorem once_connected_no_new_attempt (evs : list event) (s s' : State)
    (c : Connection) :
  conn (cached s) = Some c -> run evs s = Some s' ->
  attempts s' = attempts s
  /\ exists c', conn (cached s') = Some c'
                /\ forall k, connectDB k s' = finish k (Returned c') s'.
Proof.
  intros Hc Hr.
  assert (G : forall evs s s', run evs s = Some s' -> conn (cached s) <> None ->
                               conn (cached s') <> None
                               /\ attempts s' = attempts s).
  { clear. induction evs as [|ev evs IH]; simpl; intros s s' Hr H.
    - injection Hr as Hr. subst s'. auto.
    - destruct (step ev s) as [s1|] eqn:E; [|discriminate].
      destruct (step_connected ev s s1 E H) as [H1 A1].
      destruct (IH s1 s' Hr H1) as [H2 A2]. split; [exact H2 | congruence]. }
  destruct (G evs s s' Hr) as [H A]; [congruence|].
  split; [exact A|].
  destruct (conn (cached s')) as [c'|] eqn:Hc'; [|congruence].
  exists c'. split; [reflexivity|]. intros k. apply connectDB_cached, Hc'.
Qed.

Lemma once_connected_no_new_attempt_witness :
  exists s',
    run [Call 2; Schedule 3; RunJob; Call 4] connected_state = Some s'
    /\ attempts s' = 1.
Proof.
  destruct (run [Call 2; Schedule 3; RunJob; Call 4] connected_state)
    as [s'|] eqn:E; [|vm_compute in E; discriminate E].
  exists s'. split; [reflexivity|].
  exact (proj1 (once_connected_no_new_attempt
                  [Call 2; Schedule 3; RunJob; Call 4] connected_state s' 7%N
                  eq_refl E)).
Defined.

(** ** Outcomes come from attempts *)

Lemma state_of_connectDB (k : Caller) (s : State) (p : PromiseId) :
  state_of (connectDB k s) p = state_of s p.
Proof.
  destruct (conn (cached s)) as [c|] eqn:Hc.
  - rewrite (connectDB_cached k s Hc). reflexivity.
  - destruct (promise (cached s)) as [q|] eqn:Hp.
    + rewrite (connectDB_joins k s Hc Hp). unfold await.
      destruct (state_of s q); reflexivity.
    + rewrite (connectDB_fresh k s Hc Hp).
      change (state_of (start_attempt s) p = state_of s p).
      apply state_of_start.
Qed.

Lemma state_of_resume (k : Caller) (q : PromiseId) (s : State) (p : PromiseId) :
  state_of (resume k q s) p = state_of s p.
Proof. unfold resume. destruct (state_of s q); reflexivity. Qed.

(** A promise that has settled keeps its state. *)
Lemma step_settled_stable (ev : event) (s s' : State) (p : PromiseId) :
  step ev s = Some s' -> state_of s p <> Pending ->
  state_of s' p = state_of s p.
Proof.
  intros E H. destruct ev as [k|k|q c|q e|]; simpl in E.
  - injection E as E. subst s'. apply state_of_connectDB.
  - injection E as E. subst s'. reflexivity.
  - destruct (is_pending s q) eqn:Hq; [|discriminate].
    injection E as E. subst s'. rewrite (@state_of_settle s q p _ Hq).
    destruct (Nat.eqb_spec p q) as [Epq|_]; [|reflexivity].
    subst q. destruct (is_pending_state s p Hq) as [_ Hs]. congruence.
  - destruct (is_pending s q) eqn:Hq; [|discriminate].
    injection E as E. subst s'. rewrite (@state_of_settle s q p _ Hq).
    destruct (Nat.eqb_spec p q) as [Epq|_]; [|reflexivity].
    subst q. destruct (is_pending_state s p Hq) as [_ Hs]. congruence.
  - destruct (queue s) as [|j q]; [discriminate|].
    injection E as E. subst s'. destruct j as [k|k r].
    + rewrite state_of_connectDB. reflexivity.
    + rewrite state_of_resume. reflexivity.
Qed.

Lemma results_connectDB (k : Caller) (s : State) (k' : Caller) (o : outcome) :
  In (k', o) (results (connectDB k s)) ->
  In (k', o) (results s)
  \/ exists c, o = Returned c /\ conn (cached s) = Some c.
Proof.
  destruct (conn (cached s)) as [c|] eqn:Hc.
  - rewrite (connectDB_cached k s Hc). simpl. rewrite in_app_iff.
    intros [H|[H|[]]]; [left; exact H|].
    injection H as _ H. right. exists c. auto.
  - destruct (promise (cached s)) as [q|] eqn:Hp.
    + rewrite (connectDB_joins k s Hc Hp). unfold await.
      destruct (state_of s q); simpl; auto.
    + rewrite (connectDB_fresh k s Hc Hp). simpl. auto.
Qed.

Lemma results_resume (k : Caller) (p : PromiseId) (s : State) (k' : Caller)
    (o : outcome) :
  In (k', o) (results (resume k p s)) ->
  In (k', o) (results s)
  \/ (exists c, o = Returned c /\ state_of s p = Resolved c)
  \/ (exists e, o = Threw e /\ state_of s p = Failed e).
Proof.
  unfold resume. destruct (state_of s p) as [|c|e] eqn:Sp; simpl; auto;
    rewrite in_app_iff; intros [H|[H|[]]]; auto; injection H as _ H; right.
  - left. exists c. auto.
  - right. exists e. auto.
Qed.

Lemma grounded_step (ev : event) (s s' : State) :
  step ev s = Some s' -> cache_inv s -> outcomes_grounded s ->
  outcomes_grounded s'.
Proof.
  intros E [Hc _] G k o Hin.
  assert (Old : match o with
                | Returned c => exists p, state_of s p = Resolved c
                | Threw e => exists p, state_of s p = Failed e
                end).
  { destruct ev as [k0|k0|q c|q e|]; simpl in E.
    - injection E as E. subst s'.
      destruct (results_connectDB k0 s k o Hin) as [H|[c [Eo Hcc]]];
        [apply (G k o H)|]. subst o. apply Hc, Hcc.
    - injection E as E. subst s'. apply (G k o Hin).
    - destruct (is_pending s q); [|discriminate]. injection E as E. subst s'.
      apply (G k o Hin).
    - destruct (is_pending s q); [|discriminate]. injection E as E. subst s'.
      apply (G k o Hin).
    - destruct (queue s) as [|j q]; [discriminate|].
      injection E as E. subst s'. destruct j as [k0|k0 r].
      + destruct (results_connectDB k0 _ k o Hin) as [H|[c [Eo Hcc]]];
          [apply (G k o H)|]. subst o. apply Hc, Hcc.
      + destruct (results_resume k0 r _ k o Hin)
          as [H|[[c [Eo Hs]]|[e [Eo Hs]]]];
          [apply (G k o H) | subst o; exists r; exact Hs
           | subst o; exists r; exact Hs]. }
  destruct o as [c|e]; destruct Old as [p Hp]; exists p;
    rewrite (step_settled_stable ev s s' p E); congruence.
Qed.

(** X2.  Whatever the callers and the attempts do, a connection [connectDB]
    returns is the connection of an attempt that succeeded, and an error it
    throws is the error of an attempt that failed. *)
Theorem outcomes_come_from_attempts (s : State) :
  reachable s ->
  forall k o,
    In (k, o) (results s) ->
    match o with
    | Returned c => exists p, state_of s p = Resolved c
    | Threw e => exists p, state_of s p = Failed e
    end.
Proof.
  intros [evs Hr].
  assert (G : forall evs s0 s1, run evs s0 = Some s1 ->
                cache_inv s0 -> outcomes_grounded s0 ->
                cache_inv s1 /\ outcomes_grounded s1).
  { clear. induction evs as [|ev evs IH]; simpl; intros s0 s1 Hr Hc Hg.
    - injection Hr as Hr. subst s1. auto.
    - destruct (step ev s0) as [s2|] eqn:E; [|discriminate].
      apply (IH s2 s1 Hr).
      + apply (@step_inv ev s0 s2 E Hc).
      + apply (grounded_step ev s0 s2 E Hc Hg). }
  apply (G evs init s Hr cache_inv_init). intros k o [].
Qed.

Lemma outcomes_come_from_attempts_witness :
  exists p, state_of connected_state p = Resolved 7%N.
Proof.
  refine (outcomes_come_from_attempts connected_state _ 1 (Returned 7%N) _).
  - exists [Call 1; Connected 0 7%N; RunJob]. reflexivity.
  - left. reflexivity.
Defined.

(** ** Executions without a failure *)

Lemma one_connection_same (s s' : State) :
  cached s' = cached s -> promises s' = promises s -> results s' = results s ->
  one_connection s -> one_connection s'.
Proof.
  unfold one_connection, single_attempt. intros Ec Ep Er.
  rewrite Ec, Ep, Er. auto.
Qed.

Lemma connectDB_one (k : Caller) (s : State) :
  one_connection s -> one_connection (connectDB k s).
Proof.
  intros [H1 [H2 H3]].
  assert (S1 : single_attempt (connectDB k s)) by apply connectDB_single, H1.
  destruct (conn (cached s)) as [c|] eqn:Hc.
  - rewrite (connectDB_cached k s Hc) in *. split; [exact S1|]. split.
    + intros c' Hc'. apply H2. simpl in Hc'. congruence.
    + intros k' o Hin. simpl in Hin. apply in_app_iff in Hin.
      destruct Hin as [Hin|[Hin|[]]]; [apply (H3 k' o Hin)|].
      injection Hin as _ Hin. subst o. exists c. split; [reflexivity|].
      apply (H2 c eq_refl).
  - destruct (promise (cached s)) as [q|] eqn:Hp.
    + rewrite (connectDB_joins k s Hc Hp) in *. unfold await in *.
      destruct (state_of s q);
        (split; [exact S1|]); simpl; rewrite Hc; split; auto; discriminate.
    + rewrite (connectDB_fresh k s Hc Hp) in *. split; [exact S1|]. split.
      * intros c' Hc'. discriminate Hc'.
      * intros k' o Hin. simpl in Hin. exfalso.
        destruct (H3 k' o Hin) as [c [_ Epr]].
        destruct H1 as [[E0 _]|[st [_ [E1 _]]]]; congruence.
Qed.

Lemma resume_one (k : Caller) (p : PromiseId) (s : State) :
  one_connection s -> one_connection (resume k p s).
Proof.
  intros [H1 [H2 H3]].
  assert (S1 : single_attempt (resume k p s)) by apply resume_single, H1.
  split; [exact S1|]. revert S1. unfold resume.
  destruct (state_of s p) as [|c|e] eqn:Sp; intros S1.
  - auto.
  - assert (Epr : promises s = [Resolved c]).
    { destruct H1 as [[E0 _]|[st [E1 _]]]; unfold state_of in Sp.
      - rewrite E0 in Sp. destruct p; discriminate Sp.
      - rewrite E1 in Sp. destruct p as [|[|p]]; try discriminate Sp.
        simpl in Sp. congruence. }
    simpl. split.
    + intros c' Hc'. injection Hc' as Hc'. subst c'. exact Epr.
    + intros k' o Hin. apply in_app_iff in Hin.
      destruct Hin as [Hin|[Hin|[]]]; [apply (H3 k' o Hin)|].
      injection Hin as _ Hin. subst o. exists c. auto.
  - exfalso. destruct H1 as [[E0 _]|[st [E1 [_ Hf]]]]; unfold state_of in Sp.
    + rewrite E0 in Sp. destruct p; discriminate Sp.
    + rewrite E1 in Sp. destruct p as [|[|p]]; try discriminate Sp.
      apply (Hf e Sp).
Qed.

Lemma step_one (ev : event) (s s' : State) :
  (match ev with ConnectFailed _ _ => false | _ => true end) = true ->
  step ev s = Some s' -> one_connection s -> one_connection s'.
Proof.
  destruct ev as [k|k|p c|p e|]; simpl; intros Hev E H; try discriminate Hev.
  - injection E as E. subst s'. apply connectDB_one, H.
  - injection E as E. subst s'. apply (one_connection_same s); auto.
  - destruct (is_pending s p) eqn:Hp; [|discriminate].
    injection E as E. subst s'.
    assert (S1 : single_attempt (settle p (Resolved c) s)).
    { apply (@step_single (Connected p c) s); [reflexivity| |apply H].
      simpl. rewrite Hp. reflexivity. }
    destruct (is_pending_state s p Hp) as [Hn _].
    destruct H as [H1 [H2 H3]].
    assert (Epr : promises s = [Pending] /\ p = 0).
    { destruct H1 as [[E0 _]|[st [E1 _]]].
      - rewrite E0 in Hn. destruct p; discriminate Hn.
      - rewrite E1 in Hn. destruct p as [|[|p]]; try discriminate Hn.
        simpl in Hn. split; congruence. }
    destruct Epr as [Epr Ep0]. split; [exact S1|]. split.
    + intros c' Hc'. simpl in Hc'. specialize (H2 c' Hc'). congruence.
    + intros k o Hin. simpl in Hin. destruct (H3 k o Hin) as [c' [_ E']].
      congruence.
  - destruct (queue s) as [|j q]; [discriminate|].
    injection E as E. subst s'.
    destruct j as [k|k p];
      [apply connectDB_one | apply resume_one];
      apply (one_connection_same s); auto.
Qed.

(** X3.  As long as no attempt fails, however many callers there are and in
    whatever order they run, [mongoose.connect] is called at most once and
    every caller that has got an answer has got the same connection. *)
Theorem without_failure_one_connection (evs : list event) (s : State) :
  no_failure evs = true -> run evs init = Some s ->
  attempts s <= 1
  /\ forall k1 o1 k2 o2,
       In (k1, o1) (results s) -> In (k2, o2) (results s) ->
       exists c, o1 = Returned c /\ o2 = Returned c.
Proof.
  intros Hn Hr.
  assert (G : forall evs s0 s1, no_failure evs = true -> run evs s0 = Some s1 ->
                                one_connection s0 -> one_connection s1).
  { clear. induction evs as [|ev evs IH]; simpl; intros s0 s1 Hn Hr H.
    - injection Hr as Hr. subst s1. exact H.
    - apply andb_true_iff in Hn. destruct Hn as [Hev Hn].
      destruct (step ev s0) as [s2|] eqn:E; [|discriminate].
      apply (IH s2 s1 Hn Hr), (step_one ev s0 s2 Hev E H). }
  assert (I0 : one_connection init).
  { split; [left; auto|]. split; [intros c E; discriminate E|intros k o []]. }
  destruct (G evs init s Hn Hr I0) as [H1 [_ H3]]. split.
  - destruct H1 as [[Hp _]|[st [Hp _]]]; unfold attempts; rewrite Hp; simpl; lia.
  - intros k1 o1 k2 o2 In1 In2.
    destruct (H3 k1 o1 In1) as [c1 [E1 P1]].
    destruct (H3 k2 o2 In2) as [c2 [E2 P2]].
    exists c1. split; [exact E1|]. congruence.
Qed.

Lemma without_failure_one_connection_witness :
  exists s,
    run [Call 1; Call 2; Connected 0 7%N; RunJob; Call 3; RunJob] init = Some s
    /\ attempts s <= 1.
Proof.
  destruct (run [Call 1; Call 2; Connected 0 7%N; RunJob; Call 3; RunJob] init)
    as [s|] eqn:E; [|vm_compute in E; discriminate E].
  exists s. split; [reflexivity|].
  exact (proj1 (without_failure_one_connection
                  [Call 1; Call 2; Connected 0 7%N; RunJob; Call 3; RunJob] s
                  eq_refl E)).
Defined.

(* ================================================================== *)
(** * Booking: further properties *)
(* ================================================================== *)

Local Open Scope N_scope.

(** ** The e-mail pattern *)

Lemma star_class_gen (r : regex) (s : jsstring) :
  lang r s -> forall p, r = Star (Class p) -> forallb p s = true.
Proof.
  induction 1 as [|q x Hq|a b s t Ha _ Hb _|a b s Ha _|a b s Hb _|a
                  |a s t Hs _ Ht IHt];
    intros p E; try discriminate E.
  - reflexivity.
  - injection E as E. subst a. rewrite forallb_app, (IHt p eq_refl).
    destruct (class_inv Hs) as [c [Ec Hc]]. subst s. simpl. rewrite Hc.
    reflexivity.
Qed.

Lemma star_class (p : codeunit -> bool) (s : jsstring) :
  lang (Star (Class p)) s <-> forallb p s = true.
Proof.
  split.
  - intros H. apply (star_class_gen (Star (Class p)) s H p eq_refl).
  - induction s as [|c s IH]; simpl; intros H; [constructor|].
    apply andb_true_iff in H. destruct H as [Hc Hs].
    apply (L_star_cons (s := [c]) (t := s)); [constructor; exact Hc | auto].
Qed.

Lemma plus_class (p : codeunit -> bool) (s : jsstring) :
  lang (Plus (Class p)) s <-> s <> [] /\ forallb p s = true.
Proof.
  unfold Plus. split.
  - intros H. destruct (cat_inv H) as [a [b [E [Ha Hb]]]].
    destruct (class_inv Ha) as [c [Ec Hc]]. subst a s.
    apply star_class in Hb. simpl. rewrite Hc, Hb.
    split; [discriminate | reflexivity].
  - intros [Hn H]. destruct s as [|c s]; [congruence|].
    simpl in H. apply andb_true_iff in H. destruct H as [Hc Hs].
    apply (L_cat (s := [c]) (t := s)); [constructor; exact Hc|].
    apply star_class, Hs.
Qed.

Lemma filter_at_none (a : jsstring) :
  forallb Booking.not_space_at a = true -> filter (is_char 64) a = [].
Proof.
  intros H. rewrite forallb_forall in H. apply filter_none.
  intros c Hc. specialize (H c Hc). unfold Booking.not_space_at in H.
  apply negb_true_iff, orb_false_iff in H. apply H.
Qed.

Lemma emailRegex_shape (s : jsstring) :
  test Booking.emailRegex s = true
  <-> exists a b c,
        s = a ++ 64 :: b ++ 46 :: c
        /\ a <> [] /\ b <> [] /\ c <> []
        /\ forallb Booking.not_space_at a = true
        /\ forallb Booking.not_space_at b = true
        /\ forallb Booking.not_space_at c = true.
Proof.
  rewrite test_lang. unfold Booking.emailRegex. split.
  - intros H.
    destruct (cat_inv H) as [a [r1 [E1 [Ha H1]]]].
    destruct (cat_inv H1) as [at1 [r2 [E2 [Hat H2]]]].
    destruct (cat_inv H2) as [b [r3 [E3 [Hb H3]]]].
    destruct (cat_inv H3) as [dot [c [E4 [Hdot Hc]]]].
    destruct (class_inv Hat) as [x [Ex Hx]].
    destruct (class_inv Hdot) as [y [Ey Hy]].
    apply plus_class in Ha, Hb, Hc.
    apply N.eqb_eq in Hx, Hy. subst.
    exists a, b, c. simpl. tauto.
  - intros [a [b [c [E [Ha [Hb [Hc [Fa [Fb Fc]]]]]]]]]. subst s.
    apply L_cat; [apply plus_class; auto|].
    apply (L_cat (s := [64]) (t := b ++ 46 :: c)); [constructor; reflexivity|].
    apply L_cat; [apply plus_class; auto|].
    apply (L_cat (s := [46]) (t := c)); [constructor; reflexivity|].
    apply plus_class; auto.
Qed.

Lemma emailRegex_one_at (s : jsstring) :
  test Booking.emailRegex s = true ->
  length (filter (is_char 64) s) = 1%nat
  /\ forallb (fun c => negb (is_space c)) s = true.
Proof.
  intros H. apply emailRegex_shape in H.
  destruct H as [a [b [c [E [_ [_ [_ [Fa [Fb Fc]]]]]]]]]. subst s. split.
  - rewrite filter_app. simpl. rewrite filter_app. simpl.
    rewrite !filter_at_none by assumption. reflexivity.
  - rewrite forallb_app. simpl. rewrite forallb_app. simpl.
    assert (S : forall l, forallb Booking.not_space_at l = true ->
                          forallb (fun c => negb (is_space c)) l = true).
    { intros l Hl. rewrite forallb_forall in *. intros x Hx.
      specialize (Hl x Hx). unfold Booking.not_space_at in Hl.
      apply negb_true_iff, orb_false_iff in Hl. apply negb_true_iff, Hl. }
    rewrite !S by assumption. reflexivity.
Qed.

(** X4.  The strings the validator of [email] accepts are the strings
    [a@b.c] with [a], [b] and [c] not empty and free of white space and of
    [@]; such a string holds exactly one [@] and no white space. *)
Theorem email_pattern (s : jsstring) :
  (test Booking.emailRegex s = true
   <-> exists a b c,
         s = a ++ 64 :: b ++ 46 :: c
         /\ a <> [] /\ b <> [] /\ c <> []
         /\ forallb Booking.not_space_at a = true
         /\ forallb Booking.not_space_at b = true
         /\ forallb Booking.not_space_at c = true)
  /\ (test Booking.emailRegex s = true ->
      length (filter (is_char 64) s) = 1%nat
      /\ forallb (fun c => negb (is_space c)) s = true).
Proof. split; [apply emailRegex_shape | apply emailRegex_one_at]. Qed.

Lemma email_pattern_witness :
  length (filter (is_char 64) (lit "dev@example.com")) = 1%nat
  /\ forallb (fun c => negb (is_space c)) (lit "dev@example.com") = true.
Proof.
  refine (proj2 (email_pattern (lit "dev@example.com")) _).
  vm_compute. reflexivity.
Defined.

(** ** What a save of a Booking writes *)

(** Valid fields: an Event id and an e-mail address that, lowercased and
    trimmed, matches the pattern. *)
Lemma booking_validation (P : Platform) (i : Booking.BookingInput) :
  Booking.validation_errors (Booking.assign P (Booking.value_of i)) = [] ->
  exists x e,
    Booking.in_eventId i = Some x /\ Booking.in_email i = Some e
    /\ Booking.document (Booking.assign P (Booking.value_of i))
       = {| Booking.eventId := x;
            Booking.email := trim (toLowerCase P e) |}
    /\ test Booking.emailRegex (trim (toLowerCase P e)) = true.
Proof.
  unfold Booking.validation_errors, Booking.document, Booking.assign,
    Booking.value_of. simpl.
  destruct (Booking.in_eventId i) as [x|]; [|simpl; discriminate].
  destruct (Booking.in_email i) as [e|]; [|simpl; discriminate].
  simpl. destruct (trim (toLowerCase P e)) as [|c r] eqn:Et;
    [discriminate|].
  destruct (test Booking.emailRegex (c :: r)) eqn:Hr; [|discriminate].
  intros _. exists x, e. rewrite Et. repeat split. exact Hr.
Qed.

Lemma booking_has_id_app (c : list (ObjectId * Booking.IBooking))
    (id id' : ObjectId) (b : Booking.IBooking) :
  Booking.has_id (c ++ [(id', b)]) id
  = Booking.has_id c id || (id' =? id).
Proof.
  unfold Booking.has_id. rewrite existsb_app. simpl.
  rewrite orb_false_r. reflexivity.
Qed.

Lemma booking_create_inr (P : Platform) (db db' : Booking.Database)
    (id : ObjectId) (i : Booking.BookingInput) :
  Booking.create P db id i = inr db' ->
  exists x e ev,
    Booking.in_eventId i = Some x /\ Booking.in_email i = Some e
    /\ Booking.bookings db'
       = Booking.bookings db
         ++ [(id, {| Booking.eventId := x;
                     Booking.email := trim (toLowerCase P e) |})]
    /\ Booking.events db' = Booking.events db
    /\ Booking.fault db' = Booking.fault db
    /\ Event.find (Booking.events db) x = Some ev
    /\ Booking.has_id (Booking.bookings db) id = false.
Proof.
  unfold Booking.create, Booking.save. simpl.
  destruct (Booking.validation_errors _) as [|e0 es] eqn:Hv; [|discriminate].
  destruct (booking_validation P i Hv) as [x [e [Ex [Ee [Ed Hr]]]]].
  rewrite Ed. unfold Booking.pre_save, Booking.given, Booking.value_of.
  rewrite Ex. simpl. unfold Booking.Event_findById.
  destruct (Booking.fault db) as [t|] eqn:Hf; [discriminate|].
  destruct (Event.find (Booking.events db) x) as [ev|] eqn:Hfind;
    [|discriminate].
  destruct (Booking.has_id (Booking.bookings db) id) eqn:Hid; [discriminate|].
  intros E. injection E as E. subst db'. exists x, e, ev. simpl. auto 10.
Qed.

(** X5.  A create that goes through has appended one Booking, with the Event
    id as given and the e-mail address lowercased and trimmed, for an Event
    the lookup found; the Events are as they were. *)
Theorem booking_create_appends (P : Platform) (db db' : Booking.Database)
    (id : ObjectId) (i : Booking.BookingInput) :
  Booking.create P db id i = inr db' ->
  exists x e ev,
    Booking.in_eventId i = Some x /\ Booking.in_email i = Some e
    /\ Booking.bookings db'
       = Booking.bookings db
         ++ [(id, {| Booking.eventId := x;
                     Booking.email := trim (toLowerCase P e) |})]
    /\ Booking.events db' = Booking.events db
    /\ Booking.fault db' = Booking.fault db
    /\ Event.find (Booking.events db) x = Some ev
    /\ Booking.has_id (Booking.bookings db) id = false.
Proof. apply booking_create_inr. Qed.

Lemma booking_create_appends_witness :
  exists db',
    Booking.create ref_platform one_event_db 1 (sample_booking 7) = inr db'
    /\ Booking.bookings db'
       = [(1, {| Booking.eventId := 7;
                 Booking.email := lit "dev@example.com" |})].
Proof.
  destruct (Booking.create ref_platform one_event_db 1 (sample_booking 7))
    as [e|db'] eqn:E; [vm_compute in E; discriminate E|].
  exists db'. split; [reflexivity|].
  destruct (booking_create_appends ref_platform one_event_db db' 1
              (sample_booking 7) E)
    as [x [e [ev [Ex [Ee [Eb _]]]]]].
  injection Ex as Ex. injection Ee as Ee. subst x e. exact Eb.
Defined.

(** X6.  Every e-mail address a create stores is lowercase as far as ASCII
    goes, holds no white space and exactly one [@]. *)
Theorem booking_email_normalised (P : Platform) (HP : PlatformOk P)
    (db db' : Booking.Database) (id : ObjectId) (i : Booking.BookingInput) :
  Booking.create P db id i = inr db' ->
  exists b,
    Booking.bookings db' = Booking.bookings db ++ [(id, b)]
    /\ forallb (fun c => negb (is_upper c)) (Booking.email b) = true
    /\ forallb (fun c => negb (is_space c)) (Booking.email b) = true
    /\ length (filter (is_char 64) (Booking.email b)) = 1%nat.
Proof.
  intros H.
  assert (Hv : Booking.validation_errors
                 (Booking.assign P (Booking.value_of i)) = []).
  { revert H. unfold Booking.create, Booking.save. simpl.
    destruct (Booking.validation_errors _); [reflexivity | discriminate]. }
  destruct (booking_validation P i Hv) as [x' [e' [Ex' [Ee' [_ Hr]]]]].
  destruct (booking_create_inr P db db' id i H)
    as [x [e [ev [Ex [Ee [Eb _]]]]]].
  rewrite Ee in Ee'. injection Ee' as Ee'. subst e'.
  eexists. split; [exact Eb|]. simpl.
  destruct (emailRegex_one_at _ Hr) as [H1 H2].
  repeat split; try assumption.
  apply forallb_forall. intros c Hc. apply in_trim in Hc.
  pose proof (lower_no_upper HP e) as Hn. rewrite forallb_forall in Hn.
  apply (Hn c Hc).
Qed.

Lemma booking_email_normalised_witness :
  exists db' b,
    Booking.create ref_platform one_event_db 1 (sample_booking 7) = inr db'
    /\ Booking.bookings db' = [(1, b)]
    /\ length (filter (is_char 64) (Booking.email b)) = 1%nat.
Proof.
  destruct (Booking.create ref_platform one_event_db 1 (sample_booking 7))
    as [e|db'] eqn:E; [vm_compute in E; discriminate E|].
  destruct (booking_email_normalised ref_platform ref_platform_ok
              one_event_db db' 1 (sample_booking 7) E)
    as [b [Eb [_ [_ H1]]]].
  exists db', b. auto.
Defined.

(** ** Duplicates and updates *)

(** X7.  Neither index of the schema is unique: a second Booking for the same
    Event and the same e-mail address is accepted like the first. *)
Theorem booking_duplicates_accepted (P : Platform)
    (db db1 : Booking.Database) (id1 id2 : ObjectId)
    (i : Booking.BookingInput) :
  Booking.create P db id1 i = inr db1 ->
  id2 <> id1 -> Booking.has_id (Booking.bookings db) id2 = false ->
  exists db2 b,
    Booking.create P db1 id2 i = inr db2
    /\ Booking.bookings db2 = Booking.bookings db ++ [(id1, b); (id2, b)].
Proof.
  intros H Hne Hid.
  assert (Hv : Booking.validation_errors
                 (Booking.assign P (Booking.value_of i)) = []).
  { revert H. unfold Booking.create, Booking.save. simpl.
    destruct (Booking.validation_errors _); [reflexivity | discriminate]. }
  destruct (booking_create_inr P db db1 id1 i H)
    as [x [e [ev [Ex [Ee [Eb [Eev [Ef [Hfind _]]]]]]]]].
  destruct (booking_validation P i Hv) as [x' [e' [Ex' [Ee' [Ed _]]]]].
  rewrite Ex in Ex'. rewrite Ee in Ee'.
  injection Ex' as Ex'. injection Ee' as Ee'. subst x' e'.
  unfold Booking.create, Booking.save. simpl. rewrite Hv, Ed.
  unfold Booking.pre_save, Booking.given, Booking.value_of,
    Booking.Event_findById.
  rewrite Ex. simpl.
  assert (Hf0 : Booking.fault db = None).
  { revert H. unfold Booking.create, Booking.save. simpl. rewrite Hv, Ed.
    unfold Booking.pre_save, Booking.given, Booking.value_of,
      Booking.Event_findById.
    rewrite Ex. simpl. destruct (Booking.fault db); [discriminate|reflexivity]. }
  rewrite Ef, Hf0, Eev, Hfind, Eb, booking_has_id_app, Hid.
  replace (id1 =? id2) with false
    by (symmetry; apply N.eqb_neq; congruence).
  simpl. eexists. eexists. split; [reflexivity|]. simpl.
  rewrite <- app_assoc. reflexivity.
Qed.

Lemma booking_duplicates_accepted_witness :
  exists db1 db2,
    Booking.create ref_platform one_event_db 1 (sample_booking 7) = inr db1
    /\ Booking.create ref_platform db1 2 (sample_booking 7) = inr db2
    /\ length (Booking.bookings db2) = 2%nat.
Proof.
  destruct (Booking.create ref_platform one_event_db 1 (sample_booking 7))
    as [e|db1] eqn:E; [vm_compute in E; discriminate E|].
  destruct (booking_duplicates_accepted ref_platform one_event_db db1 1 2
              (sample_booking 7) E)
    as [db2 [b [E2 Eb]]]; [discriminate | reflexivity|].
  exists db1, db2. repeat split; try assumption. rewrite Eb. reflexivity.
Defined.



(* ================================================================== *)
(** * The slug: further properties *)
(* ================================================================== *)

Lemma drop_while_starts (p : codeunit -> bool) (s : jsstring) :
  starts_with p (drop_while p s) = false.
Proof.
  induction s as [|c s IH]; simpl; [reflexivity|].
  destruct (p c) eqn:Hc; [exact IH | simpl; exact Hc].
Qed.

Lemma drop_while_fixed (p : codeunit -> bool) (s : jsstring) :
  starts_with p s = false -> drop_while p s = s.
Proof. destruct s as [|c s]; simpl; [reflexivity|]. intros H. rewrite H. reflexivity. Qed.

Lemma drop_while_end_fixed (p : codeunit -> bool) (s : jsstring) :
  ends_with p s = false -> drop_while_end p s = s.
Proof.
  unfold ends_with, drop_while_end. intros H.
  rewrite (drop_while_fixed p (rev s) H). apply rev_involutive.
Qed.

Lemma drop_while_end_ends (p : codeunit -> bool) (s : jsstring) :
  ends_with p (drop_while_end p s) = false.
Proof.
  unfold ends_with, drop_while_end. rewrite rev_involutive.
  apply drop_while_starts.
Qed.

(** Dropping from the end keeps the start. *)
Lemma drop_while_end_starts (p : codeunit -> bool) (s : jsstring) :
  starts_with p s = false -> starts_with p (drop_while_end p s) = false.
Proof.
  intros H. destruct (drop_while_end_split p s) as [r [E _]].
  destruct (drop_while_end p s) as [|c x]; [reflexivity|].
  rewrite E in H. exact H.
Qed.

Lemma strip_both_shape (p : codeunit -> bool) (s : jsstring) :
  starts_with p (strip_both p s) = false
  /\ ends_with p (strip_both p s) = false.
Proof.
  unfold strip_both. split.
  - apply drop_while_end_starts, drop_while_starts.
  - apply drop_while_end_ends.
Qed.

Lemma no_double_app (p : codeunit -> bool) (a b : jsstring) :
  no_double p (a ++ b) = true -> no_double p a = true /\ no_double p b = true.
Proof.
  induction a as [|c a IH]; simpl; [auto|].
  intros H. apply andb_true_iff in H. destruct H as [H1 H2].
  destruct (IH H2) as [Ha Hb]. split; [|exact Hb].
  rewrite Ha, andb_true_r. destruct a as [|c' a]; [reflexivity | exact H1].
Qed.

Lemma strip_both_no_double (p : codeunit -> bool) (s : jsstring) :
  no_double p s = true -> no_double p (strip_both p s) = true.
Proof.
  intros H. unfold strip_both.
  destruct (drop_while_split p s) as [l [El _]].
  destruct (drop_while_end_split p (drop_while p s)) as [r [Er _]].
  rewrite El in H. apply no_double_app in H. destruct H as [_ H].
  rewrite Er in H. apply no_double_app in H. apply H.
Qed.

Lemma hyphen_is_separator (c : codeunit) :
  is_hyphen c = true -> Event.is_separator c = true.
Proof. intros H. unfold Event.is_separator. rewrite H. apply orb_true_r. Qed.

(** The replacement of runs leaves no two hyphens side by side. *)
Lemma replace_runs_no_double (s : jsstring) :
  forall b,
    no_double is_hyphen (replace_runs Event.is_separator [hyphen] b s) = true
    /\ (b = true ->
        starts_with is_hyphen (replace_runs Event.is_separator [hyphen] b s)
        = false).
Proof.
  induction s as [|c s IH]; intros b; simpl; [auto|].
  destruct (Event.is_separator c) eqn:Hc.
  - destruct b.
    + apply IH.
    + destruct (IH true) as [H1 H2]. specialize (H2 eq_refl).
      split; [|discriminate]. simpl.
      destruct (replace_runs Event.is_separator [hyphen] true s) as [|x r];
        [reflexivity|].
      simpl in H2. rewrite H2, H1. reflexivity.
  - destruct (IH false) as [H1 _].
    assert (Hh : is_hyphen c = false).
    { destruct (is_hyphen c) eqn:E; [|reflexivity].
      rewrite (hyphen_is_separator c E) in Hc. discriminate Hc. }
    split; [|intros _; simpl; exact Hh].
    simpl. rewrite Hh, H1.
    destruct (replace_runs Event.is_separator [hyphen] false s); reflexivity.
Qed.

(** X9.  A slug neither starts nor ends with a hyphen and holds no two hyphens
    in a row, whatever the title and the engine. *)
Theorem slug_hyphens_single (P : Platform) (t : jsstring) :
  starts_with is_hyphen (Event.slugify P t) = false
  /\ ends_with is_hyphen (Event.slugify P t) = false
  /\ no_double is_hyphen (Event.slugify P t) = true.
Proof.
  unfold Event.slugify.
  destruct (strip_both_shape is_hyphen
              (replace_runs Event.is_separator [hyphen] false
                 (remove_outside Event.is_slug_char (trim (toLowerCase P t)))))
    as [H1 H2].
  split; [exact H1|]. split; [exact H2|].
  apply strip_both_no_double, replace_runs_no_double.
Qed.

(** X10.  A slug holds small letters, digits and hyphens only; so does the slug
    of every Event a create stores. *)
Theorem slug_url_safe (P : Platform) (HP : PlatformOk P) :
  (forall t, forallb Spec.url_safe (Event.slugify P t) = true)
  /\ (forall c c' id i,
        Event.create P c id i = inr c' ->
        exists ev s, Event.find c' id = Some ev /\ Event.slug ev = Some s
                     /\ forallb Spec.url_safe s = true).
Proof.
  split; [apply (slugify_url_safe HP)|].
  intros c c' id i H.
  destruct (@create_inr P HP c c' id i H) as [t [ev [_ [_ [Hf [_ [Hs _]]]]]]].
  exists ev, (Event.slugify P (trim t)).
  split; [exact Hf|]. split; [exact Hs|]. apply (slugify_url_safe HP).
Qed.

Lemma slug_url_safe_witness :
  forallb Spec.url_safe
    (Event.slugify ref_platform (lit " Rocq & Friends -- 2025_edition ")) = true.
Proof.
  exact (proj1 (slug_url_safe ref_platform ref_platform_ok)
           (lit " Rocq & Friends -- 2025_edition ")).
Defined.

Lemma filter_all (f : codeunit -> bool) (s : jsstring) :
  forallb f s = true -> filter f s = s.
Proof.
  induction s as [|c s IH]; simpl; [reflexivity|].
  intros H. apply andb_true_iff in H. destruct H as [Hc Hs].
  rewrite Hc, (IH Hs). reflexivity.
Qed.

(** Where hyphens are the only separators and stand alone, the replacement
    of runs changes nothing. *)
Lemma replace_runs_fixed (s : jsstring) :
  (forall c, In c s -> Event.is_separator c = is_hyphen c) ->
  no_double is_hyphen s = true ->
  replace_runs Event.is_separator [hyphen] false s = s
  /\ (starts_with is_hyphen s = false ->
      replace_runs Event.is_separator [hyphen] true s = s).
Proof.
  induction s as [|c s IH]; intros Hsep Hd; [auto|].
  simpl in Hd. apply andb_true_iff in Hd. destruct Hd as [Hd1 Hd2].
  destruct IH as [IH1 IH2]; [intros x Hx; apply Hsep; right; exact Hx
                            | exact Hd2|].
  simpl. rewrite (Hsep c (or_introl eq_refl)).
  destruct (is_hyphen c) eqn:Hc.
  - assert (Ec : c = hyphen) by (apply N.eqb_eq, Hc).
    split; [|intros E; discriminate E].
    rewrite IH2; [subst c; reflexivity|].
    destruct s as [|c' s]; [reflexivity|]. simpl.
    simpl in Hd1. apply negb_true_iff in Hd1. exact Hd1.
  - rewrite IH1. auto.
Qed.

Lemma url_safe_slug_char (c : codeunit) :
  Spec.url_safe c = true -> Event.is_slug_char c = true.
Proof.
  unfold Spec.url_safe, Event.is_slug_char, is_word.
  destruct (is_upper c), (is_lower c), (is_digit c), (is_hyphen c),
    (is_space c), (is_char 95 c); simpl; auto.
Qed.

Lemma url_safe_separator (c : codeunit) :
  Spec.url_safe c = true -> Event.is_separator c = is_hyphen c.
Proof.
  intros H. unfold Event.is_separator.
  rewrite (url_safe_not_space c H).
  replace (is_char 95 c) with false; [reflexivity|].
  symmetry. apply not_true_is_false. intros U. class_arith.
Qed.

(** X11.  The slug of a slug is the slug itself. *)
Theorem slug_idempotent (P : Platform) (HP : PlatformOk P) (t : jsstring) :
  Event.slugify P (Event.slugify P t) = Event.slugify P t.
Proof.
  set (s := Event.slugify P t).
  assert (Hu : forallb Spec.url_safe s = true) by apply (slugify_url_safe HP).
  destruct (slug_setters_id HP s Hu) as [El Et].
  assert (Hs1 : starts_with is_hyphen s = false
                /\ ends_with is_hyphen s = false
                /\ no_double is_hyphen s = true).
  { subst s. unfold Event.slugify.
    destruct (strip_both_shape is_hyphen
                (replace_runs Event.is_separator [hyphen] false
                   (remove_outside Event.is_slug_char
                      (trim (toLowerCase P t))))) as [H1 H2].
    split; [exact H1|]. split; [exact H2|].
    apply strip_both_no_double, replace_runs_no_double. }
  destruct Hs1 as [Hst [Hen Hnd]].
  unfold Event.slugify at 1. fold s. rewrite El, Et.
  unfold remove_outside. rewrite filter_all.
  - rewrite forallb_forall in Hu.
    destruct (replace_runs_fixed s) as [Hr _];
      [intros c Hc; apply url_safe_separator, Hu, Hc | exact Hnd|].
    rewrite Hr. unfold strip_both.
    rewrite (drop_while_fixed is_hyphen s Hst).
    apply drop_while_end_fixed, Hen.
  - apply forallb_forall. intros c Hc. rewrite forallb_forall in Hu.
    apply url_safe_slug_char, Hu, Hc.
Qed.

Lemma slug_idempotent_witness :
  Event.slugify ref_platform
    (Event.slugify ref_platform (lit "My Cool Talk!!"))
  = Event.slugify ref_platform (lit "My Cool Talk!!").
Proof.
  exact (slug_idempotent ref_platform ref_platform_ok (lit "My Cool Talk!!")).
Defined.

(* ================================================================== *)
(** * The pre-save hook of Event: further properties *)
(* ================================================================== *)

(** X12.  The hook writes [slug] and [date] and nothing else, [slug] only when
    the title is modified and [date] only when the date is; with none of
    title, date and time modified it passes whatever the document holds. *)
Theorem pre_save_frame (P : Platform) (m : Event.path -> bool)
    (this : Event.IEvent) :
  (forall this',
     Event.pre_save P m this = inr this' ->
     this' = {| Event.title := Event.title this;
                Event.slug := Event.slug this';
                Event.description := Event.description this;
                Event.overview := Event.overview this;
                Event.image := Event.image this;
                Event.venue := Event.venue this;
                Event.location := Event.location this;
                Event.date := Event.date this';
                Event.time := Event.time this;
                Event.mode := Event.mode this;
                Event.audience := Event.audience this;
                Event.agenda := Event.agenda this;
                Event.organizer := Event.organizer this;
                Event.tags := Event.tags this |}
     /\ (m Event.Title = false -> Event.slug this' = Event.slug this)
     /\ (m Event.Date = false -> Event.date this' = Event.date this))
  /\ (m Event.Title = false -> m Event.Date = false -> m Event.Time = false ->
      Event.pre_save P m this = inr this).
Proof.
  split.
  - intros this'. unfold Event.pre_save.
    destruct this as [ti sl de ov im ve lo da tm mo au ag og ta].
    destruct (m Event.Title), (m Event.Date), (m Event.Time); simpl;
      try destruct (Date_parse P da); simpl;
      try destruct (test Event.timeRegex tm); simpl;
      intros E; inversion E; simpl;
      (split; [reflexivity|]);
      split; intros F; try discriminate F; reflexivity.
  - intros H1 H2 H3. unfold Event.pre_save. rewrite H1, H2, H3. reflexivity.
Qed.

Lemma pre_save_frame_witness :
  exists this',
    Event.pre_save ref_platform only_time_modified
      (sample_event "13/01/2025" "9:05") = inr this'
    /\ Event.date this' = lit "13/01/2025".
Proof.
  destruct (Event.pre_save ref_platform only_time_modified
              (sample_event "13/01/2025" "9:05")) as [e|this'] eqn:E;
    [vm_compute in E; discriminate E|].
  exists this'. split; [reflexivity|].
  exact (proj2 (proj2 (proj1 (pre_save_frame ref_platform only_time_modified
                                (sample_event "13/01/2025" "9:05")) this' E))
           eq_refl).
Defined.

(* ================================================================== *)
(** * Dates: the calendar round trip *)
(* ================================================================== *)

Local Open Scope Z_scope.

(** Within an era of 400 years, the year and the day of the year give the
    day of the era, and back. *)
Lemma era_inverse (yoe doy : Z) :
  0 <= yoe < 400 -> 0 <= doy <= 365 ->
  (doy = 365 -> (yoe + 1) mod 4 = 0 /\ ((yoe + 1) mod 100 <> 0 \/ yoe = 399)) ->
  let doe := yoe * 365 + yoe / 4 - yoe / 100 + doy in
  0 <= doe < 146097
  /\ (doe - doe / 1460 + doe / 36524 - doe / 146096) / 365 = yoe.
Proof. intros Hy Hd Hl. cbv zeta. Z.div_mod_to_equations. lia. Qed.

Lemma era_forward (doe : Z) :
  0 <= doe < 146097 ->
  let yoe := (doe - doe / 1460 + doe / 36524 - doe / 146096) / 365 in
  let doy := doe - (365 * yoe + yoe / 4 - yoe / 100) in
  0 <= yoe < 400 /\ 0 <= doy <= 365
  /\ (doy = 365 ->
      (yoe + 1) mod 4 = 0 /\ ((yoe + 1) mod 100 <> 0 \/ yoe = 399)).
Proof. intros H. cbv zeta. Z.div_mod_to_equations. lia. Qed.

Ltac month_cases mp :=
  let C := fresh "C" in
  assert (C : mp = 0 \/ mp = 1 \/ mp = 2 \/ mp = 3 \/ mp = 4 \/ mp = 5
              \/ mp = 6 \/ mp = 7 \/ mp = 8 \/ mp = 9 \/ mp = 10 \/ mp = 11)
    by lia;
  repeat (destruct C as [C|C]; [subst mp; Z.div_mod_to_equations; lia|]);
  subst mp; Z.div_mod_to_equations; lia.

(** The day number of a date of the calendar gives the date back. *)
Lemma civil_from_days_from_civil (y m d : Z) :
  valid_ymd y m d = true -> civil_from_days (days_from_civil y m d) = (y, m, d).
Proof.
  unfold valid_ymd, days_in_month, is_leap. intros H.
  rewrite !andb_true_iff, !Z.leb_le in H. destruct H as [[[H1 H2] H3] H4].
  unfold days_from_civil, civil_from_days.
  set (y' := if m <=? 2 then y - 1 else y).
  set (era := y' / 400).
  set (yoe := y' - era * 400).
  assert (Hyoe : 0 <= yoe < 400)
    by (subst yoe era; Z.div_mod_to_equations; lia).
  set (mp := if 2 <? m then m - 3 else m + 9).
  set (doy := (153 * mp + 2) / 5 + d - 1).
  assert (Hmp : 0 <= mp <= 11 /\ (mp = m - 3 /\ 3 <= m \/ mp = m + 9 /\ m <= 2))
    by (subst mp; destruct (Z.ltb_spec 2 m); lia).
  assert (Hdim : d <= 31 /\ (m = 4 \/ m = 6 \/ m = 9 \/ m = 11 -> d <= 30)
                 /\ (m = 2 -> d <= 29
                              /\ (d = 29 -> y mod 4 = 0
                                  /\ (y mod 100 <> 0 \/ y mod 400 = 0)))).
  { revert H4. destruct (Z.eqb_spec m 2).
    - destruct (Z.eqb_spec (y mod 4) 0), (Z.eqb_spec (y mod 100) 0),
        (Z.eqb_spec (y mod 400) 0); simpl; intros;
        Z.div_mod_to_equations; lia.
    - destruct (Z.eqb_spec m 4), (Z.eqb_spec m 6), (Z.eqb_spec m 9),
        (Z.eqb_spec m 11); simpl; intros; Z.div_mod_to_equations; lia. }
  clear H4.
  assert (Hdoy : 0 <= doy <= 365 /\ (5 * doy + 2) / 153 = mp
                 /\ doy - (153 * mp + 2) / 5 + 1 = d
                 /\ (doy = 365 -> m = 2 /\ d = 29)).
  { subst doy. clearbody mp. month_cases mp. }
  destruct Hdoy as [Hd1 [Hd2 [Hd3 Hd4]]].
  assert (Hleap : doy = 365 ->
                  (yoe + 1) mod 4 = 0 /\ ((yoe + 1) mod 100 <> 0 \/ yoe = 399)).
  { intros E. destruct (Hd4 E) as [E1 E2].
    assert (y' = y - 1) by (subst y'; destruct (Z.leb_spec m 2); lia).
    subst yoe era. Z.div_mod_to_equations. lia. }
  destruct (era_inverse yoe doy Hyoe Hd1 Hleap) as [Hdoe Hinv].
  set (doe := yoe * 365 + yoe / 4 - yoe / 100 + doy) in *.
  replace (era * 146097 + doe - 719468 + 719468) with (era * 146097 + doe)
    by lia.
  assert (Eera : (era * 146097 + doe) / 146097 = era)
    by (Z.div_mod_to_equations; lia).
  rewrite Eera.
  replace (era * 146097 + doe - era * 146097) with doe by lia.
  rewrite Hinv.
  replace (doe - (365 * yoe + yoe / 4 - yoe / 100)) with doy
    by (subst doe; lia).
  rewrite Hd2, Hd3.
  assert (Em : (if mp <? 10 then mp + 3 else mp - 9) = m)
    by (destruct (Z.ltb_spec mp 10); lia).
  rewrite Em.
  assert (Ey : (if m <=? 2 then yoe + era * 400 + 1 else yoe + era * 400) = y).
  { subst yoe y'. destruct (Z.leb_spec m 2); lia. }
  rewrite Ey. reflexivity.
Qed.

(** The date of a day number is a date of the calendar, and its day number
    is that number. *)
Lemma days_from_civil_from_days (z y m d : Z) :
  civil_from_days z = (y, m, d) ->
  valid_ymd y m d = true /\ days_from_civil y m d = z.
Proof.
  unfold civil_from_days.
  set (z' := z + 719468).
  set (era := z' / 146097).
  set (doe := z' - era * 146097).
  assert (Hdoe : 0 <= doe < 146097)
    by (subst doe era; Z.div_mod_to_equations; lia).
  destruct (era_forward doe Hdoe) as [Hyoe [Hdoy Hleap]].
  set (yoe := (doe - doe / 1460 + doe / 36524 - doe / 146096) / 365) in *.
  set (doy := doe - (365 * yoe + yoe / 4 - yoe / 100)) in *.
  set (mp := (5 * doy + 2) / 153).
  assert (Hmp : 0 <= mp <= 11) by (subst mp; Z.div_mod_to_equations; lia).
  assert (Hk : 153 * mp <= 5 * doy + 2 < 153 * mp + 153)
    by (subst mp; Z.div_mod_to_equations; lia).
  intros E. injection E as Ey Em Ed. rewrite Em in Ey.
  assert (Hm : (mp < 10 /\ m = mp + 3) \/ (10 <= mp /\ m = mp - 9))
    by (subst m; destruct (Z.ltb_spec mp 10); lia).
  assert (Hy : (m <= 2 /\ y = yoe + era * 400 + 1)
               \/ (2 < m /\ y = yoe + era * 400))
    by (subst y; destruct (Z.leb_spec m 2); lia).
  assert (Hdz : doe = yoe * 365 + yoe / 4 - yoe / 100 + doy)
    by (subst doy; lia).
  assert (Hz : z = era * 146097 + doe - 719468) by (subst doe z'; lia).
  clearbody mp doy yoe doe era. clear z'.
  assert (Hd : 1 <= d /\ d <= 31
               /\ (m = 4 \/ m = 6 \/ m = 9 \/ m = 11 -> d <= 30)
               /\ (m = 2 -> d <= 29 /\ (d = 29 -> doy = 365))
               /\ doy = (153 * mp + 2) / 5 + d - 1).
  { subst d. month_cases mp. }
  clear Ed. split.
  - unfold valid_ymd, days_in_month, is_leap.
    rewrite !andb_true_iff, !Z.leb_le. repeat split; try lia.
    destruct (Z.eqb_spec m 2) as [e|n].
    + assert (d <= 28
              \/ (d = 29 /\ y mod 4 = 0 /\ (y mod 100 <> 0 \/ y mod 400 = 0))).
      { destruct Hd as [? [? [? [Hf ?]]]]. destruct (Hf e) as [Hf1 Hf2].
        destruct (Z.eq_dec d 29) as [E29|]; [right|left; lia].
        split; [exact E29|]. specialize (Hleap (Hf2 E29)).
        Z.div_mod_to_equations. lia. }
      destruct (Z.eqb_spec (y mod 4) 0), (Z.eqb_spec (y mod 100) 0),
        (Z.eqb_spec (y mod 400) 0); simpl; Z.div_mod_to_equations; lia.
    + destruct (Z.eqb_spec m 4), (Z.eqb_spec m 6), (Z.eqb_spec m 9),
        (Z.eqb_spec m 11); simpl; lia.
  - unfold days_from_civil.
    assert (Ey' : (if m <=? 2 then y - 1 else y) = yoe + era * 400)
      by (destruct (Z.leb_spec m 2); lia).
    rewrite Ey'.
    assert (Ee : (yoe + era * 400) / 400 = era)
      by (Z.div_mod_to_equations; lia).
    rewrite Ee.
    replace (yoe + era * 400 - era * 400) with yoe by lia.
    assert (Emp : (if 2 <? m then m - 3 else m + 9) = mp)
      by (destruct (Z.ltb_spec 2 m); lia).
    rewrite Emp. lia.
Qed.

Lemma digit_of_value (n : Z) : Z.of_N (digit_of n) - 48 = n mod 10.
Proof. unfold digit_of. Z.div_mod_to_equations. lia. Qed.

Lemma digits_value_pad4 (y : Z) :
  0 <= y <= 9999 -> digits_value 0 (pad 4 y) = Some y.
Proof.
  intros H. cbn [pad app digits_value].
  rewrite !digit_of_digit, !digit_of_value. f_equal.
  Z.div_mod_to_equations. lia.
Qed.

Lemma digits_value_pad2 (n : Z) :
  0 <= n <= 99 -> digits_value 0 (pad 2 n) = Some n.
Proof.
  intros H. cbn [pad app digits_value].
  rewrite !digit_of_digit, !digit_of_value. f_equal.
  Z.div_mod_to_equations. lia.
Qed.

Lemma valid_ymd_bounds (y m d : Z) :
  valid_ymd y m d = true -> 1 <= m <= 12 /\ 1 <= d <= 31.
Proof.
  unfold valid_ymd, days_in_month. intros H.
  rewrite !andb_true_iff, !Z.leb_le in H. destruct H as [[[H1 H2] H3] H4].
  repeat split; try assumption.
  destruct (m =? 2); [destruct (is_leap y); lia|].
  destruct ((m =? 4) || (m =? 6) || (m =? 9) || (m =? 11)); lia.
Qed.

(** The ECMAScript format reads a date [YYYY-MM-DD] of the calendar as
    midnight UTC of that day, on every engine. *)
Lemma parse_iso_date_canonical (y m d : Z) :
  0 <= y <= 9999 -> valid_ymd y m d = true ->
  parse_iso_date (iso_date y m d) = Some (days_from_civil y m d * msPerDay).
Proof.
  intros Hy Hv. destruct (valid_ymd_bounds y m d Hv) as [Hm Hd].
  change (parse_iso_date (iso_date y m d))
    with (date_only 1 (pad 4 y) (pad 2 m) (pad 2 d)).
  unfold date_only.
  rewrite (digits_value_pad4 y Hy), (digits_value_pad2 m), (digits_value_pad2 d)
    by lia.
  rewrite Z.mul_1_l, Hv. simpl negb. cbn [andb]. unfold time_clip.
  replace (Z.abs (days_from_civil y m d * msPerDay) <=? maxTime) with true;
    [reflexivity|].
  symmetry. apply Z.leb_le. unfold days_from_civil, msPerDay, maxTime.
  destruct (m <=? 2), (2 <? m); Z.div_mod_to_equations; lia.
Qed.

(** The hook leaves a canonical date of the calendar as it is. *)
Lemma canonical_date_fixed (P : Platform) (m : Event.path -> bool)
    (this this' : Event.IEvent) (y mo d : Z) :
  m Event.Date = true -> 0 <= y <= 9999 -> valid_ymd y mo d = true ->
  Event.date this = iso_date y mo d ->
  Event.pre_save P m this = inr this' ->
  Event.date this' = Event.date this.
Proof.
  intros Hm Hy Hv Ed H.
  destruct (@pre_save_date P m this this' H Hm) as [t [Ep Et]].
  rewrite Ed in Ep. unfold Date_parse in Ep.
  rewrite (parse_iso_date_canonical y mo d Hy Hv) in Ep.
  injection Ep as Ep. subst t.
  assert (Ec : civil_from_days (days_from_civil y mo d * msPerDay / msPerDay)
               = (y, mo, d)).
  { rewrite Z.div_mul by (unfold msPerDay; lia).
    apply civil_from_days_from_civil, Hv. }
  rewrite Et, (@iso_date_part _ y mo d Ec Hy), iso_date_trim, Ed.
  reflexivity.
Qed.

(** X13.  A date [YYYY-MM-DD] that names a day of the calendar is accepted on
    every engine and stored as it was given. *)
Theorem canonical_date_kept (P : Platform) (m : Event.path -> bool)
    (this : Event.IEvent) (y mo d : Z) :
  m Event.Date = true -> 0 <= y <= 9999 -> valid_ymd y mo d = true ->
  Event.date this = iso_date y mo d ->
  Date_parse P (Event.date this) = Some (days_from_civil y mo d * msPerDay)
  /\ forall this',
       Event.pre_save P m this = inr this' ->
       Event.date this' = Event.date this.
Proof.
  intros Hm Hy Hv Ed. split.
  - rewrite Ed. unfold Date_parse.
    rewrite (parse_iso_date_canonical y mo d Hy Hv). reflexivity.
  - intros this' H.
    apply (canonical_date_fixed P m this this' y mo d Hm Hy Hv Ed H).
Qed.

Lemma canonical_date_kept_witness :
  exists this',
    Event.pre_save ref_platform all_modified
      (sample_event "2024-02-29" "18:30") = inr this'
    /\ Event.date this' = lit "2024-02-29".
Proof.
  destruct (Event.pre_save ref_platform all_modified
              (sample_event "2024-02-29" "18:30")) as [e|this'] eqn:E;
    [vm_compute in E; discriminate E|].
  exists this'. split; [reflexivity|].
  refine (proj2 (canonical_date_kept ref_platform all_modified
                   (sample_event "2024-02-29" "18:30") 2024 2 29
                   eq_refl _ eq_refl eq_refl) this' E).
  lia.
Defined.

(** X14.  Saving a document again does not change its date: the date the hook
    stored, of a year from 0000 to 9999, is the date the hook stores when it
    runs on it once more. *)
Theorem date_normalisation_idempotent (P : Platform)
    (m m' : Event.path -> bool) (this this1 this2 : Event.IEvent) (t : Z) :
  m Event.Date = true -> m' Event.Date = true ->
  Date_parse P (Event.date this) = Some t ->
  0 <= Spec.utc_year t <= 9999 ->
  Event.pre_save P m this = inr this1 ->
  Event.pre_save P m' this1 = inr this2 ->
  Event.date this2 = Event.date this1.
Proof.
  intros Hm Hm' Ep Hy H1 H2.
  destruct (@pre_save_date P m this this1 H1 Hm) as [t' [Ep' Et]].
  rewrite Ep in Ep'. injection Ep' as Ep'. subst t'.
  unfold Spec.utc_year in Hy.
  destruct (civil_from_days (t / msPerDay)) as [[y mo] d] eqn:Ec.
  simpl in Hy.
  destruct (days_from_civil_from_days _ y mo d Ec) as [Hv _].
  rewrite (@iso_date_part _ y mo d Ec Hy), iso_date_trim in Et.
  apply (canonical_date_fixed P m' this1 this2 y mo d Hm' Hy Hv Et H2).
Qed.

Lemma date_normalisation_idempotent_witness :
  exists this1 this2,
    Event.pre_save ref_platform all_modified
      (sample_event "2024-02-29" "18:30") = inr this1
    /\ Event.pre_save ref_platform all_modified this1 = inr this2
    /\ Event.date this2 = Event.date this1.
Proof.
  eexists. eexists.
  split; [vm_compute; reflexivity|].
  split; [vm_compute; reflexivity|].
  refine (date_normalisation_idempotent ref_platform all_modified all_modified
            (sample_event "2024-02-29" "18:30") _ _ 1709164800000
            eq_refl eq_refl eq_refl _ _ _).
  - vm_compute. split; discriminate.
  - vm_compute. reflexivity.
  - vm_compute. reflexivity.
Defined.

(* ================================================================== *)
(** * Saving an Event: what is validated and what is stored *)
(* ================================================================== *)

Local Open Scope N_scope.

Lemma in_replace (c : Event.collection) (id : ObjectId) (e : Event.IEvent)
    (d : ObjectId * Event.IEvent) :
  In d (Event.replace_doc c id e) ->
  (In d c /\ fst d <> id) \/ d = (id, e).
Proof.
  unfold Event.replace_doc. rewrite in_map_iff. intros [[x v] [E Hin]].
  simpl in E. destruct (x =? id) eqn:Ex.
  - right. symmetry. exact E.
  - left. subst d. split; [exact Hin|]. simpl. apply N.eqb_neq, Ex.
Qed.

Lemma trim_trimmed (s : jsstring) : trimmed (trim s) = true.
Proof.
  unfold trimmed, trim.
  rewrite drop_while_end_ends, drop_while_end_starts
    by apply drop_while_starts.
  reflexivity.
Qed.

Lemma trim_head (c : codeunit) (r : jsstring) :
  is_space c = false -> trim (c :: r) <> [].
Proof.
  intros Hc E. destruct (trim_split (c :: r)) as [l [r' [Es [Hl Hr]]]].
  rewrite E in Es. simpl in Es.
  assert (Hin : In c (l ++ r')) by (rewrite <- Es; left; reflexivity).
  assert (Hs : is_space c = true).
  { apply in_app_or in Hin. destruct Hin as [Hin|Hin].
    - apply (proj1 (forallb_forall _ _) Hl c Hin).
    - apply (proj1 (forallb_forall _ _) Hr c Hin). }
  rewrite Hs in Hc. discriminate Hc.
Qed.

Lemma stored_trim (s : jsstring) :
  trim s <> [] -> stored_string (trim s) = true.
Proof.
  intros H. unfold stored_string.
  destruct (trim s) eqn:E; [contradiction H; reflexivity|].
  rewrite <- E. apply trim_trimmed.
Qed.

(** The date part of [toISOString] begins with a digit or a sign. *)
Lemma iso_head_stored (t : Z) :
  stored_string (trim (split_head 84 (toISOString t))) = true.
Proof.
  apply stored_trim. unfold toISOString.
  destruct (civil_from_days (t / msPerDay)) as [[y m] d]. unfold iso_year.
  destruct ((0 <=? y)%Z && (y <=? 9999)%Z);
    [|destruct (y <? 0)%Z];
    cbn [pad app lit map list_ascii_of_string split_head];
    rewrite ?digit_of_not_T;
    first [ apply trim_head, digit_not_space, digit_of_digit
          | change (is_char 84 (N_of_ascii "-")) with false; cbv iota;
            apply trim_head; reflexivity
          | change (is_char 84 (N_of_ascii "+")) with false; cbv iota;
            apply trim_head; reflexivity ].
Qed.

(** A required, trimmed string path of a valid document holds a stored
    string. *)
Lemma stored_field (P : Platform) (req : option jsstring) (u : bool)
    (en : option (list jsstring * jsstring))
    (va : option ((jsstring -> bool) * jsstring)) (o : option jsstring) :
  Spec.non_blank o = true ->
  stored_string
    (Event.string_of
       (apply_setters P (SString req true false u en va) (Event.of_string o)))
  = true.
Proof.
  destruct o as [s|]; simpl; [|discriminate].
  intros H. apply stored_trim. intros E. rewrite E in H. discriminate H.
Qed.

Lemma document_well_formed (P : Platform) (i : Event.EventInput) :
  Spec.valid_event i = true ->
  well_formed (Event.document (Event.assign P (Event.value_of i))) = true.
Proof.
  unfold Spec.valid_event, well_formed. rewrite !andb_true_iff.
  intros [[[[[[[[[[[[[H1 H2] H3] H4] H5] H6] H7] H8] H9] H10] H11] H12] H13] H14].
  unfold Event.document, Event.assign, Event.value_of.
  cbn [Event.title Event.description Event.overview Event.image Event.venue
       Event.location Event.date Event.time Event.mode Event.audience
       Event.organizer Event.agenda Event.tags Event.EventSchema].
  repeat split; try (apply stored_field; assumption).
  - destruct (Event.in_mode i) as [s|]; [exact H12 | discriminate H12].
  - destruct (Event.in_agenda i) as [[|x a]|]; try discriminate H13. reflexivity.
  - destruct (Event.in_tags i) as [[|x a]|]; try discriminate H14. reflexivity.
Qed.

(** The hook changes the slug and the date only, and the date it stores is
    the date part of an ISO string. *)
Lemma pre_save_shape (P : Platform) (m : Event.path -> bool)
    (this this' : Event.IEvent) :
  Event.pre_save P m this = inr this' ->
  Event.title this' = Event.title this
  /\ Event.description this' = Event.description this
  /\ Event.overview this' = Event.overview this
  /\ Event.image this' = Event.image this
  /\ Event.venue this' = Event.venue this
  /\ Event.location this' = Event.location this
  /\ Event.time this' = Event.time this
  /\ Event.mode this' = Event.mode this
  /\ Event.audience this' = Event.audience this
  /\ Event.agenda this' = Event.agenda this
  /\ Event.organizer this' = Event.organizer this
  /\ Event.tags this' = Event.tags this
  /\ (Event.date this' = Event.date this
      \/ exists t, Event.date this' = trim (split_head 84 (toISOString t))).
Proof.
  unfold Event.pre_save.
  destruct (m Event.Title), (m Event.Date), (m Event.Time); simpl;
    try destruct (Date_parse P (Event.date this)) as [t|]; simpl;
    try destruct (test Event.timeRegex (Event.time this)); simpl;
    intros E; inversion E; simpl; repeat split; eauto.
Qed.

Lemma pre_save_well_formed (P : Platform) (m : Event.path -> bool)
    (this this' : Event.IEvent) :
  well_formed this = true -> Event.pre_save P m this = inr this' ->
  well_formed this' = true.
Proof.
  intros Hw H.
  destruct (pre_save_shape P m this this' H)
    as (E1 & E2 & E3 & E4 & E5 & E6 & E7 & E8 & E9 & E10 & E11 & E12 & Ed).
  unfold well_formed in *.
  rewrite E1, E2, E3, E4, E5, E6, E7, E8, E9, E10, E11, E12.
  destruct Ed as [Ed|[t Ed]]; rewrite Ed; [exact Hw|].
  rewrite iso_head_stored.
  rewrite !andb_true_iff in *. tauto.
Qed.


(** ** The document in memory and the document written *)

Lemma trimmed_fixed (s : jsstring) : trimmed s = true -> trim s = s.
Proof.
  unfold trimmed, trim. rewrite andb_true_iff, !negb_true_iff.
  intros [H1 H2]. rewrite (drop_while_fixed is_space s H1).
  apply drop_while_end_fixed, H2.
Qed.

Lemma stored_string_fixed (s : jsstring) :
  stored_string s = true -> trim s = s /\ s <> [].
Proof.
  unfold stored_string. destruct s as [|c s]; [discriminate|].
  intros H. split; [apply trimmed_fixed, H | discriminate].
Qed.

(** A well-formed document, path by path. *)
Lemma well_formed_paths (ev : Event.IEvent) :
  well_formed ev = true <-> forall p, value_ok p (Event.stored ev p) = true.
Proof.
  unfold well_formed. rewrite !andb_true_iff. split.
  - intros H p.
    destruct p; cbn [value_ok Event.stored]; try reflexivity;
      try rewrite andb_true_iff; tauto.
  - intros H.
    pose proof (H Event.Mode) as Hm. cbn [value_ok Event.stored] in Hm.
    repeat split;
      first [ apply (H Event.Title) | apply (H Event.Description)
            | apply (H Event.Overview) | apply (H Event.Image)
            | apply (H Event.Venue) | apply (H Event.Location)
            | apply (H Event.Date) | apply (H Event.Time)
            | apply (H Event.Audience) | apply (H Event.Organizer)
            | apply (H Event.Agenda) | apply (H Event.Tags)
            | apply Hm ].
Qed.

(** A path that passes its validators holds in the document what it held
    as a value. *)
Lemma stored_document (f : Event.fields) (p : Event.path) :
  validate_path (Event.EventSchema p) (f p) = None ->
  p <> Event.Slug ->
  Event.stored (Event.document f) p = f p.
Proof.
  intros H Hp.
  destruct p; try (contradiction Hp; reflexivity); simpl in *;
    destruct (f _); simpl in *; try discriminate H; reflexivity.
Qed.

Lemma stored_set_paths (m : Event.path -> bool) (cur ev : Event.IEvent)
    (p : Event.path) :
  Event.stored (Event.set_paths m cur ev) p
  = if m p then Event.stored ev p else Event.stored cur p.
Proof.
  unfold Event.set_paths.
  destruct p; simpl; destruct (m _); simpl; try reflexivity;
    match goal with
    | |- context [Event.slug ?x] => destruct (Event.slug x); reflexivity
    end.
Qed.

Lemma array_eqb_refl (a : list jsstring) : Event.array_eqb a a = true.
Proof.
  induction a as [|x a IH]; simpl; [reflexivity|].
  rewrite jsstring_eqb_refl. exact IH.
Qed.

Lemma value_eqb_refl (v : value) : Event.value_eqb v v = true.
Proof.
  destruct v; simpl;
    auto using jsstring_eqb_refl, array_eqb_refl, N.eqb_refl.
Qed.

(** What is assigned to a path and passes its validators is fit to be
    stored. *)
Lemma assigned_ok (P : Platform) (d : Event.Doc) (p : Event.path) :
  Event.isModified P d p = true ->
  validate_path (Event.EventSchema p) (Event.in_memory P d p) = None ->
  value_ok p (Event.in_memory P d p) = true.
Proof.
  unfold Event.isModified, Event.in_memory, Event.given, Event.assign.
  destruct (Event.loaded d) as [old|];
    destruct p; simpl; try reflexivity;
    match goal with
    | |- context [Event.of_string ?o] => destruct o as [s|]
    | |- context [Event.of_array ?o] => destruct o as [[|x a]|]
    end; simpl; try discriminate; try reflexivity;
    try (destruct (trim s) eqn:E; [discriminate|]; rewrite <- E;
         try (destruct (includes _ (trim s)) eqn:Ei; [|discriminate]);
         intros _ _; rewrite stored_trim by (rewrite E; discriminate);
         reflexivity);
    intros _; destruct (trim s); try discriminate;
    match goal with
    | |- context [if ?b then None else _] => destruct b
    end; try discriminate; reflexivity.
Qed.

(** Outside [slug] and [date] the hook leaves the paths as they are. *)
Lemma hook_keeps (P : Platform) (m : Event.path -> bool)
    (this ev : Event.IEvent) (p : Event.path) :
  Event.pre_save P m this = inr ev ->
  p <> Event.Slug -> p <> Event.Date ->
  Event.stored ev p = Event.stored this p.
Proof.
  intros H Hs Hd.
  destruct (pre_save_shape P m this ev H)
    as (E1 & E2 & E3 & E4 & E5 & E6 & E7 & E8 & E9 & E10 & E11 & E12 & _).
  destruct p; simpl; try congruence; contradiction.
Qed.

(** A path the hook has not changed, modified and validated, is fit to be
    stored. *)
Lemma kept_ok (P : Platform) (d : Event.Doc) (ev : Event.IEvent)
    (p : Event.path) :
  validate_path (Event.EventSchema p) (Event.in_memory P d p) = None ->
  p <> Event.Slug ->
  Event.stored ev p = Event.stored (Event.document (Event.in_memory P d)) p ->
  Event.isModified P d p
  || Event.changed (Event.document (Event.in_memory P d)) ev p = true ->
  value_ok p (Event.stored ev p) = true.
Proof.
  intros Hv Hs E Hm. unfold Event.changed in Hm.
  rewrite E, value_eqb_refl, orb_false_r in Hm.
  rewrite E, (stored_document _ p Hv Hs). apply assigned_ok; assumption.
Qed.

(** Every path the update sends holds a value fit to be stored. *)
Lemma sent_ok (P : Platform) (d : Event.Doc) (ev : Event.IEvent)
    (p : Event.path) :
  Event.validation_errors (Event.in_memory P d) = [] ->
  Event.pre_save P (Event.isModified P d)
    (Event.document (Event.in_memory P d)) = inr ev ->
  Event.isModified P d p
  || Event.changed (Event.document (Event.in_memory P d)) ev p = true ->
  value_ok p (Event.stored ev p) = true.
Proof.
  intros Hv Hh Hm.
  pose proof (proj1 (validation_errors_nil _) Hv p) as Hp.
  destruct (pre_save_shape P _ _ ev Hh)
    as (_ & _ & _ & _ & _ & _ & _ & _ & _ & _ & _ & _ & Hd).
  assert (K : p <> Event.Slug -> p <> Event.Date ->
              value_ok p (Event.stored ev p) = true).
  { intros Hs Hdt. apply (kept_ok P d ev p Hp Hs); [|exact Hm].
    apply (hook_keeps P _ _ ev p Hh Hs Hdt). }
  destruct p; try (apply K; discriminate).
  - reflexivity.
  - destruct Hd as [Hd|[t Hd]].
    + apply (kept_ok P d ev Event.Date Hp); [discriminate | | exact Hm].
      simpl. rewrite Hd. reflexivity.
    + simpl. rewrite Hd. apply iso_head_stored.
Qed.

Lemma find_in (c : Event.collection) (id : ObjectId) (ev : Event.IEvent) :
  Event.find c id = Some ev -> In (id, ev) c.
Proof.
  induction c as [|[x e] c IH]; simpl; [discriminate|].
  destruct (x =? id) eqn:E.
  - intros H. injection H as H. subst e. apply N.eqb_eq in E. subst x.
    left. reflexivity.
  - intros H. right. apply IH, H.
Qed.

(** What a successful [save] has done. *)
Lemma save_cases (P : Platform) (c c' : Event.collection) (d : Event.Doc) :
  Event.save P c d = inr c' ->
  Event.validation_errors (Event.in_memory P d) = []
  /\ exists ev,
       Event.pre_save P (Event.isModified P d)
         (Event.document (Event.in_memory P d)) = inr ev
       /\ ((Event.loaded d = None /\ c' = c ++ [(Event._id d, ev)])
           \/ (exists old cur,
                 Event.loaded d = Some old
                 /\ Event.find c (Event._id d) = Some cur
                 /\ c' = Event.replace_doc c (Event._id d)
                           (Event.set_paths
                              (fun p =>
                                 Event.isModified P d p
                                 || Event.changed
                                      (Event.document (Event.in_memory P d))
                                      ev p)
                              cur ev))).
Proof.
  unfold Event.save.
  destruct (Event.validation_errors _) eqn:Ev; [|discriminate].
  destruct (Event.pre_save _ _ _) as [msg|ev] eqn:Eh; [discriminate|].
  intros H. split; [reflexivity|]. exists ev. split; [reflexivity|].
  destruct (Event.loaded d) as [old|] eqn:El.
  - right. destruct (Event.find c (Event._id d)) as [cur|]; [|discriminate].
    exists old, cur. cbv zeta in H.
    destruct (_ && _) in H; [discriminate|].
    injection H as H. subst c'. auto.
  - left. destruct (Event.slug_taken _ _ _); [discriminate|].
    destruct (Event.has_id _ _); [discriminate|].
    injection H as H. subst c'. auto.
Qed.

(** X17.  Every document of the collection has its required strings
    non-empty and trimmed, its mode among online, offline and hybrid, and
    an agenda and tags with an element: a successful save keeps it so,
    whatever the hook did to the date, on a create as on the update of a
    loaded document, of which only the modified paths are written. *)
Theorem save_keeps_well_formed (P : Platform) (c c' : Event.collection)
    (d : Event.Doc) :
  (forall x, In x c -> well_formed (snd x) = true) ->
  Event.save P c d = inr c' ->
  forall x, In x c' -> well_formed (snd x) = true.
Proof.
  intros Hc H x Hx.
  destruct (save_cases P c c' d H)
    as [Hv [ev [Hh [[El E]|[old [cur [El [Ef E]]]]]]]]; subst c'.
  - apply in_app_or in Hx. destruct Hx as [Hx|[Hx|[]]]; [apply Hc, Hx|].
    subst x. simpl.
    unfold Event.in_memory, Event.isModified in Hv, Hh. rewrite El in Hv, Hh.
    apply (pre_save_well_formed P _ _ ev
             (document_well_formed P _ (proj1 (validation_spec P _) Hv)) Hh).
  - destruct (in_replace c _ _ x Hx) as [[Hin _]|Ex]; [apply Hc, Hin|].
    subst x. simpl. apply well_formed_paths. intros p.
    rewrite stored_set_paths.
    destruct (Event.isModified P d p
              || Event.changed (Event.document (Event.in_memory P d)) ev p)
      eqn:Em.
    + apply (sent_ok P d ev p Hv Hh Em).
    + apply well_formed_paths.
      apply (Hc (Event._id d, cur)), find_in, Ef.
Qed.

Lemma jsstring_eqb_eq (a b : jsstring) : jsstring_eqb a b = true -> a = b.
Proof.
  revert b. induction a as [|x a IH]; intros [|y b]; simpl;
    try discriminate; [reflexivity|].
  rewrite andb_true_iff, N.eqb_eq. intros [E H]. subst y.
  rewrite (IH b H). reflexivity.
Qed.

(** A mode among the three names has no white space around it. *)
Lemma mode_fixed (s : jsstring) :
  includes [lit "online"; lit "offline"; lit "hybrid"] s = true ->
  trim s = s /\ s <> [].
Proof.
  unfold includes. simpl. rewrite !orb_true_iff.
  intros [H|[H|[H|H]]]; try discriminate H;
    apply jsstring_eqb_eq in H; subst s; split;
      try reflexivity; discriminate.
Qed.

(** On a loaded document that is well formed, the validators see what they
    would see had every path been assigned its current value: the setters
    change nothing on what was stored. *)
Lemma in_memory_validation (P : Platform) (d : Event.Doc) :
  (forall old, Event.loaded d = Some old -> well_formed old = true) ->
  forall p,
    validate_path (Event.EventSchema p) (Event.in_memory P d p)
    = validate_path (Event.EventSchema p)
        (Event.assign P (Event.value_of (Event.current d)) p).
Proof.
  intros Hw p. unfold Event.in_memory, Event.current.
  destruct (Event.loaded d) as [old|]; [|reflexivity].
  pose proof (proj1 (well_formed_paths old) (Hw old eq_refl) p) as Hp.
  unfold Event.assign.
  destruct p; cbn [Event.value_of Event.in_title Event.in_slug
                   Event.in_description Event.in_overview Event.in_image
                   Event.in_venue Event.in_location Event.in_date
                   Event.in_time Event.in_mode Event.in_audience
                   Event.in_agenda Event.in_organizer Event.in_tags
                   Event.stored value_ok] in *;
    match goal with
    | |- context [Event.of_string (Event.or_loaded ?o _)] => destruct o
    | |- context [Event.of_array (Event.or_loaded ?o _)] => destruct o
    | |- context [Event.of_string (Event.in_slug ?i)] =>
        destruct (Event.in_slug i); [reflexivity|];
        destruct (Event.slug old); reflexivity
    end; try reflexivity;
    cbn [Event.or_loaded Event.of_string Event.of_array apply_setters
         Event.EventSchema];
    try (rewrite (proj1 (stored_string_fixed _ Hp)); reflexivity);
    try (rewrite (proj1 (mode_fixed _ Hp)); reflexivity).
Qed.

Lemma validation_current (P : Platform) (d : Event.Doc) :
  (forall old, Event.loaded d = Some old -> well_formed old = true) ->
  Event.validation_errors (Event.in_memory P d) = []
  <-> Spec.valid_event (Event.current d) = true.
Proof.
  intros Hw. rewrite <- validation_spec with (P := P).
  rewrite !validation_errors_nil. split; intros H p.
  - rewrite <- (in_memory_validation P d Hw). apply H.
  - rewrite (in_memory_validation P d Hw). apply H.
Qed.

(** A write of a document that is not valid fails in validation. *)
Lemma save_invalid (P : Platform) (c : Event.collection) (d : Event.Doc) :
  (forall old, Event.loaded d = Some old -> well_formed old = true) ->
  Spec.valid_event (Event.current d) = false ->
  exists e es, Event.save P c d = inl (ValidationError (e :: es)).
Proof.
  intros Hw H. unfold Event.save.
  destruct (Event.validation_errors (Event.in_memory P d)) as [|e es] eqn:E.
  - apply (validation_current P d Hw) in E. congruence.
  - eauto.
Qed.

Lemma empty_agenda_invalid (i : Event.EventInput) :
  Event.in_agenda i = Some [] -> Spec.valid_event i = false.
Proof.
  intros H. unfold Spec.valid_event. rewrite H. simpl.
  rewrite andb_false_r. reflexivity.
Qed.

Lemma empty_tags_invalid (i : Event.EventInput) :
  Event.in_tags i = Some [] -> Spec.valid_event i = false.
Proof.
  intros H. unfold Spec.valid_event. rewrite H. simpl.
  apply andb_false_r.
Qed.

(** C9.  Every write of an Event checks that title, description, overview,
    image, venue, location, date, time, mode, audience and organizer are
    present and not blank once trimmed, that the trimmed mode is online,
    offline or hybrid, and that agenda and tags hold at least one element:
    a write that violates any of these fails with a validation error, and
    a write that goes through satisfies all of them.  The values checked
    are those the document holds when it is saved: on a create the values
    given, on the update of a loaded document the values assigned and, on
    the other paths, the values loaded, which are taken to be what an
    earlier write stored (a well-formed document).  In particular a create
    with an empty agenda fails, and so does one with no tag. *)
Theorem event_fields_validated (P : Platform) (c : Event.collection) :
  (forall d,
     (forall old, Event.loaded d = Some old -> well_formed old = true) ->
     Spec.valid_event (Event.current d) = false ->
     exists e es, Event.save P c d = inl (ValidationError (e :: es)))
  /\ (forall d c',
        (forall old, Event.loaded d = Some old -> well_formed old = true) ->
        Event.save P c d = inr c' ->
        Spec.valid_event (Event.current d) = true)
  /\ (forall id i, Spec.valid_event i = false ->
                   exists e es,
                     Event.create P c id i = inl (ValidationError (e :: es)))
  /\ (forall id i c', Event.create P c id i = inr c' ->
                      Spec.valid_event i = true)
  /\ (forall id i, Event.in_agenda i = Some [] ->
                   exists e es,
                     Event.create P c id i = inl (ValidationError (e :: es)))
  /\ (forall id i, Event.in_tags i = Some [] ->
                   exists e es,
                     Event.create P c id i = inl (ValidationError (e :: es))).
Proof.
  assert (N : forall id i old,
             Event.loaded {| Event._id := id; Event.loaded := None;
                             Event.assigned := i |} = Some old ->
             well_formed old = true) by (intros id i old H; discriminate H).
  split; [intros d; apply save_invalid|].
  split.
  { intros d c' Hw H. apply (validation_current P d Hw).
    apply (save_cases P c c' d H). }
  split.
  { intros id i H. apply (save_invalid P c _ (N id i) H). }
  split.
  { intros id i c' H. apply (@create_cases P c c' id i H). }
  split; intros id i H; apply (save_invalid P c _ (N id i)); simpl.
  - apply empty_agenda_invalid, H.
  - apply empty_tags_invalid, H.
Qed.

Lemma event_fields_validated_witness :
  (exists e es,
     Event.create ref_platform [] 1 sample_no_agenda
     = inl (ValidationError (e :: es)))
  /\ (exists e es,
        Event.save ref_platform [(1, dev_night)] (venue_update "   ")
        = inl (ValidationError (e :: es))).
Proof.
  pose proof (event_fields_validated ref_platform [(1, dev_night)])
    as [H1 _].
  pose proof (event_fields_validated ref_platform []) as [_ [_ [_ [_ [H5 _]]]]].
  split; [exact (H5 1 sample_no_agenda eq_refl)|].
  apply H1; [|reflexivity].
  intros old E. injection E as E. subst old. reflexivity.
Defined.

Lemma save_keeps_well_formed_witness :
  exists ev,
    Event.save ref_platform [(1, dev_night)] (title_update "Rust Meetup")
    = inr [(1, ev)]
    /\ Event.slug ev = Some (lit "rust-meetup")
    /\ well_formed ev = true.
Proof.
  eexists. split; [vm_compute; reflexivity|]. split; [reflexivity|].
  match goal with
  | |- well_formed ?ev = true =>
      apply (save_keeps_well_formed ref_platform [(1, dev_night)] [(1, ev)]
               (title_update "Rust Meetup"))
        with (x := (1, ev))
  end.
  - intros x [E|[]]. subst x. reflexivity.
  - vm_compute. reflexivity.
  - left. reflexivity.
Defined.

(* ================================================================== *)
(** * Dates: what the stored date denotes *)
(* ================================================================== *)

Local Open Scope Z_scope.

(** X18.  The date the hook stores, of a year from 0000 to 9999, is the UTC day
    of the instant the given date denotes: read back, it is the midnight
    UTC at or before that instant, less than a day earlier. *)
Theorem stored_date_is_utc_day (P : Platform) (m : Event.path -> bool)
    (this this' : Event.IEvent) (t : Z) :
  m Event.Date = true ->
  Date_parse P (Event.date this) = Some t ->
  0 <= Spec.utc_year t <= 9999 ->
  Event.pre_save P m this = inr this' ->
  Date_parse P (Event.date this') = Some (t / msPerDay * msPerDay)
  /\ t / msPerDay * msPerDay <= t < t / msPerDay * msPerDay + msPerDay.
Proof.
  intros Hm Ep Hy H. split.
  - destruct (@pre_save_date P m this this' H Hm) as [t' [Ep' Et]].
    rewrite Ep in Ep'. injection Ep' as Ep'. subst t'.
    unfold Spec.utc_year in Hy.
    destruct (civil_from_days (t / msPerDay)) as [[y mo] d] eqn:Ec.
    simpl in Hy.
    destruct (days_from_civil_from_days _ y mo d Ec) as [Hv Ed].
    rewrite (@iso_date_part _ y mo d Ec Hy), iso_date_trim in Et.
    rewrite Et. unfold Date_parse.
    change (pad 4 y ++ [hyphen] ++ pad 2 mo ++ [hyphen] ++ pad 2 d)
      with (iso_date y mo d).
    rewrite (parse_iso_date_canonical y mo d Hy Hv), Ed. reflexivity.
  - unfold msPerDay. Z.div_mod_to_equations. lia.
Qed.

Lemma stored_date_is_utc_day_witness :
  exists this',
    Event.pre_save ref_platform all_modified
      (sample_event "2024-02-29" "18:30") = inr this'
    /\ Date_parse ref_platform (Event.date this') = Some 1709164800000.
Proof.
  eexists. split; [vm_compute; reflexivity|].
  refine (proj1 (stored_date_is_utc_day ref_platform all_modified
                   (sample_event "2024-02-29" "18:30") _ 1709164800000
                   eq_refl eq_refl _ _)).
  - vm_compute. split; discriminate.
  - vm_compute. reflexivity.
Defined.
